(** * cbae: the cue-sheet reader [cdinfos]

    A shallow embedding of the cue-sheet model of cbae: the time code
    [cuetime], the track record [cdtrack], the line parser [_cueParser], the
    loader [loadCue] with its byte-layout pass, the file-name template engine
    [prepareFilenames] and the sheet generators [buildCueFileForCBAE] and
    [generateCueForEncoded]; then the queries [getTrackFilePath] and
    [getAudioSize], and [createOuputDir] of the application, which names the
    directory of the encoded tracks.

    Conventions of the embedding.
    - A JavaScript number is a [Z]. The numbers the reader computes are
      integers (values of digit captures, sector sizes times frame counts,
      file sizes), and the arithmetic of doubles is exact on integers below
      2^53. The captures of track and index numbers have no bound on their
      length in the source; the model gives every numeral its exact value.
    - A JavaScript string is a [string] of 8-bit characters; the character
      classes, [trim] and the case mapping are those of JavaScript on ASCII
      text.
    - [null]/[undefined] is [None].
    - A method of [cdinfos] is a computation of the monad [js]: it reads and
      writes the instance and either completes or throws a message. The
      instance keeps every write made before a throw.
    - [opentrack] is a reference to an element of [tracks]; it is modelled by
      the position of that element, so that a write through [opentrack] is a
      write to the element of [tracks] it aliases. *)

From Stdlib Require Import ZArith Ascii String DecimalString Lia Bool.
From Stdlib Require DecimalPos.
From stdpp Require Import base list strings.

Open Scope Z_scope.

(** ** JavaScript built-ins used by the reader *)
Module JS.

Definition code (c : ascii) : N := N_of_ascii c.

Definition between (lo hi : N) (c : ascii) : bool :=
    ((lo <=? code c) && (code c <=? hi))%N.

(** [\d] *)
Definition is_digit (c : ascii) : bool := between 48 57 c.

(** [\w] : letters, digits and the underscore *)
Definition is_word (c : ascii) : bool :=
    between 65 90 c || between 97 122 c || is_digit c || (code c =? 95)%N.

(** [\s], and the characters [trim] removes: TAB, LF, VT, FF, CR, space *)
Definition is_space (c : ascii) : bool :=
    between 9 13 c || (code c =? 32)%N.

(** [\S] *)
Definition is_nonspace (c : ascii) : bool := negb (is_space c).

(** [.] : anything but a line terminator *)
Definition is_dot (c : ascii) : bool :=
    negb ((code c =? 10)%N || (code c =? 13)%N).

Definition upper_char (c : ascii) : ascii :=
    if between 97 122 c then ascii_of_N (code c - 32) else c.

Definition lower_char (c : ascii) : ascii :=
    if between 65 90 c then ascii_of_N (code c + 32) else c.

Fixpoint map_chars (f : ascii -> ascii) (s : string) : string :=
    match s with
    | EmptyString => EmptyString
    | String c s' => String (f c) (map_chars f s')
    end.

Definition toUpperCase : string -> string := map_chars upper_char.
Definition toLowerCase : string -> string := map_chars lower_char.

Definition is_empty (s : string) : bool :=
    match s with EmptyString => true | String _ _ => false end.

Fixpoint trimStart (s : string) : string :=
    match s with
    | String c s' => if is_space c then trimStart s' else s
    | EmptyString => EmptyString
    end.

Fixpoint trimEnd (s : string) : string :=
    match s with
    | String c s' =>
        let t := trimEnd s' in
        if is_space c && is_empty t then EmptyString else String c t
    | EmptyString => EmptyString
    end.

Definition trim (s : string) : string := trimEnd (trimStart s).

(** [s.startsWith(p)] *)
Definition startsWith (s p : string) : bool := String.prefix p s.

Definition digit_val (c : ascii) : Z := Z.of_N (code c - 48).

Fixpoint parse_digits (acc : Z) (s : string) : Z :=
    match s with
    | String c s' =>
        if is_digit c then parse_digits (10 * acc + digit_val c) s' else acc
    | EmptyString => acc
    end.

(** [parseInt(s)] on the digit captures the reader passes to it: the value
    of the leading run of decimal digits. (Without a leading digit
    JavaScript gives NaN; no caller passes such a string, every argument is
    a [\d+] or [\d{1,2}] capture.) *)
Definition parseInt (s : string) : Z := parse_digits 0 s.

(** [n.toString()] of an integer *)
Definition numToString (n : Z) : string := NilZero.string_of_int (Z.to_int n).

(** [s.padStart(2,'0')] *)
Definition padStart2 (s : string) : string :=
    match s with
    | EmptyString => "00"
    | String c EmptyString => String "0"%char s
    | _ => s
    end.

(** truthiness of a string-or-null value *)
Definition truthy (v : option string) : bool :=
    match v with
    | Some s => negb (is_empty s)
    | None => false
    end.

(** [a ?? b] *)
Definition nullish {A : Type} (v : option A) (d : A) : A :=
    match v with Some x => x | None => d end.

Definition TAB : string := String (ascii_of_N 9) EmptyString.
Definition quote_char : ascii := ascii_of_N 34.
Definition QUOTE : string := String quote_char EmptyString.

End JS.

(** ** Regular expressions

    The expressions of the reader use only character classes, literal
    characters, greedy [*], [+] and [{1,2}], groups and [^]. They are written
    with backtracking combinators in continuation-passing style: a combinator
    receives the input and a continuation that is given the text it matched
    and the remaining input; a greedy repetition offers its longest match
    first and gives characters back one at a time while the continuation
    fails, which is the order of the JavaScript matcher. *)
Module RegExp.
Section Combinators.
Context {R : Type}.

(** [c*] *)
Fixpoint star (c : ascii -> bool) (s : string)
        (k : string -> string -> option R) : option R :=
      match s with
      | String x s' =>
          if c x then
            match star c s' (fun m r => k (String x m) r) with
            | Some v => Some v
            | None => k EmptyString s
            end
          else k EmptyString s
      | EmptyString => k EmptyString EmptyString
      end.

(** [c+] *)
Definition plus (c : ascii -> bool) (s : string)
        (k : string -> string -> option R) : option R :=
      match s with
      | String x s' =>
          if c x then star c s' (fun m r => k (String x m) r) else None
      | EmptyString => None
      end.

(** [c{1,2}] *)
Definition upto2 (c : ascii -> bool) (s : string)
        (k : string -> string -> option R) : option R :=
      match s with
      | String x s' =>
          if c x then
            match
              match s' with
              | String y s'' =>
                  if c y then k (String x (String y EmptyString)) s''
                  else None
              | EmptyString => None
              end
            with
            | Some v => Some v
            | None => k (String x EmptyString) s'
            end
          else None
      | EmptyString => None
      end.

(** a literal character *)
Definition chr (a : ascii) (s : string) (k : string -> option R)
        : option R :=
      match s with
      | String x s' => if Ascii.eqb x a then k s' else None
      | EmptyString => None
      end.

(** [exec] of an expression without [^]: the first start position, from
    the left, at which the expression matches *)
Fixpoint search (p : string -> option R) (s : string) : option R :=
      match p s with
      | Some v => Some v
      | None =>
          match s with
          | String _ s' => search p s'
          | EmptyString => None
          end
      end.
End Combinators.
End RegExp.

(** ** [class cuetime] *)
Module cuetime.

Record t : Type := new {
    no : Z;        (* index number *)
    minutes : Z;
    seconds : Z;
    frames : Z     (* seventy five frames to one second *)
  }.

Definition toFrames (this : t) : Z :=
    (seconds this * 75) + (minutes this * 60 * 75) + frames this.

(** [fromFrames(f)] assigns the three time fields of [this]. [Math.floor]
    of a quotient by a positive constant is [Z.div]; [%] is the truncated
    remainder [Z.rem]. *)
Definition fromFrames (f : Z) (this : t) : t :=
    {| no := no this;
       minutes := f / 4500;
       seconds := Z.rem f 4500 / 75;
       frames := Z.rem f 75 |}.

Definition toString (this : t) : string :=
    JS.padStart2 (JS.numToString (minutes this)) +:+ ":" +:+
    JS.padStart2 (JS.numToString (seconds this)) +:+ ":" +:+
    JS.padStart2 (JS.numToString (frames this)).

End cuetime.

(** ** [class cdtrack] *)
Module cdtrack.

Record t : Type := mk {
    file : option string;      (* the FILE the track opens, if it opens one *)
    type : option string;
    no : Z;
    title : option string;
    artist : option string;
    pregap : option cuetime.t;
    indexes : list cuetime.t;
    hash : string;
    byteStart : Z;
    byteSize : Z;
    shared : option string
  }.

(** [new cdtrack()] *)
Definition new : t :=
    {| file := None; type := None; no := 0; title := None; artist := None;
       pregap := None; indexes := []; hash := "-"; byteStart := 0;
       byteSize := 0; shared := None |}.

Definition set_title (v : option string) (r : t) : t :=
    mk (file r) (type r) (no r) v (artist r) (pregap r) (indexes r) (hash r)
       (byteStart r) (byteSize r) (shared r).
Definition set_artist (v : option string) (r : t) : t :=
    mk (file r) (type r) (no r) (title r) v (pregap r) (indexes r) (hash r)
       (byteStart r) (byteSize r) (shared r).
Definition set_pregap (v : option cuetime.t) (r : t) : t :=
    mk (file r) (type r) (no r) (title r) (artist r) v (indexes r) (hash r)
       (byteStart r) (byteSize r) (shared r).
Definition set_indexes (v : list cuetime.t) (r : t) : t :=
    mk (file r) (type r) (no r) (title r) (artist r) (pregap r) v (hash r)
       (byteStart r) (byteSize r) (shared r).
Definition set_byteStart (v : Z) (r : t) : t :=
    mk (file r) (type r) (no r) (title r) (artist r) (pregap r) (indexes r)
       (hash r) v (byteSize r) (shared r).
Definition set_byteSize (v : Z) (r : t) : t :=
    mk (file r) (type r) (no r) (title r) (artist r) (pregap r) (indexes r)
       (hash r) (byteStart r) v (shared r).
Definition set_shared (v : option string) (r : t) : t :=
    mk (file r) (type r) (no r) (title r) (artist r) (pregap r) (indexes r)
       (hash r) (byteStart r) (byteSize r) v.

(** [indexes.push(c)] *)
Definition push_index (c : cuetime.t) (r : t) : t :=
    set_indexes (indexes r ++ [c]) r.

(** [indexExists(ind)] : [indexes.some(a => a.no == ind)] *)
Definition indexExists (ind : Z) (this : t) : bool :=
    existsb (fun a => cuetime.no a =? ind) (indexes this).

(** [get isData] *)
Definition isData (this : t) : bool :=
    match type this with
    | Some ty => negb (String.eqb ty "AUDIO")
    | None => true
    end.

(** [get noStr] *)
Definition noStr (this : t) : string :=
    JS.padStart2 (JS.numToString (no this)).

(** [`${this.type}`] *)
Definition typeStr (this : t) : string := JS.nullish (type this) "null".

End cdtrack.

(** The files a FILE line may declare. *)
Definition SUPPORTED_TRACK_FILES : list string := ["BINARY"; "WAVE"].

(** [SUPPORTED_TRACK_FILES.includes(x)] *)
Definition includes (l : list string) (x : string) : bool :=
  existsb (String.eqb x) l.

(** The sector size of a track type, as an association list in the order of
    the source's object literal. *)
Definition sectorsByType_table : list (string * Z) :=
  [ ("AUDIO", 2352); ("CDG", 2448); ("MODE1_RAW", 2352);
    ("MODE1/2048", 2048); ("MODE1/2352", 2352); ("MODE2_RAW", 2352);
    ("MODE2/2048", 2048); ("MODE2/2324", 2324); ("MODE2/2336", 2336);
    ("MODE2/2352", 2352); ("CDI/2336", 2336); ("CDI/2352", 2352) ].

Fixpoint assoc (k : string) (l : list (string * Z)) : option Z :=
  match l with
  | (k', v) :: l' => if String.eqb k k' then Some v else assoc k l'
  | [] => None
  end.

(** [sectorsByType[ty]]; [None] where the object has no such own property *)
Definition sectorsByType (ty : string) : option Z :=
  assoc ty sectorsByType_table.

(** ** [class cdinfos] : the instance *)
Module cdinfos.

Record t : Type := mk {
    CD_ARTIST : string;
    CD_TITLE : string;
    CD_SIZE : Z;
    CD_FILE : string;
    FILE_LOADED : option string;
    FILE_DIR : option string;
    tracks : list cdtrack.t;
    opentrack : option nat;           (* reference into [tracks] *)
    openfile : option string;
    readyFiles : option (list string)
  }.

(** [new cdinfos()] *)
Definition new : t :=
    {| CD_ARTIST := EmptyString; CD_TITLE := EmptyString; CD_SIZE := 0;
       CD_FILE := EmptyString; FILE_LOADED := None; FILE_DIR := None;
       tracks := []; opentrack := None; openfile := None;
       readyFiles := None |}.

Definition set_CD_ARTIST (v : string) (r : t) : t :=
    mk v (CD_TITLE r) (CD_SIZE r) (CD_FILE r) (FILE_LOADED r) (FILE_DIR r)
       (tracks r) (opentrack r) (openfile r) (readyFiles r).
Definition set_CD_TITLE (v : string) (r : t) : t :=
    mk (CD_ARTIST r) v (CD_SIZE r) (CD_FILE r) (FILE_LOADED r) (FILE_DIR r)
       (tracks r) (opentrack r) (openfile r) (readyFiles r).
Definition set_CD_SIZE (v : Z) (r : t) : t :=
    mk (CD_ARTIST r) (CD_TITLE r) v (CD_FILE r) (FILE_LOADED r) (FILE_DIR r)
       (tracks r) (opentrack r) (openfile r) (readyFiles r).
Definition set_CD_FILE (v : string) (r : t) : t :=
    mk (CD_ARTIST r) (CD_TITLE r) (CD_SIZE r) v (FILE_LOADED r) (FILE_DIR r)
       (tracks r) (opentrack r) (openfile r) (readyFiles r).
Definition set_FILE_LOADED (v : option string) (r : t) : t :=
    mk (CD_ARTIST r) (CD_TITLE r) (CD_SIZE r) (CD_FILE r) v (FILE_DIR r)
       (tracks r) (opentrack r) (openfile r) (readyFiles r).
Definition set_FILE_DIR (v : option string) (r : t) : t :=
    mk (CD_ARTIST r) (CD_TITLE r) (CD_SIZE r) (CD_FILE r) (FILE_LOADED r) v
       (tracks r) (opentrack r) (openfile r) (readyFiles r).
Definition set_tracks (v : list cdtrack.t) (r : t) : t :=
    mk (CD_ARTIST r) (CD_TITLE r) (CD_SIZE r) (CD_FILE r) (FILE_LOADED r)
       (FILE_DIR r) v (opentrack r) (openfile r) (readyFiles r).
Definition set_opentrack (v : option nat) (r : t) : t :=
    mk (CD_ARTIST r) (CD_TITLE r) (CD_SIZE r) (CD_FILE r) (FILE_LOADED r)
       (FILE_DIR r) (tracks r) v (openfile r) (readyFiles r).
Definition set_openfile (v : option string) (r : t) : t :=
    mk (CD_ARTIST r) (CD_TITLE r) (CD_SIZE r) (CD_FILE r) (FILE_LOADED r)
       (FILE_DIR r) (tracks r) (opentrack r) v (readyFiles r).
Definition set_readyFiles (v : option (list string)) (r : t) : t :=
    mk (CD_ARTIST r) (CD_TITLE r) (CD_SIZE r) (CD_FILE r) (FILE_LOADED r)
       (FILE_DIR r) (tracks r) (opentrack r) (openfile r) v.

End cdinfos.

(** ** The monad of methods *)
Inductive completion (A : Type) : Type :=
| Normal (a : A)
| Throw (e : string).
Arguments Normal {A} a.
Arguments Throw {A} e.

Definition js (A : Type) : Type := cdinfos.t -> completion A * cdinfos.t.

Definition ret {A : Type} (a : A) : js A := fun cd => (Normal a, cd).

Definition bind {A B : Type} (m : js A) (k : A -> js B) : js B :=
  fun cd =>
    match m cd with
    | (Normal a, cd') => k a cd'
    | (Throw e, cd') => (Throw e, cd')
    end.

Definition throw {A : Type} (e : string) : js A := fun cd => (Throw e, cd).

Definition this : js cdinfos.t := fun cd => (Normal cd, cd).

Definition update (f : cdinfos.t -> cdinfos.t) : js unit :=
  fun cd => (Normal tt, f cd).

(** [try { m } catch (e) { throw h(e) }] *)
Definition rethrow {A : Type} (h : string -> string) (m : js A) : js A :=
  fun cd =>
    match m cd with
    | (Normal a, cd') => (Normal a, cd')
    | (Throw e, cd') => (Throw (h e), cd')
    end.

Notation "'do' x <- m ; k" := (bind m (fun x => k))
  (at level 10, x name, m at level 100, k at level 200).
Notation "'run' m ; k" := (bind m (fun _ => k))
  (at level 10, m at level 100, k at level 200).

(** A completion is normal. *)
Definition completes {A : Type} (r : completion A * cdinfos.t) : bool :=
  match r with
  | (Normal _, _) => true
  | (Throw _, _) => false
  end.

(** ** What the reader imports

    [node:path], [node:fs] and the author's [jlib] are not part of the
    repository; the reader is parametric in them. *)
Class Host : Type := {
  sanitizePath : string -> string;                 (* jlib FsTools *)
  getFileLines : string -> option (list string);   (* jlib FsTools; nothing when the file cannot be read *)
  fileGet : string -> option string;               (* jlib FsTools, first release *)
  path_normalize : string -> string;
  path_extname : string -> string;
  path_resolve : string -> string;
  path_dirname : string -> string;
  path_basename : string -> string;
  path_parse_name : string -> string;              (* [PATH.parse(p).name] *)
  path_join : string -> string -> string;
  fs_existsSync : string -> bool;
  fs_statSync_size : string -> Z
}.

(** ** References to tracks *)

(** read the track a reference points to *)
Definition deref (o : nat) : js cdtrack.t :=
  do cd <- this;
  match cdinfos.tracks cd !! o with
  | Some tr => ret tr
  | None => throw "TypeError"
  end.

(** write to the track a reference points to *)
Definition assign (o : nat) (f : cdtrack.t -> cdtrack.t) : js unit :=
  update (fun cd => cdinfos.set_tracks (alter f o (cdinfos.tracks cd)) cd).

(** [cdtrack.validCheck()] *)
Definition validCheck (tr : cdtrack.t) : js unit :=
  if cdtrack.indexExists 1 tr then ret tt
  else throw ("TRACK " +:+ JS.numToString (cdtrack.no tr) +:+ " has no INDEX").

(** [this.opentrack?.validCheck()] *)
Definition opentrack_validCheck : js unit :=
  do cd <- this;
  match cdinfos.opentrack cd with
  | Some o => do tr <- deref o; validCheck tr
  | None => ret tt
  end.

(** ** The expressions of [_cueParser] *)
Module Pattern.
Import RegExp.

(** [/^\w+\s+(.+)/] *)
Definition argument (s : string) : option string :=
    plus JS.is_word s (fun _ s1 =>
    plus JS.is_space s1 (fun _ s2 =>
    plus JS.is_dot s2 (fun a _ => Some a))).

(** [x.replace(re, "$1")], where [re] is [^], a quote, a group of a greedy
    starred dot, and a quote: the leading quote and the last quote after it
    are removed *)
Definition unquote (x : string) : string :=
    match
      chr JS.quote_char x (fun s1 =>
      star JS.is_dot s1 (fun a s2 =>
      chr JS.quote_char s2 (fun s3 => Some (a +:+ s3))))
    with
    | Some y => y
    | None => x
    end.

(** [/^\w+\s+"(.+)"\s+(.+)/] *)
Definition file (s : string) : option (string * string) :=
    plus JS.is_word s (fun _ s1 =>
    plus JS.is_space s1 (fun _ s2 =>
    chr JS.quote_char s2 (fun s3 =>
    plus JS.is_dot s3 (fun name s4 =>
    chr JS.quote_char s4 (fun s5 =>
    plus JS.is_space s5 (fun _ s6 =>
    plus JS.is_dot s6 (fun ty _ => Some (name, ty)))))))).

(** [/^\w+\s+(\d+)\s+(\S+)/] *)
Definition track (s : string) : option (string * string) :=
    plus JS.is_word s (fun _ s1 =>
    plus JS.is_space s1 (fun _ s2 =>
    plus JS.is_digit s2 (fun n s3 =>
    plus JS.is_space s3 (fun _ s4 =>
    plus JS.is_nonspace s4 (fun ty _ => Some (n, ty)))))).

(** [(\d{1,2}):(\d{1,2}):(\d{1,2})] *)
Definition msf (s : string) : option (string * string * string) :=
    upto2 JS.is_digit s (fun m s1 =>
    chr ":" s1 (fun s2 =>
    upto2 JS.is_digit s2 (fun sec s3 =>
    chr ":" s3 (fun s4 =>
    upto2 JS.is_digit s4 (fun f _ => Some (m, sec, f)))))).

(** [/^\w+\s+(\d+)\s+(\d{1,2}):(\d{1,2}):(\d{1,2})/] *)
Definition index (s : string)
      : option (string * (string * string * string)) :=
    plus JS.is_word s (fun _ s1 =>
    plus JS.is_space s1 (fun _ s2 =>
    plus JS.is_digit s2 (fun n s3 =>
    plus JS.is_space s3 (fun _ s4 =>
    match msf s4 with
    | Some t => Some (n, t)
    | None => None
    end)))).

(** [/\w+\s+(\d{1,2}):(\d{1,2}):(\d{1,2})/], which has no [^] *)
Definition pregap (s : string) : option (string * string * string) :=
    search (fun s0 =>
      plus JS.is_word s0 (fun _ s1 =>
      plus JS.is_space s1 (fun _ s2 => msf s2))) s.

(** first release, TITLE: [/^\w+\s+"(.+)"/] *)
Definition quoted (s : string) : option string :=
    plus JS.is_word s (fun _ s1 =>
    plus JS.is_space s1 (fun _ s2 =>
    chr JS.quote_char s2 (fun s3 =>
    plus JS.is_dot s3 (fun a s4 =>
    chr JS.quote_char s4 (fun _ => Some a))))).

(** first release, FILE: [/.+"(.+)"\s+(.+)/], which has no [^] *)
Definition file_v09 (s : string) : option (string * string) :=
    search (fun s0 =>
      plus JS.is_dot s0 (fun _ s1 =>
      chr JS.quote_char s1 (fun s3 =>
      plus JS.is_dot s3 (fun name s4 =>
      chr JS.quote_char s4 (fun s5 =>
      plus JS.is_space s5 (fun _ s6 =>
      plus JS.is_dot s6 (fun ty _ => Some (name, ty)))))))) s.

End Pattern.

(** [new cuetime(parseInt(n), parseInt(m), parseInt(s), parseInt(f))] *)
Definition cuetime_of (n : Z) (t : string * string * string) : cuetime.t :=
  let '(m, s, f) := t in
  cuetime.new n (JS.parseInt m) (JS.parseInt s) (JS.parseInt f).

Definition BAD_SYNTAX : string := "Line error, Bad Syntax".

(** ** [_cueParser], command by command *)
Module Command.

Definition TITLE (lineup : string) : js unit :=
    match Pattern.argument lineup with
    | None => throw BAD_SYNTAX
    | Some res1 =>
        let res1 := Pattern.unquote res1 in
        do cd <- this;
        match cdinfos.opentrack cd with
        | Some o => assign o (cdtrack.set_title (Some res1))
        | None => update (cdinfos.set_CD_TITLE res1)
        end
    end.

Definition PERFORMER (lineup : string) : js unit :=
    match Pattern.argument lineup with
    | None => throw BAD_SYNTAX
    | Some res1 =>
        let res1 := Pattern.unquote res1 in
        do cd <- this;
        match cdinfos.opentrack cd with
        | Some o => assign o (cdtrack.set_artist (Some res1))
        | None => update (cdinfos.set_CD_ARTIST res1)
        end
    end.

(** matched against [line], not [lineup], for the case of the file name *)
Definition FILE (line : string) : js unit :=
    match Pattern.file line with
    | None => throw BAD_SYNTAX
    | Some (res1, res2) =>
        if negb (includes SUPPORTED_TRACK_FILES res2)
        then throw ("Unsupported TRACK File Type " +:+ res2)
        else
          run opentrack_validCheck;
          update (cdinfos.set_openfile (Some res1))
    end.

(** the track of a TRACK line: a [new cdtrack()] with its [no], [type] and
      [file] assigned *)
Definition new_track (openfile : option string) (res1 res2 : string)
      : cdtrack.t :=
    cdtrack.mk openfile (Some (JS.toUpperCase res2)) (JS.parseInt res1)
      None None None [] "-" 0 0 None.

Definition TRACK (lineup : string) : js unit :=
    do cd <- this;
    if bool_decide (cdinfos.openfile cd = None)
       && (length (cdinfos.tracks cd) =? 0)%nat
    then throw "A FILE has not been defined before TRACK 01"
    else
      run opentrack_validCheck;
      match Pattern.track lineup with
      | None => throw BAD_SYNTAX
      | Some (res1, res2) =>
          if existsb (fun t => cdtrack.no t =? JS.parseInt res1)
               (cdinfos.tracks cd)
          then throw ("Track " +:+ res1 +:+ " is already defined")
          else
            match sectorsByType res2 with
            | None => throw ("Unsupported Track type " +:+ res2)
            | Some _ =>
                let tr := new_track (cdinfos.openfile cd) res1 res2 in
                update (fun cd =>
                  cdinfos.set_tracks (cdinfos.tracks cd ++ [tr])
                    (cdinfos.set_openfile None
                      (cdinfos.set_opentrack
                        (Some (length (cdinfos.tracks cd))) cd)))
            end
      end.

Definition INDEX (lineup : string) : js unit :=
    do cd <- this;
    match cdinfos.opentrack cd with
    | None => throw "A Track is not defined yet"
    | Some o =>
        match Pattern.index lineup with
        | None => throw BAD_SYNTAX
        | Some (res1, t) =>
            do tr <- deref o;
            if cdtrack.indexExists (JS.parseInt res1) tr
            then throw ("Track " +:+ JS.numToString (cdtrack.no tr) +:+
                        " - Duplicate Index entry " +:+ res1)
            else assign o (cdtrack.push_index (cuetime_of (JS.parseInt res1) t))
        end
    end.

Definition PREGAP (lineup : string) : js unit :=
    do cd <- this;
    match cdinfos.opentrack cd with
    | None => throw "A Track is not defined yet"
    | Some o =>
        match Pattern.pregap lineup with
        | None => throw BAD_SYNTAX
        | Some t => assign o (cdtrack.set_pregap (Some (cuetime_of 0 t)))
        end
    end.

End Command.

(** [_cueParser(line)]; [line] is trimmed and not empty *)
Definition _cueParser (line : string) : js unit :=
  let lineup := JS.toUpperCase line in
  if JS.startsWith lineup "REM" || JS.startsWith lineup ";" then ret tt
  else if JS.startsWith lineup "TITLE" then Command.TITLE lineup
  else if JS.startsWith lineup "PERFORMER" then Command.PERFORMER lineup
  else if JS.startsWith lineup "FILE" then Command.FILE line
  else if JS.startsWith lineup "TRACK" then Command.TRACK lineup
  else if JS.startsWith lineup "INDEX" then Command.INDEX lineup
  else if JS.startsWith lineup "PREGAP" then Command.PREGAP lineup
  else ret tt.

(** ** [loadCue] *)
Section Loader.
Context `{Host}.

Definition parse_error (l : Z) (e : string) : string :=
    "Cue Parse Error on Line (" +:+ JS.numToString (l + 1) +:+ ") : " +:+ e.

(** the body of the loop over the lines, for line [l] (counted from 0) *)
Definition parse_line (l : Z) (raw : string) : js unit :=
    let line := JS.trim raw in
    if JS.is_empty line then ret tt
    else rethrow (parse_error l) (_cueParser line).

(** the loop over the lines of the sheet, from line [l] on *)
Fixpoint parse_lines (l : Z) (lines : list string) : js unit :=
    match lines with
    | [] => ret tt
    | raw :: rest => run parse_line l raw; parse_lines (l + 1) rest
    end.

(** One round of the layout loop for track [i], in its two statements. The
    cursor holds [ot], a reference to the last track with a file, and [os],
    the size of that file. *)

(** the first statement: a track with a file becomes the owner, its file
    must exist and its size is added to [CD_SIZE]; a track without one
    shares the owner's file *)
Definition layout_owner (i : nat) (cur : option nat * option Z)
      : js (option nat * option Z) :=
    do tr <- deref i;
    if JS.truthy (cdtrack.file tr) then
      do cd <- this;
      match cdinfos.FILE_DIR cd with
      | None => throw "TypeError"
      | Some dir =>
          let f_full := path_join dir (JS.nullish (cdtrack.file tr) "null") in
          if negb (fs_existsSync f_full) then
            throw ("File " +:+ JS.QUOTE +:+
                   JS.nullish (cdtrack.file tr) "null" +:+ JS.QUOTE +:+
                   " does not exist in .cue directory")
          else
            let os := fs_statSync_size f_full in
            run update (cdinfos.set_CD_SIZE (cdinfos.CD_SIZE cd + os));
            ret (Some i, Some os)
      end
    else
      match fst cur with
      | None => throw "TypeError"
      | Some o =>
          do ot <- deref o;
          run assign i (cdtrack.set_shared (cdtrack.file ot));
          ret cur
      end.

(** [tr.byteSize = os - tr.byteStart]; a null [os] counts as 0 *)
Definition last_on_file (i : nat) (cur : option nat * option Z) : js unit :=
    assign i (fun t =>
      cdtrack.set_byteSize (JS.nullish (snd cur) 0 - cdtrack.byteStart t) t).

(** the second statement: the byte extent of track [i], and the start of
    the next track when it shares the file. Where [sectorsByType] has no
    entry for the owner's type the product is NaN in JavaScript; it is a
    throw here. [_cueParser] stores table types only. *)
Definition layout_extent (i : nat) (cur : option nat * option Z)
      : js unit :=
    do cd <- this;
    match cdinfos.tracks cd !! S i with
    | Some tr1 =>
        if negb (JS.truthy (cdtrack.file tr1)) then
          match fst cur with
          | None => throw "TypeError"
          | Some o =>
              do ot <- deref o;
              match cdtrack.indexes tr1 with
              | [] => throw "TypeError"
              | i0 :: _ =>
                  match sectorsByType (cdtrack.typeStr ot) with
                  | None => throw "NaN"
                  | Some sector =>
                      let start := sector * cuetime.toFrames i0 in
                      run assign (S i) (cdtrack.set_byteStart start);
                      assign i (fun t =>
                        cdtrack.set_byteSize (start - cdtrack.byteStart t) t)
                  end
              end
          end
        else last_on_file i cur
    | None => last_on_file i cur
    end.

Definition layout_step (i : nat) (cur : option nat * option Z)
      : js (option nat * option Z) :=
    do cur <- layout_owner i cur;
    run layout_extent i cur;
    ret cur.

(** [n] rounds from track [i]; the loop runs [tracks.length] rounds, and no
    round changes the number of tracks *)
Fixpoint layout_loop (n : nat) (i : nat) (cur : option nat * option Z)
      : js unit :=
    match n with
    | O => ret tt
    | S n' => do cur' <- layout_step i cur; layout_loop n' (S i) cur'
    end.

Definition layout : js unit :=
    do cd <- this;
    layout_loop (length (cdinfos.tracks cd)) 0 (None, None).

(** the closing debug loop prints every track; [cdtrack.toString] reduces
    [indexes] without a start value, which throws on an empty array *)
Definition debug_tracks : js unit :=
    do cd <- this;
    if existsb (fun t => bool_decide (cdtrack.indexes t = []))
         (cdinfos.tracks cd)
    then throw "TypeError"
    else ret tt.

Definition NOT_A_CUE : string :=
    "Not a " +:+ JS.QUOTE +:+ ".cue" +:+ JS.QUOTE +:+ " file".

Definition CANNOT_LOAD (input : string) : string :=
    "Cannot load file " +:+ JS.QUOTE +:+ input +:+ JS.QUOTE.

Definition LOADED_TWICE : string :=
    "Loading again unsupported. Make a new object".

(** what follows the parsing loop in both releases, up to the disc title *)
Definition post_parse (input : string) : js unit :=
    run update (cdinfos.set_FILE_LOADED (Some (path_resolve input)));
    run update (cdinfos.set_FILE_DIR
                  (Some (path_dirname (path_resolve input))));
    do cd <- this;
    if (length (cdinfos.tracks cd) =? 0)%nat
    then throw "No Tracks in the cue file"
    else opentrack_validCheck.

Definition loadCue (input : string) : js unit :=
    do cd <- this;
    if (0 <? length (cdinfos.tracks cd))%nat then throw LOADED_TWICE
    else
      let input := path_normalize input in
      if negb (String.eqb (JS.toLowerCase (path_extname input)) ".cue")
      then throw NOT_A_CUE
      else
        match getFileLines input with
        | None => throw (CANNOT_LOAD input)
        | Some lines =>
            run parse_lines 0 lines;
            run post_parse input;
            do cd <- this;
            run (if JS.is_empty (cdinfos.CD_TITLE cd)
                 then update (cdinfos.set_CD_TITLE
                                (path_parse_name (path_basename input)))
                 else ret tt);
            run update (fun cd =>
                  cdinfos.set_CD_FILE (sanitizePath (cdinfos.CD_TITLE cd)) cd);
            run layout;
            debug_tracks
        end.

End Loader.

(** ** [prepareFilenames] *)
Module Template.
Import RegExp.

Section Lazy.
Context {R : Type}.

(** [c*?] : the shortest match first *)
Fixpoint lazy_star (c : ascii -> bool) (s : string)
        (k : string -> string -> option R) : option R :=
      match k EmptyString s with
      | Some v => Some v
      | None =>
          match s with
          | String x s' =>
              if c x then lazy_star c s' (fun m r => k (String x m) r)
              else None
          | EmptyString => None
          end
      end.

(** [c+?] *)
Definition lazy_plus (c : ascii -> bool) (s : string)
        (k : string -> string -> option R) : option R :=
      match s with
      | String x s' =>
          if c x then lazy_star c s' (fun m r => k (String x m) r) else None
      | EmptyString => None
      end.
End Lazy.

(** [/{(.+?)}/] at the start of [s]: the tag name and what follows the tag *)
Definition tag (s : string) : option (string * string) :=
    chr "{" s (fun s1 =>
    lazy_plus JS.is_dot s1 (fun b s2 =>
    chr "}" s2 (fun rest => Some (b, rest)))).

(** [s.replace(/{(.+?)}/g, (A, B) => f(B))]: tags are replaced from left to
    right, and the search resumes after each replaced tag. Every round
    consumes a character, so [length s] rounds are enough. *)
Fixpoint replace_from (fuel : nat) (f : string -> string) (s : string)
      : string :=
    match fuel with
    | O => s
    | S fuel' =>
        match tag s with
        | Some (b, rest) => f b +:+ replace_from fuel' f rest
        | None =>
            match s with
            | String c s' => String c (replace_from fuel' f s')
            | EmptyString => EmptyString
            end
        end
    end.

Definition replace (f : string -> string) (s : string) : string :=
    replace_from (String.length s) f s.

(** the callback of the replacement: the [switch] on the tag name *)
Definition value (cd : cdinfos.t) (tr : cdtrack.t) (B : string) : string :=
    if String.eqb B "cdt" then cdinfos.CD_TITLE cd
    else if String.eqb B "cda" then cdinfos.CD_ARTIST cd
    else if String.eqb B "tt" then JS.nullish (cdtrack.title tr) "untitled"
    else if String.eqb B "ta" then JS.nullish (cdtrack.artist tr) "unknown artist"
    else if String.eqb B "no" then cdtrack.noStr tr
    else B.

Definition is_some {A : Type} (v : option A) : bool :=
    match v with Some _ => true | None => false end.

(** the template chosen when the caller gives none *)
Definition default (trs : list cdtrack.t) : string :=
    if (length (List.filter (fun t => is_some (cdtrack.title t)) trs)
        =? length trs)%nat
    then
      let numartists :=
        length (List.filter (fun t => is_some (cdtrack.artist t)) trs) in
      if (0 <? numartists)%nat then "{no}. {ta} - {tt}" else "{no}. {tt}"
    else "{cdt} - Track {no}".

(** [l.indexOf(x)] *)
Fixpoint indexOf (x : string) (l : list string) : Z :=
    match l with
    | [] => -1
    | y :: l' =>
        if String.eqb y x then 0
        else let r := indexOf x l' in if r <? 0 then -1 else r + 1
    end.

(** [l.filter((it, ind) => p(it, ind))] from position [ind] on *)
Fixpoint filter_from (p : string -> Z -> bool) (ind : Z) (l : list string)
      : list string :=
    match l with
    | [] => []
    | it :: l' =>
        if p it ind then it :: filter_from p (ind + 1) l'
        else filter_from p (ind + 1) l'
    end.

(** [l.filter((it, ind) => l.indexOf(it) !== ind)] *)
Definition repeats (l : list string) : list string :=
    filter_from (fun it ind => negb (indexOf it l =? ind)) 0 l.

End Template.

Section Names.
Context `{Host}.

(** the name of one track before it is sanitized *)
Definition fname (cd : cdinfos.t) (template : string) (tr : cdtrack.t)
      : string :=
    Template.replace (Template.value cd tr) template.

(** [prepareFilenames(template)]; the loop pushes one sanitized name per
    track onto the emptied [readyFiles] *)
Definition prepareFilenames (template : option string) : js unit :=
    run update (cdinfos.set_readyFiles (Some []));
    do cd <- this;
    let template :=
      if JS.truthy template then JS.nullish template EmptyString
      else Template.default (cdinfos.tracks cd) in
    run update (cdinfos.set_readyFiles
                  (Some (map (fun tr => sanitizePath (fname cd template tr))
                             (cdinfos.tracks cd))));
    do cd <- this;
    if (0 <? length (Template.repeats
                       (JS.nullish (cdinfos.readyFiles cd) [])))%nat
    then throw "Template resulted in duplicate entries"
    else ret tt.

End Names.

(** ** The sheet generators *)
Module Sheet.

(** [s.slice(1)] *)
Definition slice1 (s : string) : string :=
    match s with
    | String _ s' => s'
    | EmptyString => EmptyString
    end.

(** the INDEX line of [iit] when the frame count [i0] is the zero point *)
Definition index_line (i0 : Z) (iit : cuetime.t) : string :=
    let inew := cuetime.new (cuetime.no iit) 0 0 0 in
    let inew := cuetime.fromFrames (cuetime.toFrames iit - i0) inew in
    JS.TAB +:+ JS.TAB +:+ "INDEX " +:+
    JS.padStart2 (JS.numToString (cuetime.no inew)) +:+ " " +:+
    cuetime.toString inew.

(** the INDEX lines of a track: [i0 = tr.indexes[0].toFrames()], then one
    line per index; nothing (a TypeError) when the track has no index *)
Definition index_lines (tr : cdtrack.t) : option (list string) :=
    match cdtrack.indexes tr with
    | [] => None
    | first :: _ =>
        let i0 := cuetime.toFrames first in
        Some (map (index_line i0) (cdtrack.indexes tr))
    end.

Definition file_line (tr : cdtrack.t) (fn aExt : string) : string :=
    if cdtrack.isData tr then
      JS.TAB +:+ "FILE " +:+ JS.QUOTE +:+ fn +:+ ".bin" +:+ JS.QUOTE +:+ " BINARY"
    else
      let tp := JS.toUpperCase (slice1 aExt) in
      JS.TAB +:+ "FILE " +:+ JS.QUOTE +:+ fn +:+ aExt +:+ JS.QUOTE +:+ " " +:+ tp.

Definition track_line (tr : cdtrack.t) : string :=
    JS.TAB +:+ JS.TAB +:+ "TRACK " +:+ cdtrack.noStr tr +:+ " " +:+
    cdtrack.typeStr tr.

Definition pregap_lines (tr : cdtrack.t) : list string :=
    match cdtrack.pregap tr with
    | Some p => [JS.TAB +:+ JS.TAB +:+ "PREGAP " +:+ cuetime.toString p]
    | None => []
    end.

Definition quoted_line (key : string) (v : option string) : list string :=
    if JS.truthy v
    then [JS.TAB +:+ JS.TAB +:+ key +:+ " " +:+ JS.QUOTE +:+
          JS.nullish v EmptyString +:+ JS.QUOTE]
    else [].

(** the lines [buildCueFileForCBAE] pushes for one track *)
Definition track_block (aExt fn : string) (tr : cdtrack.t)
      : option (list string) :=
    match index_lines tr with
    | Some ix =>
        Some ([file_line tr fn aExt]
              ++ quoted_line "TITLE" (cdtrack.title tr)
              ++ quoted_line "PERFORMER" (cdtrack.artist tr)
              ++ [track_line tr] ++ pregap_lines tr ++ ix)
    | None => None
    end.

(** the loop over the tracks from position [i]; [files[i]] is undefined
    past the end of [files] *)
Fixpoint blocks (aExt : string) (files : list string) (i : nat)
      (trs : list cdtrack.t) : option (list string) :=
    match trs with
    | [] => Some []
    | tr :: trs' =>
        match track_block aExt (JS.nullish (files !! i) "undefined") tr with
        | Some b =>
            match blocks aExt files (S i) trs' with
            | Some bs => Some (b ++ bs)
            | None => None
            end
        | None => None
        end
    end.

Definition header (cd : cdinfos.t) : list string :=
    (if negb (JS.is_empty (cdinfos.CD_ARTIST cd))
     then [JS.TAB +:+ "PERFORMER " +:+ JS.QUOTE +:+ cdinfos.CD_ARTIST cd +:+ JS.QUOTE]
     else [])
    ++ [JS.TAB +:+ "TITLE " +:+ JS.QUOTE +:+ cdinfos.CD_TITLE cd +:+ JS.QUOTE;
        EmptyString].

(** the lines [generateCueForEncoded] of the first release pushes for one
    track *)
Definition track_block_v09 (tName aExt : string) (tr : cdtrack.t)
      : option (list string) :=
    let tno := cdtrack.noStr tr in
    let tf := tName +:+ tno in
    match index_lines tr with
    | Some ix =>
        Some ([file_line tr tf aExt] ++ [track_line tr] ++ pregap_lines tr ++ ix)
    | None => None
    end.

Fixpoint blocks_v09 (tName aExt : string) (trs : list cdtrack.t)
      : option (list string) :=
    match trs with
    | [] => Some []
    | tr :: trs' =>
        match track_block_v09 tName aExt tr with
        | Some b =>
            match blocks_v09 tName aExt trs' with
            | Some bs => Some (b ++ bs)
            | None => None
            end
        | None => None
        end
    end.

End Sheet.

Section Generators.
Context `{Host}.

(** [buildCueFileForCBAE(aExt)] *)
Definition buildCueFileForCBAE (aExt : string) : js (list string) :=
    do cd <- this;
    run (match cdinfos.readyFiles cd with
         | None => prepareFilenames None
         | Some _ => ret tt
         end);
    do cd <- this;
    match Sheet.blocks aExt (JS.nullish (cdinfos.readyFiles cd) []) 0
            (cdinfos.tracks cd) with
    | Some bs => ret (Sheet.header cd ++ bs)
    | None => throw "TypeError"
    end.

(** [generateCueForEncoded(tName, aExt)] of the first release *)
Definition generateCueForEncoded (tName aExt : string) : js (list string) :=
    do cd <- this;
    match Sheet.blocks_v09 tName aExt (cdinfos.tracks cd) with
    | Some bs => ret bs
    | None => throw "TypeError"
    end.

End Generators.

(** ** The first release ([source/app/cdinfos.js])

    It differs from the current reader in [_cueParser] (TITLE and FILE are
    matched by other expressions, the disc title is sanitized when it is
    read, PERFORMER is not a command) and in how [loadCue] reads the sheet and
    names an untitled disc. The layout loop and the INDEX lines of the
    generated sheet are the same text in both. *)
Module V09.
Section Reader.
Context `{Host}.

Definition TITLE (lineup : string) : js unit :=
      match Pattern.quoted lineup with
      | None => throw BAD_SYNTAX
      | Some res1 =>
          do cd <- this;
          match cdinfos.opentrack cd with
          | Some o => assign o (cdtrack.set_title (Some res1))
          | None => update (cdinfos.set_CD_TITLE (sanitizePath res1))
          end
      end.

Definition FILE (line : string) : js unit :=
      match Pattern.file_v09 line with
      | None => throw BAD_SYNTAX
      | Some (res1, res2) =>
          if negb (includes SUPPORTED_TRACK_FILES res2)
          then throw ("Unsupported TRACK File Type " +:+ res2)
          else
            run opentrack_validCheck;
            update (cdinfos.set_openfile (Some res1))
      end.

Definition _cueParser (line : string) : js unit :=
      let lineup := JS.toUpperCase line in
      if JS.startsWith lineup "REM" || JS.startsWith lineup ";" then ret tt
      else if JS.startsWith lineup "TITLE" then TITLE lineup
      else if JS.startsWith lineup "FILE" then FILE line
      else if JS.startsWith lineup "TRACK" then Command.TRACK lineup
      else if JS.startsWith lineup "INDEX" then Command.INDEX lineup
      else if JS.startsWith lineup "PREGAP" then Command.PREGAP lineup
      else ret tt.

Definition parse_line (l : Z) (raw : string) : js unit :=
      let line := JS.trim raw in
      if JS.is_empty line then ret tt
      else rethrow (parse_error l) (_cueParser line).

Fixpoint parse_lines (l : Z) (lines : list string) : js unit :=
      match lines with
      | [] => ret tt
      | raw :: rest => run parse_line l raw; parse_lines (l + 1) rest
      end.

(** [contents.split('\n')] *)
Fixpoint split_lines (s : string) : list string :=
      match s with
      | EmptyString => [EmptyString]
      | String c s' =>
          if (JS.code c =? 10)%N then EmptyString :: split_lines s'
          else
            match split_lines s' with
            | l :: ls => String c l :: ls
            | [] => [String c EmptyString]
            end
      end.

Definition not_separator (c : ascii) : bool :=
      negb ((JS.code c =? 47)%N || (JS.code c =? 92)%N).

(** the expression that names an untitled disc: a group of a greedy
    starred class of the characters other than slash and backslash, then
    [\.cue$], with flag [i]; the group is the last portion of the path
    without the extension *)
Definition cue_name (input : string) : option string :=
      RegExp.search (fun s0 =>
        RegExp.star not_separator s0 (fun m r =>
          if String.eqb (JS.toLowerCase r) ".cue" then Some m else None))
        input.

Definition loadCue (input : string) : js unit :=
      do cd <- this;
      if (0 <? length (cdinfos.tracks cd))%nat then throw LOADED_TWICE
      else
        let input := path_normalize input in
        if negb (String.eqb (JS.toLowerCase (path_extname input)) ".cue")
        then throw NOT_A_CUE
        else
          match fileGet input with
          | None => throw (CANNOT_LOAD input)
          | Some contents =>
              run parse_lines 0 (split_lines contents);
              run post_parse input;
              do cd <- this;
              run (if JS.is_empty (cdinfos.CD_TITLE cd)
                   then
                     match cue_name input with
                     | Some name => update (cdinfos.set_CD_TITLE name)
                     | None => throw "TypeError"
                     end
                   else ret tt);
              run layout;
              debug_tracks
          end.

End Reader.
End V09.

(** ** Sample sheets and hosts *)
Module Sample.

(** a host whose sheet has the given lines and whose directory holds
    [a.bin] with the given size *)
Definition host (lines : list string) (size : Z) : Host :=
    {| sanitizePath := fun s => s;
       getFileLines := fun _ => Some lines;
       fileGet := fun _ => None;
       path_normalize := fun p => p;
       path_extname := fun _ => ".cue";
       path_resolve := fun p => p;
       path_dirname := fun _ => "/cd";
       path_basename := fun p => p;
       path_parse_name := fun _ => "disc";
       path_join := fun d f => d +:+ "/" +:+ f;
       fs_existsSync := fun p => String.eqb p "/cd/a.bin";
       fs_statSync_size := fun _ => size |}.

Definition FILE_a : string :=
    "FILE " +:+ JS.QUOTE +:+ "a.bin" +:+ JS.QUOTE +:+ " BINARY".

(** a data track and an audio track with a pregap marker in one file *)
Definition pregap_sheet : list string :=
    [ FILE_a;
      "  TRACK 01 MODE1/2352";
      "    INDEX 01 00:00:00";
      "  TRACK 02 AUDIO";
      "    INDEX 00 00:02:00";
      "    INDEX 01 00:04:00" ].

(** three tracks in one file, the third starting before the second *)
Definition backwards_sheet : list string :=
    [ FILE_a;
      "  TRACK 01 MODE1/2352";
      "    INDEX 01 00:00:00";
      "  TRACK 02 AUDIO";
      "    INDEX 01 00:02:00";
      "  TRACK 03 AUDIO";
      "    INDEX 01 00:01:00" ].

(** three tracks in one file, in order *)
Definition plain_sheet : list string :=
    [ FILE_a;
      "  TRACK 01 MODE1/2352";
      "    INDEX 01 00:00:00";
      "  TRACK 02 AUDIO";
      "    INDEX 01 00:02:00";
      "  TRACK 03 AUDIO";
      "    INDEX 01 00:04:00" ].

Definition TITLE_Quake : string :=
    "TITLE " +:+ JS.QUOTE +:+ "Quake" +:+ JS.QUOTE.


Definition FILE_Quake : string :=
    "FILE " +:+ JS.QUOTE +:+ "Quake.bin" +:+ JS.QUOTE +:+ " BINARY".

(** one track whose index and pregap are past 59 seconds and 74 frames *)
Definition late_sheet : list string :=
    [ FILE_a;
      "  TRACK 01 AUDIO";
      "    PREGAP 00:61:80";
      "    INDEX 01 00:99:99" ].

(** the sheets of the six errors *)
Definition track_before_file : list string :=
    [ "TRACK 01 AUDIO"; FILE_a; "  INDEX 01 00:00:00" ].

Definition track_twice : list string :=
    [ FILE_a; "  TRACK 01 AUDIO"; "    INDEX 01 00:00:00";
      "  TRACK 1 AUDIO"; "    INDEX 01 00:02:00" ].

Definition index_twice : list string :=
    [ FILE_a; "  TRACK 01 AUDIO"; "    INDEX 01 00:00:00";
      "    INDEX 1 00:02:00" ].

Definition no_index_1_then_track : list string :=
    [ FILE_a; "  TRACK 01 AUDIO"; "    INDEX 00 00:00:00";
      "  TRACK 02 AUDIO"; "    INDEX 01 00:02:00" ].

Definition no_index_1_at_end : list string :=
    [ FILE_a; "  TRACK 01 AUDIO"; "    INDEX 00 00:00:00" ].

Definition FILE_mp3 : string :=
    "FILE " +:+ JS.QUOTE +:+ "a.mp3" +:+ JS.QUOTE +:+ " MP3".

Definition file_type_mp3 : list string :=
    [ FILE_mp3; "  TRACK 01 AUDIO"; "    INDEX 01 00:00:00" ].

Definition track_type_mode3 : list string :=
    [ FILE_a; "  TRACK 01 MODE3/2352"; "    INDEX 01 00:00:00" ].

(** a data track and an audio track at two minutes, in one file *)
Definition two_minute_sheet : list string :=
    [ FILE_a;
      "  TRACK 01 MODE1/2352";
      "    INDEX 01 00:00:00";
      "  TRACK 02 AUDIO";
      "    INDEX 01 02:00:00" ].

(** the disc left by a load *)
Definition loaded (lines : list string) (size : Z) : cdinfos.t :=
    snd (@loadCue (host lines size) "disc.cue" cdinfos.new).

End Sample.

(** The recognized keyword prefixes of a line. *)
Definition KEYWORDS : list string :=
  ["REM"; ";"; "TITLE"; "PERFORMER"; "FILE"; "TRACK"; "INDEX"; "PREGAP"].

(** the upper-cased line begins with one of the keyword prefixes *)
Definition recognized (line : string) : bool :=
  existsb (JS.startsWith (JS.toUpperCase line)) KEYWORDS.


(** ** Vocabulary of the statements *)

(** every character of [s] satisfies [c] *)
Fixpoint all_chars (c : ascii -> bool) (s : string) : bool :=
  match s with
  | String x s' => c x && all_chars c s'
  | EmptyString => true
  end.

(** a digit capture of one or two characters *)
Definition two_digits (s : string) : Prop :=
  all_chars JS.is_digit s = true /\ (1 <= String.length s <= 2)%nat.

(** the three time fields are those of captures of at most two digits *)
Definition below_100 (c : cuetime.t) : Prop :=
  0 <= cuetime.minutes c <= 99 /\
  0 <= cuetime.seconds c <= 99 /\
  0 <= cuetime.frames c <= 99.

(** every time code of a track, its indexes and its pregap *)
Definition timecodes (tr : cdtrack.t) : list cuetime.t :=
  cdtrack.indexes tr ++
  match cdtrack.pregap tr with Some p => [p] | None => [] end.

(** the command of a trimmed line: its upper-cased form begins with [kw] *)
Definition command (kw : string) (line : string) : bool :=
  JS.startsWith (JS.toUpperCase line) kw.

(** the track at a position, if any, declares a file *)
Definition declares_file (t : option cdtrack.t) : bool :=
  match t with
  | Some tr => JS.truthy (cdtrack.file tr)
  | None => false
  end.

(** the owner of position [i]: the last position up to [i] whose track
    declares a file *)
Fixpoint owner (trs : list cdtrack.t) (i : nat) : option nat :=
  if declares_file (trs !! i) then Some i
  else match i with
       | O => None
       | S j => owner trs j
       end.

(** the size of the file a track declares, in the directory [dir] *)
Definition file_size `{Host} (dir : string) (tr : cdtrack.t) : Z :=
  fs_statSync_size (path_join dir (JS.nullish (cdtrack.file tr) "null")).

(** the extent of position [j] is settled: its owner exists; when the next
    track shares the file, the next track starts at the owner's sector size
    times the frame count of the first index the next track lists, and this
    track runs up to there; otherwise this track runs to the end of the
    owner's file *)
Definition extent_settled `{Host} (dir : string) (trs : list cdtrack.t)
    (j : nat) : Prop :=
  forall tj, trs !! j = Some tj ->
  exists o ow,
    owner trs j = Some o /\ trs !! o = Some ow /\
    match trs !! S j with
    | Some tj1 =>
        if JS.truthy (cdtrack.file tj1) then
          cdtrack.byteSize tj = file_size dir ow - cdtrack.byteStart tj
        else
          exists first rest sector,
            cdtrack.indexes tj1 = first :: rest /\
            sectorsByType (cdtrack.typeStr ow) = Some sector /\
            cdtrack.byteStart tj1 = sector * cuetime.toFrames first /\
            cdtrack.byteSize tj
              = cdtrack.byteStart tj1 - cdtrack.byteStart tj
    | None => cdtrack.byteSize tj = file_size dir ow - cdtrack.byteStart tj
    end.

(** what the sheet declares of a track: every field but the three the layout
    pass assigns *)
Definition declared (t : cdtrack.t) :=
  (cdtrack.file t, cdtrack.type t, cdtrack.no t, cdtrack.title t,
   cdtrack.artist t, cdtrack.pregap t, cdtrack.indexes t, cdtrack.hash t).

(** a write through the reference [o] *)
Definition written (o : nat) (f : cdtrack.t -> cdtrack.t) (cd : cdinfos.t)
    : cdinfos.t :=
  cdinfos.set_tracks (alter f o (cdinfos.tracks cd)) cd.

(** every time code of the disc is below 100 in its three fields *)
Definition timecodes_below_100 (cd : cdinfos.t) : Prop :=
  Forall (fun tr => Forall below_100 (timecodes tr)) (cdinfos.tracks cd).

(** the block of lines of a track ends with its INDEX lines, each relative to
    the frame count of the first index the track lists *)
Definition ends_with_index_lines (tr : cdtrack.t) (block : list string)
    : Prop :=
  exists first rest pre,
    cdtrack.indexes tr = first :: rest /\
    block = pre ++ map (Sheet.index_line (cuetime.toFrames first))
                       (cdtrack.indexes tr).





(** two titled tracks, one with a performer *)
Definition Sample_titled : cdinfos.t :=
  cdinfos.set_CD_TITLE "Disc"
    (cdinfos.set_tracks
       [ cdtrack.set_title (Some "Intro")
           (Command.new_track (Some "a.bin") "1" "AUDIO");
         cdtrack.set_artist (Some "Band")
           (cdtrack.set_title (Some "Outro")
              (Command.new_track None "2" "AUDIO")) ]
       cdinfos.new).


(** the text has no lower-case letter: upper-casing leaves it as it is *)
Definition upper_cased (s : string) : Prop := JS.toUpperCase s = s.


(** ** Vocabulary of the sheet errors *)

(** the raw line of the sheet is a line of the command [kw] *)
Definition is_command (kw : string) (raw : string) : bool :=
  command kw (JS.trim raw).

(** the track number a TRACK line declares *)
Definition track_number (raw : string) : option Z :=
  if is_command "TRACK" raw then
    match Pattern.track (JS.toUpperCase (JS.trim raw)) with
    | Some (n, _) => Some (JS.parseInt n)
    | None => None
    end
  else None.

(** the track type a TRACK line declares *)
Definition track_type (raw : string) : option string :=
  if is_command "TRACK" raw then
    match Pattern.track (JS.toUpperCase (JS.trim raw)) with
    | Some (_, ty) => Some ty
    | None => None
    end
  else None.

(** the index number an INDEX line declares *)
Definition index_number (raw : string) : option Z :=
  if is_command "INDEX" raw then
    match Pattern.index (JS.toUpperCase (JS.trim raw)) with
    | Some (n, _) => Some (JS.parseInt n)
    | None => None
    end
  else None.

(** the file type a FILE line declares *)
Definition file_type (raw : string) : option string :=
  if is_command "FILE" raw then
    match Pattern.file (JS.trim raw) with
    | Some (_, ty) => Some ty
    | None => None
    end
  else None.

(** loading a sheet of these lines into a new instance throws, whatever the
    host and the path of the sheet *)
Definition rejected (lines : list string) : Prop :=
  forall (H : Host) (input : string),
    getFileLines (path_normalize input) = Some lines ->
    exists e cd', loadCue input cdinfos.new = (Throw e, cd').

(** no track, no pending file, no open track *)
Definition idle (cd : cdinfos.t) : Prop :=
  cdinfos.tracks cd = [] /\ cdinfos.openfile cd = None /\
  cdinfos.opentrack cd = None.

(** some track has the number [n] *)
Definition has_track (n : Z) (cd : cdinfos.t) : Prop :=
  existsb (fun t => cdtrack.no t =? n) (cdinfos.tracks cd) = true.

(** the open track has an index numbered [n] *)
Definition open_has_index (n : Z) (cd : cdinfos.t) : Prop :=
  exists o tr, cdinfos.opentrack cd = Some o /\
               cdinfos.tracks cd !! o = Some tr /\
               cdtrack.indexExists n tr = true.

(** the open track has no index numbered 1 *)
Definition open_lacks_index_1 (cd : cdinfos.t) : Prop :=
  exists o tr, cdinfos.opentrack cd = Some o /\
               cdinfos.tracks cd !! o = Some tr /\
               cdtrack.indexExists 1 tr = false.

(** the owner the cursor holds when round [k] begins *)
Definition cursor_at (T : list cdtrack.t) (k : nat) : option nat :=
  match k with
  | O => None
  | S j => owner T j
  end.

(** the invariant of the layout loop when round [k] begins, for the tracks
    [T] the sheet declared and the directory [dir] of the sheet *)
Definition layout_invariant `{Host} (dir : string) (T : list cdtrack.t)
    (k : nat) (cur : option nat * option Z) (cd : cdinfos.t) : Prop :=
  cdinfos.FILE_DIR cd = Some dir /\
  map declared (cdinfos.tracks cd) = map declared T /\
  fst cur = cursor_at T k /\
  (forall o, fst cur = Some o ->
     exists ow, T !! o = Some ow /\ snd cur = Some (file_size dir ow)) /\
  (forall j, (j < k)%nat -> extent_settled dir (cdinfos.tracks cd) j) /\
  cdtrack.byteStart <$> cdinfos.tracks cd !! 0%nat
    = cdtrack.byteStart <$> T !! 0%nat.

(** ** Vocabulary of the byte ranges *)

(** the tracks, in order, tile the bytes from [s] up to [e]: each starts
    where the one before it ends *)
Fixpoint contiguous_from (s : Z) (trs : list cdtrack.t) (e : Z) : Prop :=
  match trs with
  | [] => s = e
  | t :: rest =>
      cdtrack.byteStart t = s /\
      contiguous_from (s + cdtrack.byteSize t) rest e
  end.

(** the sum of [byteSize] over the tracks *)
Fixpoint total_size (trs : list cdtrack.t) : Z :=
  match trs with
  | [] => 0
  | t :: rest => cdtrack.byteSize t + total_size rest
  end.

(** the byte [x] lies in the half-open range of the track *)
Definition in_range (t : cdtrack.t) (x : Z) : Prop :=
  cdtrack.byteStart t <= x < cdtrack.byteStart t + cdtrack.byteSize t.

(** no byte lies in the ranges of two tracks *)
Definition non_overlapping (trs : list cdtrack.t) : Prop :=
  forall i j a b x,
    (i < j)%nat -> trs !! i = Some a -> trs !! j = Some b ->
    ~ (in_range a x /\ in_range b x).

(** no track has been given a start yet *)
Definition unplaced (cd : cdinfos.t) : Prop :=
  Forall (fun t => cdtrack.byteStart t = 0) (cdinfos.tracks cd).

(** * More of the code: queries, names, the output directory *)

(** ** The queries of [class cdinfos] *)

(** [tr.file ?? tr.shared] *)
Definition file_or_shared (t : cdtrack.t) : option string :=
  match cdtrack.file t with
  | Some f => Some f
  | None => cdtrack.shared t
  end.

Section Queries.
Context `{Host}.

(** [getTrackFilePath(tr)]. Reading a field of [tracks[tr]] throws a
    TypeError when there is no such track, and so does [PATH.join] for an
    argument that is null. *)
Definition getTrackFilePath (tr : nat) : js string :=
    do cd <- this;
    do t <- deref tr;
    match cdinfos.FILE_DIR cd, file_or_shared t with
    | Some dir, Some f => ret (path_join dir f)
    | _, _ => throw "TypeError"
    end.

(** [getAudioSize()] : [tracks.reduce] from 0 *)
Definition getAudioSize : js Z :=
    do cd <- this;
    ret (fold_left
           (fun p c => p + (if cdtrack.isData c then 0 else cdtrack.byteSize c))
           (cdinfos.tracks cd) 0).

End Queries.

(** ** Vocabulary of the further properties *)

(** the first character of [s] is in the class [c] *)
Definition head_in (c : ascii -> bool) (s : string) : bool :=
  match s with
  | String x _ => c x
  | EmptyString => false
  end.

(** the reference [opentrack] points to the last track, and to nothing when
    there is no track *)
Definition open_is_last (cd : cdinfos.t) : Prop :=
  cdinfos.opentrack cd =
    match length (cdinfos.tracks cd) with
    | O => None
    | S n => Some n
    end.

(** the track numbers of the disc, in the order of the tracks *)
Definition track_numbers (cd : cdinfos.t) : list Z :=
  map cdtrack.no (cdinfos.tracks cd).

(** the index numbers of a track, in the order of its indexes *)
Definition index_numbers (tr : cdtrack.t) : list Z :=
  map cuetime.no (cdtrack.indexes tr).

(** what holds of every track the reader has pushed: no index number twice,
    a type of the table, a file name that is not empty if there is one, and
    the fields of the layout pass as [new cdtrack()] leaves them *)
Definition as_parsed (tr : cdtrack.t) : Prop :=
  NoDup (index_numbers tr) /\
  (exists ty, cdtrack.type tr = Some ty /\ is_Some (sectorsByType ty)) /\
  (cdtrack.file tr = None \/ JS.truthy (cdtrack.file tr) = true) /\
  cdtrack.shared tr = None /\
  cdtrack.byteStart tr = 0 /\
  cdtrack.byteSize tr = 0.

(** the invariant of the reader over the lines of a sheet *)
Definition parsing (cd : cdinfos.t) : Prop :=
  open_is_last cd /\
  NoDup (track_numbers cd) /\
  Forall as_parsed (cdinfos.tracks cd) /\
  (forall j t, cdinfos.tracks cd !! j = Some t ->
     (S j < length (cdinfos.tracks cd))%nat ->
     cdtrack.indexExists 1 t = true) /\
  (cdinfos.openfile cd = None \/ JS.truthy (cdinfos.openfile cd) = true) /\
  (cdinfos.tracks cd <> [] ->
     declares_file (cdinfos.tracks cd !! 0%nat) = true) /\
  cdinfos.CD_SIZE cd = 0.

(** a track as the sheet must declare it: an index numbered 1, no index
    number twice, and a type of the table *)
Definition well_formed (tr : cdtrack.t) : Prop :=
  cdtrack.indexExists 1 tr = true /\
  NoDup (index_numbers tr) /\
  exists ty, cdtrack.type tr = Some ty /\ is_Some (sectorsByType ty).

(** what is left of the owner's file when round [k] of the layout loop
    begins: nothing when the track of the round opens a file, or when there
    is no such track *)
Definition file_rest (cur : option nat * option Z) (t : option cdtrack.t)
    : Z :=
  match t with
  | Some tr =>
      if JS.truthy (cdtrack.file tr) then 0
      else JS.nullish (snd cur) 0 - cdtrack.byteStart tr
  | None => 0
  end.

(** a track that opens a file has the start and the [shared] of
    [new cdtrack()] *)
Definition owners_untouched (trs : list cdtrack.t) : Prop :=
  forall p t, trs !! p = Some t ->
    JS.truthy (cdtrack.file t) = true ->
    cdtrack.byteStart t = 0 /\ cdtrack.shared t = None.

(** up to round [k], a track without a file has in [shared] the file of its
    owner, and the file of a track that opens one exists in [dir] *)
Definition shares `{Host} (dir : string) (k : nat) (trs : list cdtrack.t)
    : Prop :=
  (forall j t, (j < k)%nat -> trs !! j = Some t ->
     JS.truthy (cdtrack.file t) = false ->
     exists o ow, owner trs j = Some o /\ trs !! o = Some ow /\
                  cdtrack.shared t = cdtrack.file ow) /\
  (forall j t, (j < k)%nat -> trs !! j = Some t ->
     JS.truthy (cdtrack.file t) = true ->
     fs_existsSync (path_join dir (JS.nullish (cdtrack.file t) "null"))
       = true).

(** the second invariant of the layout loop when round [k] begins: what the
    loop has written of [shared] and [CD_SIZE], for the size [C0] that
    [CD_SIZE] had before the loop *)
Definition layout_accounts `{Host} (dir : string) (T : list cdtrack.t)
    (C0 : Z) (k : nat) (cur : option nat * option Z) (cd : cdinfos.t)
    : Prop :=
  layout_invariant dir T k cur cd /\
  owners_untouched (cdinfos.tracks cd) /\
  shares dir k (cdinfos.tracks cd) /\
  cdinfos.CD_SIZE cd - C0
    = total_size (take k (cdinfos.tracks cd))
      + file_rest cur (cdinfos.tracks cd !! k).

(** the sum of [byteSize] over the data tracks *)
Definition data_size (trs : list cdtrack.t) : Z :=
  total_size (List.filter cdtrack.isData trs).

(** ** A sample disc of two files *)
Module Shelf.

(** a host whose sheet has the given lines and whose directory [/cd] holds
    the listed files, each with its size *)
Definition host (lines : list string) (files : list (string * Z)) : Host :=
    {| sanitizePath := fun s => s;
       getFileLines := fun _ => Some lines;
       fileGet := fun _ => None;
       path_normalize := fun p => p;
       path_extname := fun _ => ".cue";
       path_resolve := fun p => p;
       path_dirname := fun _ => "/cd";
       path_basename := fun p => p;
       path_parse_name := fun _ => "disc";
       path_join := fun d f => d +:+ "/" +:+ f;
       fs_existsSync := fun p => Template.is_some (assoc p files);
       fs_statSync_size := fun p => JS.nullish (assoc p files) 0 |}.

Definition FILE_b : string :=
    "FILE " +:+ JS.QUOTE +:+ "b.wav" +:+ JS.QUOTE +:+ " WAVE".

(** a data track and an audio track in one file, a second audio track in a
    file of its own *)
Definition sheet : list string :=
    [ Sample.FILE_a;
      "  TRACK 01 MODE1/2352";
      "    INDEX 01 00:00:00";
      "  TRACK 02 AUDIO";
      "    INDEX 00 00:02:00";
      "    INDEX 01 00:04:00";
      FILE_b;
      "  TRACK 03 AUDIO";
      "    INDEX 01 00:00:00" ].

Definition files : list (string * Z) :=
    [ ("/cd/a.bin", 1000000); ("/cd/b.wav", 500000) ].

(** the disc left by the load of the sheet *)
Definition loaded : cdinfos.t :=
    snd (@loadCue (host sheet files) "disc.cue" cdinfos.new).

End Shelf.

(** the text is not empty and its last character is in the class [c] *)
Fixpoint last_in (c : ascii -> bool) (s : string) : bool :=
  match s with
  | EmptyString => false
  | String x EmptyString => c x
  | String _ s' => last_in c s'
  end.


(** a reader that has read a FILE line and a TRACK line: one open track
    without an index *)
Definition Shelf_reading : cdinfos.t :=
  snd (parse_lines 0 [Sample.FILE_a; "  TRACK 01 AUDIO"] cdinfos.new).


(** some raw name before it is sanitized, and what the names are made of *)
Definition short_name (tr : cdtrack.t) : string := "track" +:+ cdtrack.noStr tr.

(** the text has no opening brace *)
Definition tagless (s : string) : bool :=
  all_chars (fun c => negb (Ascii.eqb c "{")) s.

(** ** [createOuputDir] of the application *)
Module Counter.
Import RegExp.

(** the expression of the renaming loop at the start of [s]: an opening
    parenthesis, a group of one or more digits, a closing parenthesis, the
    end of the text; the result is the group *)
Definition at_start (s : string) : option string :=
    chr "(" s (fun s1 =>
    plus JS.is_digit s1 (fun d s2 =>
    chr ")" s2 (fun s3 =>
    if JS.is_empty s3 then Some d else None))).

(** [exec] from position [i]: the first position where the expression
    matches, as [res.index], and the group, as [res[1]] *)
Fixpoint exec_from (i : nat) (s : string) : option (nat * string) :=
    match at_start s with
    | Some d => Some (i, d)
    | None =>
        match s with
        | String _ s' => exec_from (S i) s'
        | EmptyString => None
        end
    end.

Definition exec (s : string) : option (nat * string) := exec_from 0 s.

End Counter.

Section OutputDir.
Context `{Host}.

(** the option [-only] of the run, and whether [FS.mkdirSync] creates a
    directory *)
Variable ONLY : option string.
Variable mkdirSync : string -> bool.

(** the body of the renaming loop *)
Definition next_path (path : string) : string :=
    match Counter.exec path with
    | None => path +:+ " (2)"
    | Some (index, d) =>
        String.substring 0 index path +:+
        "(" +:+ JS.numToString (JS.parseInt d + 1) +:+ ")"
    end.

(** [while (FS.existsSync(path)) path = next_path(path)], for at most [fuel]
    rounds; nothing when the path of the last round exists too *)
Fixpoint unique_path (fuel : nat) (path : string) : option string :=
    match fuel with
    | O => if fs_existsSync path then None else Some path
    | S fuel' =>
        if fs_existsSync path then unique_path fuel' (next_path path)
        else Some path
    end.

(** the path before the loop; [PATH.normalize] throws a TypeError for null *)
Definition first_path (cd : cdinfos.t) (out : option string)
      : option string :=
    match
      match out with
      | Some p => Some p
      | None => cdinfos.FILE_DIR cd
      end
    with
    | None => None
    | Some p =>
        let path :=
          path_join (path_resolve (path_normalize p)) (cdinfos.CD_FILE cd)
          +:+ " [e]" in
        Some (if JS.truthy ONLY
              then path +:+ " [only " +:+ JS.nullish ONLY EmptyString +:+ "]"
              else path)
    end.

(** [createOuputDir(cd, out)]; nothing when the loop needs more than [fuel]
    rounds *)
Definition createOuputDir (fuel : nat) (cd : cdinfos.t)
      (out : option string) : option (completion string) :=
    match first_path cd out with
    | None => Some (Throw "TypeError")
    | Some p =>
        match unique_path fuel p with
        | None => None
        | Some path =>
            if mkdirSync path then Some (Normal path)
            else Some (Throw ("Cannot create : " +:+ JS.QUOTE +:+ path
                              +:+ JS.QUOTE))
        end
    end.

End OutputDir.

(** the [k]-th path the renaming loop tries: the first path, then the first
    path with a counter from 2 on *)
Definition candidate (base : string) (k : nat) : string :=
  match k with
  | O => base
  | S _ => base +:+ " (" +:+ JS.numToString (Z.of_nat k + 1) +:+ ")"
  end.

(** the directory [/out] of a host, with the listed paths in it *)
Definition Shelf_output : Host :=
  Shelf.host []
    [ ("/out/disc [e]", 0); ("/out/disc [e] (2)", 0);
      ("/out/disc [e] (3)", 0) ].

(** a loaded disc named [disc] *)
Definition Shelf_disc : cdinfos.t :=
  cdinfos.set_CD_FILE "disc" (cdinfos.set_FILE_DIR (Some "/cd") cdinfos.new).

(** a line of a generated sheet that names a file *)
Definition is_file_line (s : string) : bool :=
  JS.startsWith s (JS.TAB +:+ "FILE ").

(** a sheet without a TRACK line *)
Definition Shelf_trackless : list string :=
  [ "REM no tracks here"; EmptyString; Sample.FILE_a; Sample.TITLE_Quake ].

(** the loaded sample disc with its default names *)
Definition Shelf_named : cdinfos.t :=
  snd (@prepareFilenames (Shelf.host Shelf.sheet Shelf.files) None
         Shelf.loaded).






(** a track with a pregap and two indexes, the first at two seconds *)
Definition Shelf_track : cdtrack.t :=
  cdtrack.set_pregap (Some (cuetime.new 0 0 2 0))
    (cdtrack.set_indexes [cuetime.new 0 0 2 0; cuetime.new 1 0 4 0]
       (Command.new_track None "02" "AUDIO")).

(** a slash or a backslash *)
Definition is_separator (c : ascii) : bool := negb (V09.not_separator c).

(** a tag name the expression of the template engine takes whole: not empty,
    without a closing brace and without a line terminator *)
Definition tag_name (b : string) : bool :=
  negb (JS.is_empty b) &&
  all_chars (fun c => JS.is_dot c && negb (Ascii.eqb c "}")) b.
(** * Properties *)

(** ** The model at work *)

Lemma trim_example :
  JS.trim ("  " +:+ JS.TAB +:+ "INDEX 01 00:00:00 ") = "INDEX 01 00:00:00".
Proof. reflexivity. Qed.

Lemma toUpperCase_example :
  JS.toUpperCase "track 02 mode2/2352" = "TRACK 02 MODE2/2352".
Proof. reflexivity. Qed.

Lemma pattern_examples :
  Pattern.track "TRACK 02 MODE2/2352" = Some ("02", "MODE2/2352") /\
  Pattern.index "INDEX 01 02:48:27" = Some ("01", ("02", "48", "27")) /\
  Pattern.index "INDEX 01 2:48" = None /\
  Pattern.pregap "PREGAP 00:00:28" = Some ("00", "00", "28") /\
  Pattern.file Sample.FILE_Quake = Some ("Quake.bin", "BINARY") /\
  Pattern.argument Sample.TITLE_Quake
    = Some (JS.QUOTE +:+ "Quake" +:+ JS.QUOTE) /\
  Pattern.unquote (JS.QUOTE +:+ "Quake" +:+ JS.QUOTE) = "Quake" /\
  Pattern.unquote "Quake" = "Quake".
Proof. repeat split; reflexivity. Qed.

Lemma cuetime_examples :
  cuetime.toFrames (cuetime.new 1 2 48 27) = 12627 /\
  cuetime.fromFrames 12627 (cuetime.new 1 0 0 0) = cuetime.new 1 2 48 27 /\
  cuetime.toString (cuetime.new 1 2 8 7) = "02:08:07".
Proof. repeat split; reflexivity. Qed.

(** the sheet of two tracks at 00:00:00 and 02:00:00 on a file of ten
    million bytes: the second track starts at 2352 * 9000 *)
Lemma two_minute_example :
  fst (@loadCue (Sample.host Sample.two_minute_sheet 10000000) "disc.cue"
         cdinfos.new) = Normal tt /\
  map (fun t => (cdtrack.no t, cdtrack.byteStart t, cdtrack.byteSize t,
                 cdtrack.shared t))
      (cdinfos.tracks (Sample.loaded Sample.two_minute_sheet 10000000))
  = [ (1, 0, 21168000, None);
      (2, 21168000, 10000000 - 21168000, Some "a.bin") ].
Proof. split; vm_compute; reflexivity. Qed.

Lemma template_examples :
  Template.replace (fun B => "<" +:+ B +:+ ">") "{no}. {ta} - {tt}"
    = "<no>. <ta> - <tt>" /\
  Template.replace (fun B => "<" +:+ B +:+ ">") "a{b" = "a{b" /\
  Template.repeats ["a"; "b"; "a"] = ["a"] /\
  Template.repeats ["a"; "b"] = [].
Proof. repeat split; reflexivity. Qed.

(** ** The monad *)

Lemma bind_normal {A B : Type} (m : js A) (k : A -> js B) cd b cd2 :
  bind m k cd = (Normal b, cd2) ->
  exists a cd1, m cd = (Normal a, cd1) /\ k a cd1 = (Normal b, cd2).
Proof.
  unfold bind. destruct (m cd) as [[a|e] cd1]; intros E.
  - exists a, cd1. split; [reflexivity | exact E].
  - discriminate E.
Qed.

Lemma bind_throw_l {A B : Type} (m : js A) (k : A -> js B) cd e cd1 :
  m cd = (Throw e, cd1) -> bind m k cd = (Throw e, cd1).
Proof. unfold bind. intros ->. reflexivity. Qed.

Lemma bind_step {A B : Type} (m : js A) (k : A -> js B) cd a cd1 :
  m cd = (Normal a, cd1) -> bind m k cd = k a cd1.
Proof. unfold bind. intros ->. reflexivity. Qed.

Lemma completes_false {A : Type} (r : completion A * cdinfos.t) :
  completes r = false <-> exists e cd, r = (Throw e, cd).
Proof.
  destruct r as [[a|e] cd]; simpl; split; intros E;
    try discriminate; try reflexivity.
  - destruct E as (e & cd' & E). discriminate E.
  - exists e, cd. reflexivity.
Qed.

Lemma bind_fails_l {A B : Type} (m : js A) (k : A -> js B) cd :
  completes (m cd) = false -> completes (bind m k cd) = false.
Proof.
  unfold bind. destruct (m cd) as [[a|e] cd1]; simpl; intros E;
    [discriminate E | reflexivity].
Qed.

Lemma bind_fails_r {A B : Type} (m : js A) (k : A -> js B) cd :
  (forall a cd1, m cd = (Normal a, cd1) -> completes (k a cd1) = false) ->
  completes (bind m k cd) = false.
Proof.
  unfold bind. destruct (m cd) as [[a|e] cd1]; simpl; intros E;
    [apply E; reflexivity | reflexivity].
Qed.

Lemma rethrow_normal {A : Type} h (m : js A) cd a cd1 :
  rethrow h m cd = (Normal a, cd1) <-> m cd = (Normal a, cd1).
Proof.
  unfold rethrow. destruct (m cd) as [[a'|e] cd']; split; intros E;
    first [exact E | discriminate E].
Qed.

Lemma rethrow_completes {A : Type} h (m : js A) cd :
  completes (rethrow h m cd) = completes (m cd).
Proof. unfold rethrow. destruct (m cd) as [[a|e] cd']; reflexivity. Qed.

(** ** C3: the time code and the frame count *)

Lemma fromFrames_fields (f : Z) (this : cuetime.t) :
  0 <= f ->
  0 <= cuetime.minutes (cuetime.fromFrames f this) /\
  0 <= cuetime.seconds (cuetime.fromFrames f this) < 60 /\
  0 <= cuetime.frames (cuetime.fromFrames f this) < 75.
Proof.
  intros Hf. unfold cuetime.fromFrames; simpl.
  rewrite !Z.rem_mod_nonneg by lia.
  pose proof (Z.mod_pos_bound f 4500 ltac:(lia)) as H1.
  pose proof (Z.mod_pos_bound f 75 ltac:(lia)) as H2.
  repeat split; try lia.
  - apply Z.div_pos; lia.
  - apply Z.div_pos; lia.
  - apply Z.div_lt_upper_bound; lia.
Qed.

Lemma toFrames_fromFrames (f : Z) (this : cuetime.t) :
  0 <= f -> cuetime.toFrames (cuetime.fromFrames f this) = f.
Proof.
  intros Hf. unfold cuetime.toFrames, cuetime.fromFrames; simpl.
  rewrite !Z.rem_mod_nonneg by lia.
  assert (E : f mod 75 = (f mod 4500) mod 75).
  { replace 4500 with (75 * 60) by reflexivity.
    rewrite Z.rem_mul_r by lia.
    rewrite (Z.mul_comm 75 ((f / 75) mod 60)), Z.mod_add by lia.
    rewrite Z.mod_mod by lia. reflexivity. }
  rewrite E.
  pose proof (Z.div_mod f 4500 ltac:(lia)) as H1.
  pose proof (Z.div_mod (f mod 4500) 75 ltac:(lia)) as H2.
  lia.
Qed.

(** C3. For every frame count [f >= 0], the time code that [fromFrames(f)]
    writes converts back to [f] with [toFrames()], whatever the time code
    held before; its seconds and frames are within their ranges. *)
Theorem fromFrames_toFrames_roundtrip (f : Z) (this : cuetime.t) :
  0 <= f ->
  cuetime.toFrames (cuetime.fromFrames f this) = f /\
  0 <= cuetime.seconds (cuetime.fromFrames f this) < 60 /\
  0 <= cuetime.frames (cuetime.fromFrames f this) < 75.
Proof.
  intros Hf. split; [exact (toFrames_fromFrames f this Hf) |].
  apply (fromFrames_fields f this Hf).
Qed.

Lemma fromFrames_toFrames_roundtrip_witness :
  0 <= 12345 /\
  cuetime.toFrames (cuetime.fromFrames 12345 (cuetime.new 1 0 0 0)) = 12345.
Proof.
  split; [lia |].
  apply (fromFrames_toFrames_roundtrip 12345 (cuetime.new 1 0 0 0)). lia.
Defined.

(** ** C10: lines that begin with no keyword *)

(** C10. A line whose upper-cased form begins with none of REM, [;], TITLE,
    PERFORMER, FILE, TRACK, INDEX, PREGAP makes [_cueParser] return normally
    with the instance unchanged, in the current reader and in the first
    release. *)
Theorem unrecognized_line_ignored `{Host} (line : string) (cd : cdinfos.t) :
  recognized line = false ->
  _cueParser line cd = (Normal tt, cd) /\
  V09._cueParser line cd = (Normal tt, cd).
Proof.
  unfold recognized, KEYWORDS. simpl. intros E.
  repeat (apply orb_false_iff in E; destruct E as [? E]).
  unfold _cueParser, V09._cueParser.
  repeat match goal with
         | Hx : JS.startsWith _ _ = false |- _ => rewrite Hx; clear Hx
         end.
  split; reflexivity.
Qed.

Lemma unrecognized_line_ignored_witness :
  recognized "CATALOG 0000000000000" = false /\
  _cueParser "CATALOG 0000000000000" cdinfos.new = (Normal tt, cdinfos.new).
Proof.
  split; [reflexivity |].
  apply (@unrecognized_line_ignored (Sample.host [] 0)
           "CATALOG 0000000000000" cdinfos.new).
  reflexivity.
Defined.

(** ** Strings *)

Lemma append_cons (c : ascii) (s t : string) :
  String c s +:+ t = String c (s +:+ t).
Proof. reflexivity. Qed.

Lemma append_nil_l (s : string) : EmptyString +:+ s = s.
Proof. reflexivity. Qed.

Lemma append_nil_r (s : string) : s +:+ EmptyString = s.
Proof.
  induction s as [|c s IH]; [reflexivity |].
  rewrite append_cons, IH. reflexivity.
Qed.

Lemma append_assoc (a b c : string) : (a +:+ b) +:+ c = a +:+ (b +:+ c).
Proof.
  induction a as [|x a IH]; [reflexivity |].
  rewrite !append_cons, IH. reflexivity.
Qed.

Lemma all_chars_app c (a b : string) :
  all_chars c (a +:+ b) = all_chars c a && all_chars c b.
Proof.
  induction a as [|x a IH]; [reflexivity |].
  rewrite append_cons. simpl. rewrite IH. apply andb_assoc.
Qed.

Lemma prefix_app (p s : string) :
  String.prefix p s = true -> exists r, s = p +:+ r.
Proof.
  revert s. induction p as [|c p IH]; intros s E.
  - exists s. reflexivity.
  - destruct s as [|d s]; simpl in E; [discriminate E |].
    destruct (Ascii.ascii_dec c d) as [->|]; [| discriminate E].
    destruct (IH s E) as (r & ->). exists r. reflexivity.
Qed.

(** ** The combinators are sound: a result comes from a split of the input *)
Section Soundness.
Context {R : Type}.
Implicit Types (k : string -> string -> option R) (v : R).

Lemma star_sound c s k v :
  RegExp.star c s k = Some v ->
  exists m r, s = m +:+ r /\ all_chars c m = true /\ k m r = Some v.
Proof.
  revert k. induction s as [|x s IH]; intros k E; simpl in E.
  - exists EmptyString, EmptyString. auto.
  - destruct (c x) eqn:Cx.
    + destruct (RegExp.star c s (fun m r => k (String x m) r)) eqn:E1.
      * inversion E; subst. apply IH in E1 as (m & r & -> & Hm & Hk).
        exists (String x m), r. simpl. rewrite Cx, Hm. auto.
      * exists EmptyString, (String x s). auto.
    + exists EmptyString, (String x s). auto.
Qed.

Lemma plus_sound c s k v :
  RegExp.plus c s k = Some v ->
  exists x m r, s = String x m +:+ r /\ all_chars c (String x m) = true /\
                k (String x m) r = Some v.
Proof.
  destruct s as [|x s]; simpl; [discriminate |].
  destruct (c x) eqn:Cx; [| discriminate]. intros E.
  apply star_sound in E as (m & r & -> & Hm & Hk).
  exists x, m, r. simpl. rewrite Cx, Hm. auto.
Qed.

Lemma upto2_sound c s k v :
  RegExp.upto2 c s k = Some v ->
  exists m r, s = m +:+ r /\ all_chars c m = true /\
              (1 <= String.length m <= 2)%nat /\ k m r = Some v.
Proof.
  destruct s as [|x s]; simpl; [discriminate |].
  destruct (c x) eqn:Cx; [| discriminate].
  destruct s as [|y s].
  - intros E. exists (String x EmptyString), EmptyString. simpl.
    rewrite Cx. repeat split; auto.
  - destruct (c y) eqn:Cy.
    + destruct (k (String x (String y EmptyString)) s) eqn:E1; intros E.
      * inversion E; subst.
        exists (String x (String y EmptyString)), s. simpl.
        rewrite Cx, Cy. repeat split; auto.
      * exists (String x EmptyString), (String y s). simpl.
        rewrite Cx. repeat split; auto.
    + intros E. exists (String x EmptyString), (String y s). simpl.
      rewrite Cx. repeat split; auto.
Qed.

Lemma chr_sound a s (k : string -> option R) v :
  RegExp.chr a s k = Some v -> exists r, s = String a r /\ k r = Some v.
Proof.
  destruct s as [|x s]; simpl; [discriminate |].
  destruct (Ascii.eqb x a) eqn:E; [| discriminate].
  apply Ascii.eqb_eq in E as ->. intros Hk. exists s. auto.
Qed.

Lemma search_sound (p : string -> option R) s v :
  RegExp.search p s = Some v ->
  exists pre suf, s = pre +:+ suf /\ p suf = Some v.
Proof.
  induction s as [|x s IH]; simpl.
  - destruct (p EmptyString) eqn:E; [| discriminate].
    intros [= ->]. exists EmptyString, EmptyString. auto.
  - destruct (p (String x s)) eqn:E.
    + intros [= ->]. exists EmptyString, (String x s). auto.
    + intros Hs. apply IH in Hs as (pre & suf & -> & Hp).
      exists (String x pre), suf. auto.
Qed.

End Soundness.

(** ** Digit captures *)

Lemma digit_val_bounds c : JS.is_digit c = true -> 0 <= JS.digit_val c <= 9.
Proof.
  unfold JS.is_digit, JS.between, JS.digit_val.
  intros E. apply andb_true_iff in E as [E1 E2].
  apply N.leb_le in E1, E2. lia.
Qed.

Lemma parseInt_two_digits s : two_digits s -> 0 <= JS.parseInt s <= 99.
Proof.
  intros [Hd Hl]. unfold JS.parseInt.
  destruct s as [|a [|b [|? ?]]]; simpl in Hl; try lia; simpl in Hd |- *.
  - apply andb_true_iff in Hd as [Ha _]. rewrite Ha.
    pose proof (digit_val_bounds a Ha). lia.
  - apply andb_true_iff in Hd as [Ha Hd].
    apply andb_true_iff in Hd as [Hb _]. rewrite Ha, Hb.
    pose proof (digit_val_bounds a Ha). pose proof (digit_val_bounds b Hb).
    lia.
Qed.

Lemma msf_sound s m sec f :
  Pattern.msf s = Some (m, sec, f) ->
  two_digits m /\ two_digits sec /\ two_digits f.
Proof.
  unfold Pattern.msf. intros E.
  apply upto2_sound in E as (m1 & r1 & -> & D1 & L1 & E).
  apply chr_sound in E as (r2 & -> & E).
  apply upto2_sound in E as (m2 & r3 & -> & D2 & L2 & E).
  apply chr_sound in E as (r4 & -> & E).
  apply upto2_sound in E as (m3 & r5 & -> & D3 & L3 & E).
  inversion E; subst. repeat split; auto; lia.
Qed.

Lemma cuetime_of_below_100 n t :
  (let '(m, sec, f) := t in two_digits m /\ two_digits sec /\ two_digits f) ->
  below_100 (cuetime_of n t).
Proof.
  destruct t as [[m sec] f]. intros (Hm & Hs & Hf).
  unfold below_100, cuetime_of; simpl.
  auto using parseInt_two_digits.
Qed.

Lemma index_sound s n t :
  Pattern.index s = Some (n, t) ->
  all_chars JS.is_digit n = true /\ below_100 (cuetime_of (JS.parseInt n) t).
Proof.
  unfold Pattern.index. intros E.
  apply plus_sound in E as (x1 & m1 & r1 & -> & _ & E).
  apply plus_sound in E as (x2 & m2 & r2 & -> & _ & E).
  apply plus_sound in E as (x3 & m3 & r3 & -> & D & E).
  apply plus_sound in E as (x4 & m4 & r4 & -> & _ & E).
  destruct (Pattern.msf r4) as [[[m sec] f]|] eqn:Em; [| discriminate E].
  inversion E; subst. split; [exact D |].
  apply cuetime_of_below_100. apply (msf_sound _ _ _ _ Em).
Qed.

Lemma pregap_sound s t :
  Pattern.pregap s = Some t -> below_100 (cuetime_of 0 t).
Proof.
  unfold Pattern.pregap. intros E.
  apply search_sound in E as (pre & suf & -> & E).
  apply plus_sound in E as (x1 & m1 & r1 & -> & _ & E).
  apply plus_sound in E as (x2 & m2 & r2 & -> & _ & E).
  destruct t as [[m sec] f].
  apply cuetime_of_below_100. apply (msf_sound _ _ _ _ E).
Qed.

(** ** The commands, when they complete *)

Ltac js_run :=
  unfold deref, assign in *; unfold bind, this, update, throw, ret in *;
  simpl in *.

Lemma opentrack_validCheck_state cd r cd' :
  opentrack_validCheck cd = (r, cd') -> cd' = cd.
Proof.
  unfold opentrack_validCheck, validCheck. js_run.
  repeat case_match; intros; simplify_eq; reflexivity.
Qed.

(** the open track, if there is one, has an index numbered 1 *)
Lemma opentrack_validCheck_normal cd r :
  opentrack_validCheck cd = (Normal r, cd) <->
  match cdinfos.opentrack cd with
  | Some o =>
      exists tr, cdinfos.tracks cd !! o = Some tr /\
                 cdtrack.indexExists 1 tr = true
  | None => True
  end.
Proof.
  unfold opentrack_validCheck, validCheck. js_run. destruct r.
  destruct (cdinfos.opentrack cd) as [o|]; [| tauto].
  destruct (cdinfos.tracks cd !! o) as [tr|] eqn:E.
  - destruct (cdtrack.indexExists 1 tr) eqn:Ex; split; intros Hx;
      simplify_eq; eauto.
    destruct Hx as (tr' & [= <-] & Hx). congruence.
  - split; intros Hx; [discriminate Hx |].
    destruct Hx as (tr' & Hx & _). discriminate Hx.
Qed.

Lemma opentrack_validCheck_throws cd o tr :
  cdinfos.opentrack cd = Some o ->
  cdinfos.tracks cd !! o = Some tr ->
  cdtrack.indexExists 1 tr = false ->
  completes (opentrack_validCheck cd) = false.
Proof.
  intros Ho Ht Hx. unfold opentrack_validCheck, validCheck. js_run.
  rewrite Ho, Ht, Hx. reflexivity.
Qed.

Lemma TITLE_normal lineup cd cd' :
  Command.TITLE lineup cd = (Normal tt, cd') ->
  exists arg,
    Pattern.argument lineup = Some arg /\
    cd' = match cdinfos.opentrack cd with
          | Some o =>
              cdinfos.set_tracks
                (alter (cdtrack.set_title (Some (Pattern.unquote arg))) o
                   (cdinfos.tracks cd)) cd
          | None => cdinfos.set_CD_TITLE (Pattern.unquote arg) cd
          end.
Proof.
  unfold Command.TITLE. js_run.
  destruct (Pattern.argument lineup) as [arg|]; [| discriminate].
  intros E. exists arg. split; [reflexivity |].
  destruct (cdinfos.opentrack cd); simplify_eq; reflexivity.
Qed.

Lemma PERFORMER_normal lineup cd cd' :
  Command.PERFORMER lineup cd = (Normal tt, cd') ->
  exists arg,
    Pattern.argument lineup = Some arg /\
    cd' = match cdinfos.opentrack cd with
          | Some o =>
              cdinfos.set_tracks
                (alter (cdtrack.set_artist (Some (Pattern.unquote arg))) o
                   (cdinfos.tracks cd)) cd
          | None => cdinfos.set_CD_ARTIST (Pattern.unquote arg) cd
          end.
Proof.
  unfold Command.PERFORMER. js_run.
  destruct (Pattern.argument lineup) as [arg|]; [| discriminate].
  intros E. exists arg. split; [reflexivity |].
  destruct (cdinfos.opentrack cd); simplify_eq; reflexivity.
Qed.

Lemma FILE_normal line cd cd' :
  Command.FILE line cd = (Normal tt, cd') ->
  exists name ty,
    Pattern.file line = Some (name, ty) /\
    includes SUPPORTED_TRACK_FILES ty = true /\
    opentrack_validCheck cd = (Normal tt, cd) /\
    cd' = cdinfos.set_openfile (Some name) cd.
Proof.
  unfold Command.FILE.
  destruct (Pattern.file line) as [[name ty]|]; [| discriminate].
  destruct (includes SUPPORTED_TRACK_FILES ty) eqn:Ei; simpl;
    [| discriminate].
  intros E. apply bind_normal in E as ([] & cd1 & E1 & E2).
  pose proof (opentrack_validCheck_state _ _ _ E1) as ->.
  exists name, ty. unfold update in E2. simplify_eq. repeat split; auto.
Qed.

Lemma TRACK_normal lineup cd cd' :
  Command.TRACK lineup cd = (Normal tt, cd') ->
  exists n ty,
    Pattern.track lineup = Some (n, ty) /\
    is_Some (sectorsByType ty) /\
    existsb (fun t => cdtrack.no t =? JS.parseInt n) (cdinfos.tracks cd)
      = false /\
    (cdinfos.openfile cd <> None \/ cdinfos.tracks cd <> []) /\
    opentrack_validCheck cd = (Normal tt, cd) /\
    cd' = cdinfos.set_tracks (cdinfos.tracks cd ++ [Command.new_track (cdinfos.openfile cd) n ty])
            (cdinfos.set_openfile None
               (cdinfos.set_opentrack (Some (length (cdinfos.tracks cd))) cd)).
Proof.
  unfold Command.TRACK. intros E.
  apply bind_normal in E as (cd0 & cd1 & E0 & E).
  unfold this in E0. inversion E0; subst cd0 cd1; clear E0.
  destruct (bool_decide (cdinfos.openfile cd = None)
            && (length (cdinfos.tracks cd) =? 0)%nat) eqn:Eg;
    [discriminate E |].
  apply bind_normal in E as ([] & cd2 & Ev & E).
  pose proof (opentrack_validCheck_state _ _ _ Ev) as ->.
  destruct (Pattern.track lineup) as [[n ty]|]; [| discriminate E].
  destruct (existsb _ _) eqn:Ed; [discriminate E |].
  destruct (sectorsByType ty) as [sz|] eqn:Es; [| discriminate E].
  unfold update in E. simplify_eq. exists n, ty. repeat split; eauto.
  apply andb_false_iff in Eg as [Eg|Eg].
  - left. apply bool_decide_eq_false in Eg. exact Eg.
  - right. apply Nat.eqb_neq in Eg. destruct (cdinfos.tracks cd);
      [simpl in Eg; lia | discriminate].
Qed.

Lemma INDEX_normal lineup cd cd' :
  Command.INDEX lineup cd = (Normal tt, cd') ->
  exists o tr n t,
    cdinfos.opentrack cd = Some o /\
    cdinfos.tracks cd !! o = Some tr /\
    Pattern.index lineup = Some (n, t) /\
    cdtrack.indexExists (JS.parseInt n) tr = false /\
    cd' = cdinfos.set_tracks
            (alter (cdtrack.push_index (cuetime_of (JS.parseInt n) t)) o
               (cdinfos.tracks cd)) cd.
Proof.
  unfold Command.INDEX. js_run.
  destruct (cdinfos.opentrack cd) as [o|]; [| discriminate].
  destruct (Pattern.index lineup) as [[n t]|]; [| discriminate].
  destruct (cdinfos.tracks cd !! o) as [tr|] eqn:Et; [| discriminate].
  destruct (cdtrack.indexExists (JS.parseInt n) tr) eqn:Ex; [discriminate |].
  intros E. simplify_eq. exists o, tr, n, t. auto.
Qed.

Lemma PREGAP_normal lineup cd cd' :
  Command.PREGAP lineup cd = (Normal tt, cd') ->
  exists o t,
    cdinfos.opentrack cd = Some o /\
    Pattern.pregap lineup = Some t /\
    cd' = cdinfos.set_tracks
            (alter (cdtrack.set_pregap (Some (cuetime_of 0 t))) o
               (cdinfos.tracks cd)) cd.
Proof.
  unfold Command.PREGAP. js_run.
  destruct (cdinfos.opentrack cd) as [o|]; [| discriminate].
  destruct (Pattern.pregap lineup) as [t|]; [| discriminate].
  intros E. simplify_eq. exists o, t. auto.
Qed.

(** ** The dispatch of [_cueParser] *)

Lemma cueParser_cases (line : string) (cd : cdinfos.t) :
  let lineup := JS.toUpperCase line in
  (_cueParser line cd = (Normal tt, cd) /\
     (command "REM" line || command ";" line = true \/
      recognized line = false)) \/
  (command "TITLE" line = true /\
     _cueParser line cd = Command.TITLE lineup cd) \/
  (command "PERFORMER" line = true /\
     _cueParser line cd = Command.PERFORMER lineup cd) \/
  (command "FILE" line = true /\
     _cueParser line cd = Command.FILE line cd) \/
  (command "TRACK" line = true /\
     _cueParser line cd = Command.TRACK lineup cd) \/
  (command "INDEX" line = true /\
     _cueParser line cd = Command.INDEX lineup cd) \/
  (command "PREGAP" line = true /\
     _cueParser line cd = Command.PREGAP lineup cd).
Proof.
  unfold _cueParser, recognized, KEYWORDS, command. simpl.
  destruct (JS.startsWith (JS.toUpperCase line) "REM") eqn:E1;
    [left; auto |].
  destruct (JS.startsWith (JS.toUpperCase line) ";") eqn:E2;
    [left; auto |]. simpl.
  destruct (JS.startsWith (JS.toUpperCase line) "TITLE") eqn:E3; [tauto |].
  destruct (JS.startsWith (JS.toUpperCase line) "PERFORMER") eqn:E4;
    [tauto |].
  destruct (JS.startsWith (JS.toUpperCase line) "FILE") eqn:E5; [tauto |].
  destruct (JS.startsWith (JS.toUpperCase line) "TRACK") eqn:E6; [tauto |].
  destruct (JS.startsWith (JS.toUpperCase line) "INDEX") eqn:E7; [tauto |].
  destruct (JS.startsWith (JS.toUpperCase line) "PREGAP") eqn:E8; [tauto |].
  left. auto.
Qed.

(** a line of one command is dispatched to that command *)
Ltac dispatch :=
  let r := fresh "r" in
  let E := fresh "E" in
  intros E; unfold command, JS.startsWith in E;
  apply prefix_app in E as (r & E);
  unfold _cueParser; rewrite E; destruct r; reflexivity.



Lemma cueParser_FILE line :
  command "FILE" line = true -> _cueParser line = Command.FILE line.
Proof.
  intros E. unfold command, JS.startsWith in E.
  pose proof E as E'. apply prefix_app in E' as (r & E').
  unfold _cueParser, JS.startsWith. rewrite E.
  rewrite E'. destruct r; reflexivity.
Qed.

Lemma cueParser_TRACK line :
  command "TRACK" line = true ->
  _cueParser line = Command.TRACK (JS.toUpperCase line).
Proof. dispatch. Qed.

Lemma cueParser_INDEX line :
  command "INDEX" line = true ->
  _cueParser line = Command.INDEX (JS.toUpperCase line).
Proof. dispatch. Qed.


(** what a line does when [_cueParser] completes *)
Lemma cueParser_normal line cd cd' :
  _cueParser line cd = (Normal tt, cd') ->
  let lineup := JS.toUpperCase line in
  cd' = cd \/
  (command "TITLE" line = true /\ exists o arg,
     Pattern.argument lineup = Some arg /\ cdinfos.opentrack cd = Some o /\
     cd' = written o (cdtrack.set_title (Some (Pattern.unquote arg))) cd) \/
  (command "TITLE" line = true /\ exists arg,
     Pattern.argument lineup = Some arg /\ cdinfos.opentrack cd = None /\
     cd' = cdinfos.set_CD_TITLE (Pattern.unquote arg) cd) \/
  (command "PERFORMER" line = true /\ exists o arg,
     Pattern.argument lineup = Some arg /\ cdinfos.opentrack cd = Some o /\
     cd' = written o (cdtrack.set_artist (Some (Pattern.unquote arg))) cd) \/
  (command "PERFORMER" line = true /\ exists arg,
     Pattern.argument lineup = Some arg /\ cdinfos.opentrack cd = None /\
     cd' = cdinfos.set_CD_ARTIST (Pattern.unquote arg) cd) \/
  (command "FILE" line = true /\ exists name ty,
     Pattern.file line = Some (name, ty) /\
     includes SUPPORTED_TRACK_FILES ty = true /\
     opentrack_validCheck cd = (Normal tt, cd) /\
     cd' = cdinfos.set_openfile (Some name) cd) \/
  (command "TRACK" line = true /\ exists n ty,
     Pattern.track lineup = Some (n, ty) /\
     is_Some (sectorsByType ty) /\
     existsb (fun t => cdtrack.no t =? JS.parseInt n) (cdinfos.tracks cd)
       = false /\
     (cdinfos.openfile cd <> None \/ cdinfos.tracks cd <> []) /\
     opentrack_validCheck cd = (Normal tt, cd) /\
     cd' = cdinfos.set_tracks
             (cdinfos.tracks cd ++
                [Command.new_track (cdinfos.openfile cd) n ty])
             (cdinfos.set_openfile None
                (cdinfos.set_opentrack
                   (Some (length (cdinfos.tracks cd))) cd))) \/
  (command "INDEX" line = true /\ exists o tr n t,
     cdinfos.opentrack cd = Some o /\
     cdinfos.tracks cd !! o = Some tr /\
     Pattern.index lineup = Some (n, t) /\
     cdtrack.indexExists (JS.parseInt n) tr = false /\
     cd' = written o (cdtrack.push_index (cuetime_of (JS.parseInt n) t)) cd) \/
  (command "PREGAP" line = true /\ exists o t,
     cdinfos.opentrack cd = Some o /\
     Pattern.pregap lineup = Some t /\
     cd' = written o (cdtrack.set_pregap (Some (cuetime_of 0 t))) cd).
Proof.
  intros E lineup.
  destruct (cueParser_cases line cd)
    as [[E1 _]|[[C E1]|[[C E1]|[[C E1]|[[C E1]|[[C E1]|[C E1]]]]]]];
    rewrite E1 in E.
  - left. congruence.
  - apply TITLE_normal in E as (arg & Ea & ->).
    destruct (cdinfos.opentrack cd) as [o|] eqn:Eo.
    + right; left. split; [exact C |]. exists o, arg. auto.
    + right; right; left. split; [exact C |]. exists arg. auto.
  - apply PERFORMER_normal in E as (arg & Ea & ->).
    destruct (cdinfos.opentrack cd) as [o|] eqn:Eo.
    + do 3 right; left. split; [exact C |]. exists o, arg. auto.
    + do 4 right; left. split; [exact C |]. exists arg. auto.
  - apply FILE_normal in E. do 5 right; left. auto.
  - apply TRACK_normal in E. do 6 right; left. auto.
  - apply INDEX_normal in E. do 7 right; left. auto.
  - apply PREGAP_normal in E. do 8 right. auto.
Qed.

(** ** The loop over the lines *)

Lemma parse_line_normal l raw cd cd' :
  parse_line l raw cd = (Normal tt, cd') ->
  cd' = cd \/ _cueParser (JS.trim raw) cd = (Normal tt, cd').
Proof.
  unfold parse_line. destruct (JS.is_empty (JS.trim raw)).
  - intros [= ->]. left. reflexivity.
  - intros E. apply rethrow_normal in E. right. exact E.
Qed.

Section Invariants.
Variable P : cdinfos.t -> Prop.
Variable Q : string -> Prop.
Hypothesis step : forall line cd cd',
  Q line -> P cd -> _cueParser line cd = (Normal tt, cd') -> P cd'.

Lemma parse_lines_invariant lines : forall l cd cd',
  Forall (fun raw => Q (JS.trim raw)) lines ->
  P cd -> parse_lines l lines cd = (Normal tt, cd') -> P cd'.
Proof.
  induction lines as [|raw lines IH]; intros l cd cd' HQ HP E.
  - simpl in E. unfold ret in E. congruence.
  - simpl in E. apply bind_normal in E as ([] & cd1 & E1 & E2).
    inversion HQ as [|? ? Hraw Hrest]; subst.
    apply (IH (l + 1) cd1 cd' Hrest); [| exact E2].
    apply parse_line_normal in E1 as [->|E1]; [exact HP |].
    exact (step _ _ _ Hraw HP E1).
Qed.
End Invariants.

Lemma parse_lines_app a : forall b l cd,
  parse_lines l (a ++ b) cd =
  bind (parse_lines l a)
       (fun _ => parse_lines (l + Z.of_nat (length a)) b) cd.
Proof.
  induction a as [|x a IH]; intros b l cd.
  - simpl. unfold bind, ret. rewrite Z.add_0_r. reflexivity.
  - change (parse_lines l ((x :: a) ++ b) cd)
      with (bind (parse_line l x)
              (fun _ => parse_lines (l + 1) (a ++ b)) cd).
    change (parse_lines l (x :: a))
      with (bind (parse_line l x) (fun _ => parse_lines (l + 1) a)).
    unfold bind. destruct (parse_line l x cd) as [[[]|e] cd1];
      [| reflexivity].
    rewrite IH. unfold bind.
    replace (l + 1 + Z.of_nat (length a))
      with (l + Z.of_nat (length (x :: a))) by (simpl length; lia).
    reflexivity.
Qed.

(** the loop throws when the line after [pre] throws in every instance the
    lines of [pre] can leave *)
Lemma parse_lines_fails_at pre x post l cd :
  (forall cd1, parse_lines l pre cd = (Normal tt, cd1) ->
     completes (parse_line (l + Z.of_nat (length pre)) x cd1) = false) ->
  completes (parse_lines l (pre ++ x :: post) cd) = false.
Proof.
  intros Hx. rewrite parse_lines_app. apply bind_fails_r.
  intros [] cd1 E. simpl. apply bind_fails_l. apply Hx. exact E.
Qed.

Lemma parse_line_fails l raw cd :
  JS.is_empty (JS.trim raw) = false ->
  completes (_cueParser (JS.trim raw) cd) = false ->
  completes (parse_line l raw cd) = false.
Proof.
  intros Hn Hf. unfold parse_line. rewrite Hn, rethrow_completes. exact Hf.
Qed.

(** a line of some command is not empty *)
Lemma command_not_empty kw line :
  JS.is_empty kw = false -> command kw line = true ->
  JS.is_empty line = false.
Proof.
  unfold command, JS.startsWith. intros Hk E.
  apply prefix_app in E as (r & E).
  destruct line; [| reflexivity].
  destruct kw; [discriminate Hk | discriminate E].
Qed.

(** ** What the layout pass leaves alone *)

Lemma declared_alter f i (l : list cdtrack.t) :
  (forall x, declared (f x) = declared x) ->
  map declared (alter f i l) = map declared l.
Proof.
  intros Hf. revert i.
  induction l as [|x l IH]; intros [|i]; simpl; try reflexivity.
  - rewrite Hf. reflexivity.
  - f_equal. apply IH.
Qed.

Lemma declared_Forall (phi : cdtrack.t -> Prop) l l' :
  (forall t t', declared t = declared t' -> phi t -> phi t') ->
  map declared l = map declared l' -> Forall phi l -> Forall phi l'.
Proof.
  intros Hphi. revert l'.
  induction l as [|x l IH]; intros [|y l'] E HF; simpl in E;
    try discriminate E; [constructor |].
  inversion HF; subst.
  pose proof (f_equal (hd (declared x)) E) as E1.
  pose proof (f_equal (@tl _) E) as E2. simpl in E1, E2.
  constructor; eauto.
Qed.

Lemma declared_lookup l l' i (t' : cdtrack.t) :
  map declared l = map declared l' -> l' !! i = Some t' ->
  exists t, l !! i = Some t /\ declared t = declared t'.
Proof.
  revert l' i. induction l as [|x l IH]; intros [|y l'] i E Hi;
    simpl in E; try discriminate E.
  - destruct i; discriminate Hi.
  - pose proof (f_equal (hd (declared x)) E) as E1.
    pose proof (f_equal (@tl _) E) as E2. simpl in E1, E2.
    destruct i as [|i]; simpl in *.
    + inversion Hi; subst. eauto.
    + eauto.
Qed.

Lemma declared_length (l l' : list cdtrack.t) :
  map declared l = map declared l' -> length l = length l'.
Proof.
  intros E. apply (f_equal length) in E.
  rewrite !length_map in E. exact E.
Qed.

Ltac declared_frame :=
  repeat (rewrite declared_alter; [| intros []; reflexivity]);
  reflexivity.

Section LayoutFrame.
Context `{Host}.

Lemma layout_step_declared i cur cd r cd' :
  layout_step i cur cd = (r, cd') ->
  map declared (cdinfos.tracks cd') = map declared (cdinfos.tracks cd).
Proof.
  unfold layout_step, layout_owner, layout_extent, last_on_file. js_run.
  intros E.
  repeat case_match; simplify_eq; simpl; declared_frame.
Qed.

Lemma layout_loop_declared n : forall i cur cd r cd',
  layout_loop n i cur cd = (r, cd') ->
  map declared (cdinfos.tracks cd') = map declared (cdinfos.tracks cd).
Proof.
  induction n as [|n IH]; intros i cur cd r cd' E; simpl in E.
  - unfold ret in E. congruence.
  - unfold bind in E.
    destruct (layout_step i cur cd) as [[cur'|e] cd1] eqn:E1.
    + apply IH in E. apply layout_step_declared in E1. congruence.
    + apply layout_step_declared in E1. congruence.
Qed.

Lemma layout_declared cd r cd' :
  layout cd = (r, cd') ->
  map declared (cdinfos.tracks cd') = map declared (cdinfos.tracks cd).
Proof. unfold layout, bind, this. apply layout_loop_declared. Qed.

(** a load that completes: the sheet was parsed from an instance without
    tracks, it has a track, and the layout pass ran on the parsed tracks *)
Lemma loadCue_normal input cd cd' :
  loadCue input cd = (Normal tt, cd') ->
  exists lines cd1 cd2,
    cdinfos.tracks cd = [] /\
    getFileLines (path_normalize input) = Some lines /\
    parse_lines 0 lines cd = (Normal tt, cd1) /\
    cdinfos.tracks cd1 <> [] /\
    cdinfos.tracks cd2 = cdinfos.tracks cd1 /\
    cdinfos.CD_SIZE cd2 = cdinfos.CD_SIZE cd1 /\
    cdinfos.FILE_DIR cd2
      = Some (path_dirname (path_resolve (path_normalize input))) /\
    layout cd2 = (Normal tt, cd').
Proof.
  unfold loadCue. intros E.
  apply bind_normal in E as (cd0 & cd0' & E0 & E).
  unfold this in E0. inversion E0; subst cd0 cd0'; clear E0.
  destruct (0 <? length (cdinfos.tracks cd))%nat eqn:El; [discriminate E |].
  destruct (negb _); [discriminate E |].
  destruct (getFileLines (path_normalize input)) as [lines|];
    [| discriminate E].
  apply bind_normal in E as ([] & cd1 & Ep & E).
  apply bind_normal in E as ([] & cd1' & Epp & E).
  apply bind_normal in E as (cdx & cdx' & Ex & E).
  unfold this in Ex. inversion Ex; subst cdx cdx'; clear Ex.
  apply bind_normal in E as ([] & cd2' & Et & E).
  apply bind_normal in E as ([] & cd2 & Ef & E).
  apply bind_normal in E as ([] & cd3 & Ely & E).
  assert (cd3 = cd') as ->.
  { unfold debug_tracks in E. js_run. case_match; congruence. }
  unfold post_parse in Epp.
  apply bind_normal in Epp as ([] & c1 & Ea & Epp).
  apply bind_normal in Epp as ([] & c2 & Eb & Epp).
  apply bind_normal in Epp as (c3 & c3' & Ec & Epp).
  unfold update in Ea, Eb. unfold this in Ec. simplify_eq.
  destruct (length _ =? 0)%nat eqn:Ez; [discriminate Epp |].
  apply opentrack_validCheck_state in Epp as Es. subst cd1'.
  exists lines, cd1, cd2. simpl in *.
  assert (cdinfos.tracks cd2 = cdinfos.tracks cd1 /\
          cdinfos.CD_SIZE cd2 = cdinfos.CD_SIZE cd1 /\
          cdinfos.FILE_DIR cd2
            = Some (path_dirname (path_resolve (path_normalize input))))
    as (? & ? & ?).
  { unfold update in Ef. simplify_eq.
    destruct (JS.is_empty _); unfold update, ret in Et; simplify_eq;
      simpl; eauto. }
  repeat split; auto.
  - apply Nat.ltb_ge in El. destruct (cdinfos.tracks cd);
      [reflexivity | simpl in El; lia].
  - intros Hn. rewrite Hn in Ez. discriminate Ez.
Qed.

End LayoutFrame.

(** ** C9: a loaded instance refuses another load *)

(** C9. On an instance that has completed a load, [loadCue] throws, and the
    instance it leaves is the instance it was given: title, tracks, sizes and
    paths are unchanged. *)
Theorem reload_rejected `{Host} (input input2 : string) (cd cd' : cdinfos.t) :
  loadCue input cd = (Normal tt, cd') ->
  loadCue input2 cd' = (Throw LOADED_TWICE, cd').
Proof.
  intros E.
  apply loadCue_normal in E
    as (lines & cd1 & cd2 & _ & _ & _ & Hne & Ht & _ & _ & El).
  apply layout_declared, declared_length in El.
  unfold loadCue, bind, this.
  destruct (0 <? length (cdinfos.tracks cd'))%nat eqn:E0; [reflexivity |].
  apply Nat.ltb_ge in E0. rewrite El, Ht in E0.
  destruct (cdinfos.tracks cd1); [congruence | simpl in E0; lia].
Qed.

Lemma reload_rejected_witness :
  @loadCue (Sample.host Sample.plain_sheet 2000000) "disc.cue" cdinfos.new
    = (Normal tt, Sample.loaded Sample.plain_sheet 2000000) /\
  @loadCue (Sample.host Sample.plain_sheet 2000000) "other.cue"
      (Sample.loaded Sample.plain_sheet 2000000)
    = (Throw LOADED_TWICE, Sample.loaded Sample.plain_sheet 2000000).
Proof.
  assert (E : @loadCue (Sample.host Sample.plain_sheet 2000000) "disc.cue"
                cdinfos.new
              = (Normal tt, Sample.loaded Sample.plain_sheet 2000000))
    by (vm_compute; reflexivity).
  split; [exact E |].
  exact (@reload_rejected (Sample.host Sample.plain_sheet 2000000)
           "disc.cue" "other.cue" _ _ E).
Defined.

(** ** C7: the fields of the parsed time codes *)

Lemma timecodes_declared t t' :
  declared t = declared t' -> timecodes t = timecodes t'.
Proof.
  unfold declared, timecodes. intros E. inversion E. congruence.
Qed.

Lemma below_100_step line cd cd' :
  timecodes_below_100 cd -> _cueParser line cd = (Normal tt, cd') ->
  timecodes_below_100 cd'.
Proof.
  unfold timecodes_below_100. intros HP E.
  apply cueParser_normal in E
    as [->|[(_ & o & arg & _ & _ & ->)|[(_ & arg & _ & _ & ->)|
       [(_ & o & arg & _ & _ & ->)|[(_ & arg & _ & _ & ->)|
       [(_ & name & ty & _ & _ & _ & ->)|
       [(_ & n & ty & _ & _ & _ & _ & _ & ->)|
       [(_ & o & tr & n & t & _ & _ & Ei & _ & ->)|
        (_ & o & t & _ & Ep & ->)]]]]]]]]; simpl; auto.
  - apply Forall_alter; [exact HP | intros x _ Hx; exact Hx].
  - apply Forall_alter; [exact HP | intros x _ Hx; exact Hx].
  - apply Forall_app. split; [exact HP |].
    repeat constructor.
  - apply index_sound in Ei as [_ Hb].
    apply Forall_alter; [exact HP |]. intros x _ Hx.
    unfold timecodes, cdtrack.push_index in *. simpl.
    apply Forall_app in Hx as [Hx1 Hx2].
    rewrite !Forall_app. repeat split; auto.
  - apply pregap_sound in Ep.
    apply Forall_alter; [exact HP |]. intros x _ Hx.
    unfold timecodes in *. simpl.
    apply Forall_app in Hx as [Hx1 _].
    rewrite Forall_app. split; auto.
Qed.

(** C7, as the reader has it. Every time code of a loaded disc, index or
    pregap, has minutes, seconds and frames between 0 and 99: each is the
    value of a capture of one or two digits. Seconds are not held below 60,
    nor frames below 75. *)
Theorem parsed_timecodes_below_100 `{Host} (input : string)
    (cd cd' : cdinfos.t) :
  loadCue input cd = (Normal tt, cd') -> timecodes_below_100 cd'.
Proof.
  intros E.
  apply loadCue_normal in E
    as (lines & cd1 & cd2 & H0 & _ & Ep & _ & Ht & _ & _ & El).
  apply layout_declared in El.
  assert (H1 : timecodes_below_100 cd1).
  { apply (parse_lines_invariant timecodes_below_100 (fun _ => True)
             (fun line c c' _ => below_100_step line c c')
             lines 0 cd cd1); [| | exact Ep].
    - apply Forall_forall. auto.
    - unfold timecodes_below_100. rewrite H0. constructor. }
  unfold timecodes_below_100 in *. rewrite <- Ht in H1.
  apply (declared_Forall _ (cdinfos.tracks cd2)); [| auto | exact H1].
  intros t t' Hd Hx. rewrite <- (timecodes_declared _ _ Hd). exact Hx.
Qed.

Lemma parsed_timecodes_below_100_witness :
  @loadCue (Sample.host Sample.late_sheet 1000) "disc.cue" cdinfos.new
    = (Normal tt, Sample.loaded Sample.late_sheet 1000) /\
  timecodes_below_100 (Sample.loaded Sample.late_sheet 1000).
Proof.
  assert (E : @loadCue (Sample.host Sample.late_sheet 1000) "disc.cue"
                cdinfos.new
              = (Normal tt, Sample.loaded Sample.late_sheet 1000))
    by (vm_compute; reflexivity).
  split; [exact E |].
  exact (@parsed_timecodes_below_100 (Sample.host Sample.late_sheet 1000)
           "disc.cue" _ _ E).
Defined.

(** C7, as stated, fails: the sheet [Sample.late_sheet] loads, and its track
    has an index of 99 seconds and 99 frames and a pregap of 61 seconds and
    80 frames. *)
Lemma seconds_and_frames_unchecked :
  exists tr c p,
    fst (@loadCue (Sample.host Sample.late_sheet 1000) "disc.cue"
           cdinfos.new) = Normal tt /\
    cdinfos.tracks (Sample.loaded Sample.late_sheet 1000) = [tr] /\
    cdtrack.indexes tr = [c] /\ cdtrack.pregap tr = Some p /\
    ~ (cuetime.seconds c < 60) /\ ~ (cuetime.frames c < 75) /\
    ~ (cuetime.seconds p < 60) /\ ~ (cuetime.frames p < 75).
Proof.
  eexists _, _, _. split; [vm_compute; reflexivity |].
  split; [vm_compute; reflexivity |].
  split; [reflexivity |]. split; [reflexivity |].
  simpl. lia.
Qed.

(** ** C5: the INDEX lines of a generated sheet *)

Lemma index_lines_first tr ls :
  Sheet.index_lines tr = Some ls ->
  exists first rest,
    cdtrack.indexes tr = first :: rest /\
    ls = map (Sheet.index_line (cuetime.toFrames first)) (cdtrack.indexes tr).
Proof.
  unfold Sheet.index_lines.
  destruct (cdtrack.indexes tr) as [|first rest]; [discriminate |].
  intros [= <-]. eauto.
Qed.

Lemma blocks_index_lines aExt files trs : forall i bs,
  Sheet.blocks aExt files i trs = Some bs ->
  exists blocks, bs = concat blocks /\
                 Forall2 ends_with_index_lines trs blocks.
Proof.
  induction trs as [|tr trs IH]; intros i bs E; simpl in E.
  - inversion E. exists []. split; [reflexivity | constructor].
  - unfold Sheet.track_block in E.
    destruct (Sheet.index_lines tr) as [ix|] eqn:Ei; [| discriminate E].
    destruct (Sheet.blocks aExt files (S i) trs) as [bs'|] eqn:Eb;
      [| discriminate E].
    injection E as <-.
    apply IH in Eb as (blocks & -> & HF).
    apply index_lines_first in Ei as (first & rest & Ef & ->).
    exists (([Sheet.file_line tr (JS.nullish (files !! i) "undefined") aExt]
             ++ Sheet.quoted_line "TITLE" (cdtrack.title tr)
             ++ Sheet.quoted_line "PERFORMER" (cdtrack.artist tr)
             ++ [Sheet.track_line tr] ++ Sheet.pregap_lines tr
             ++ map (Sheet.index_line (cuetime.toFrames first))
                    (cdtrack.indexes tr)) :: blocks).
    split; [reflexivity |].
    constructor; [| exact HF].
    exists first, rest. eexists. split; [exact Ef |].
    rewrite !app_assoc. reflexivity.
Qed.

Lemma blocks_v09_index_lines tName aExt trs : forall bs,
  Sheet.blocks_v09 tName aExt trs = Some bs ->
  exists blocks, bs = concat blocks /\
                 Forall2 ends_with_index_lines trs blocks.
Proof.
  induction trs as [|tr trs IH]; intros bs E; simpl in E.
  - inversion E. exists []. split; [reflexivity | constructor].
  - unfold Sheet.track_block_v09 in E.
    destruct (Sheet.index_lines tr) as [ix|] eqn:Ei; [| discriminate E].
    destruct (Sheet.blocks_v09 tName aExt trs) as [bs'|];
      [| discriminate E].
    injection E as <-.
    destruct (IH bs' eq_refl) as (blocks & -> & HF).
    apply index_lines_first in Ei as (first & rest & Ef & ->).
    exists (([Sheet.file_line tr (tName +:+ cdtrack.noStr tr) aExt]
             ++ [Sheet.track_line tr] ++ Sheet.pregap_lines tr
             ++ map (Sheet.index_line (cuetime.toFrames first))
                    (cdtrack.indexes tr)) :: blocks).
    split; [reflexivity |].
    constructor; [| exact HF].
    exists first, rest. eexists. split; [exact Ef |].
    rewrite !app_assoc. reflexivity.
Qed.

Section NamesFrame.
Context `{Host}.

Lemma prepareFilenames_tracks template cd r cd' :
  prepareFilenames template cd = (r, cd') ->
  cdinfos.tracks cd' = cdinfos.tracks cd.
Proof.
  unfold prepareFilenames. js_run.
  destruct (0 <? _)%nat; intros E; simplify_eq; reflexivity.
Qed.

End NamesFrame.

(** C5, as the generators have it. In the sheet of [buildCueFileForCBAE],
    and in that of [generateCueForEncoded] of the first release, every
    track's lines end with one INDEX line per index, whose time stamp is the
    frame count of the index minus the frame count of the FIRST index the
    track lists (position 0 of [indexes]), written back as MM:SS:FF: that
    first listed index is the zero point. It is the index numbered 1 when no
    INDEX line of another number comes before it in the track. Where the
    difference is not negative, the time stamp converts back to it. *)
Theorem index_lines_relative_to_first_listed `{Host} (aExt tName : string)
    (cd cd' : cdinfos.t) (lines : list string) :
  (buildCueFileForCBAE aExt cd = (Normal lines, cd') ->
     exists blocks,
       lines = Sheet.header cd' ++ concat blocks /\
       Forall2 ends_with_index_lines (cdinfos.tracks cd) blocks) /\
  (generateCueForEncoded tName aExt cd = (Normal lines, cd') ->
     exists blocks,
       lines = concat blocks /\
       Forall2 ends_with_index_lines (cdinfos.tracks cd) blocks) /\
  (forall i0 iit,
     exists c,
       Sheet.index_line i0 iit =
         JS.TAB +:+ JS.TAB +:+ "INDEX " +:+
         JS.padStart2 (JS.numToString (cuetime.no iit)) +:+ " " +:+
         cuetime.toString c /\
       c = cuetime.fromFrames (cuetime.toFrames iit - i0)
             (cuetime.new (cuetime.no iit) 0 0 0) /\
       (i0 <= cuetime.toFrames iit ->
          cuetime.toFrames c = cuetime.toFrames iit - i0)).
Proof.
  split; [| split].
  - unfold buildCueFileForCBAE. intros E.
    apply bind_normal in E as (c0 & c0' & E0 & E).
    unfold this in E0. inversion E0; subst c0 c0'; clear E0.
    apply bind_normal in E as ([] & cd1 & Ep & E).
    apply bind_normal in E as (c1 & c1' & E1 & E).
    unfold this in E1. inversion E1; subst c1 c1'; clear E1.
    assert (Ht : cdinfos.tracks cd1 = cdinfos.tracks cd).
    { destruct (cdinfos.readyFiles cd).
      - unfold ret in Ep. congruence.
      - apply prepareFilenames_tracks in Ep. exact Ep. }
    destruct (Sheet.blocks aExt _ 0 (cdinfos.tracks cd1)) as [bs|] eqn:Eb;
      [| discriminate E].
    unfold ret in E. inversion E; subst; clear E.
    apply blocks_index_lines in Eb as (blocks & -> & HF).
    exists blocks. rewrite <- Ht. auto.
  - unfold generateCueForEncoded. intros E.
    apply bind_normal in E as (c0 & c0' & E0 & E).
    unfold this in E0. inversion E0; subst c0 c0'; clear E0.
    destruct (Sheet.blocks_v09 tName aExt (cdinfos.tracks cd)) as [bs|] eqn:Eb;
      [| discriminate E].
    unfold ret in E. inversion E; subst; clear E.
    apply blocks_v09_index_lines in Eb as (blocks & -> & HF).
    exists blocks. auto.
  - intros i0 iit. eexists. split; [reflexivity |]. split; [reflexivity |].
    intros Hle. apply toFrames_fromFrames. lia.
Qed.

Lemma index_lines_relative_to_first_listed_witness :
  exists lines blocks,
    @buildCueFileForCBAE (Sample.host [] 0) ".opus"
        (Sample.loaded Sample.pregap_sheet 1000000)
      = (Normal lines, snd (@buildCueFileForCBAE (Sample.host [] 0) ".opus"
                              (Sample.loaded Sample.pregap_sheet 1000000))) /\
    lines = Sheet.header
              (snd (@buildCueFileForCBAE (Sample.host [] 0) ".opus"
                      (Sample.loaded Sample.pregap_sheet 1000000)))
            ++ concat blocks /\
    Forall2 ends_with_index_lines
      (cdinfos.tracks (Sample.loaded Sample.pregap_sheet 1000000)) blocks.
Proof.
  eexists.
  assert (E : @buildCueFileForCBAE (Sample.host [] 0) ".opus"
                (Sample.loaded Sample.pregap_sheet 1000000)
              = (Normal _,
                 snd (@buildCueFileForCBAE (Sample.host [] 0) ".opus"
                        (Sample.loaded Sample.pregap_sheet 1000000))))
    by (vm_compute; reflexivity).
  destruct (proj1 (@index_lines_relative_to_first_listed (Sample.host [] 0)
                     ".opus" EmptyString _ _ _) E) as (blocks & E1 & E2).
  exists blocks. split; [exact E |]. split; [exact E1 | exact E2].
Defined.

(** C5, as stated, fails on [Sample.pregap_sheet]: track 02 lists INDEX 00
    before INDEX 01, the zero point of its INDEX lines is INDEX 00, and its
    INDEX 01 line is not the one relative to INDEX 01. *)
Lemma index_01_is_not_the_zero_point :
  exists tr i1 ls out,
    cdinfos.tracks (Sample.loaded Sample.pregap_sheet 1000000) !! 1%nat
      = Some tr /\
    In i1 (cdtrack.indexes tr) /\ cuetime.no i1 = 1 /\
    fst (@buildCueFileForCBAE (Sample.host [] 0) ".opus"
           (Sample.loaded Sample.pregap_sheet 1000000)) = Normal out /\
    ls = [JS.TAB +:+ JS.TAB +:+ "INDEX 00 00:00:00";
          JS.TAB +:+ JS.TAB +:+ "INDEX 01 00:02:00"] /\
    (exists pre, out = pre ++ ls) /\
    Sheet.index_lines tr = Some ls /\
    Sheet.index_line (cuetime.toFrames i1) i1
      = JS.TAB +:+ JS.TAB +:+ "INDEX 01 00:00:00" /\
    ~ In (Sheet.index_line (cuetime.toFrames i1) i1) ls.
Proof.
  eexists _, (cuetime.new 1 0 4 0), _, _.
  split; [vm_compute; reflexivity |].
  split; [right; left; reflexivity |].
  split; [reflexivity |].
  split; [vm_compute; reflexivity |].
  split; [reflexivity |].
  split; [eexists [_; _; _; _; _; _; _]; vm_compute; reflexivity |].
  split; [vm_compute; reflexivity |].
  split; [vm_compute; reflexivity |].
  vm_compute. intros [E|[E|[]]]; discriminate E.
Qed.

(** ** C8: the names of the tracks *)






Lemma indexOf_bounds x l : forall i,
  l !! i = Some x -> 0 <= Template.indexOf x l <= Z.of_nat i.
Proof.
  induction l as [|y l IH]; intros i Hi; [destruct i; discriminate Hi |].
  simpl. destruct (String.eqb y x) eqn:E; [lia |].
  destruct i as [|i]; simpl in Hi.
  - inversion Hi; subst. rewrite String.eqb_refl in E. discriminate E.
  - specialize (IH i Hi).
    destruct (Template.indexOf x l <? 0) eqn:E0; [lia | lia].
Qed.

Lemma filter_from_nonempty p l : forall ind k it,
  l !! k = Some it -> p it (ind + Z.of_nat k) = true ->
  Template.filter_from p ind l <> [].
Proof.
  induction l as [|y l IH]; intros ind k it Hk Hp;
    [destruct k; discriminate Hk |].
  simpl. destruct k as [|k]; simpl in Hk.
  - inversion Hk; subst. rewrite Z.add_0_r in Hp. rewrite Hp. discriminate.
  - destruct (p y ind); [discriminate |].
    apply (IH (ind + 1) k it Hk).
    replace (ind + 1 + Z.of_nat k) with (ind + Z.of_nat (S k)) by lia.
    exact Hp.
Qed.

Lemma repeats_of_equal_names (l : list string) i j x :
  i <> j -> l !! i = Some x -> l !! j = Some x ->
  (0 <? length (Template.repeats l))%nat = true.
Proof.
  intros Hij Hi Hj.
  assert (Hne : Template.repeats l <> []).
  { destruct (Nat.lt_ge_cases i j) as [Hlt|Hge].
    - apply (filter_from_nonempty _ l 0 j x Hj).
      pose proof (indexOf_bounds x l i Hi).
      apply negb_true_iff, Z.eqb_neq. lia.
    - apply (filter_from_nonempty _ l 0 i x Hi).
      pose proof (indexOf_bounds x l j Hj).
      apply negb_true_iff, Z.eqb_neq. lia. }
  destruct (Template.repeats l); [congruence | reflexivity].
Qed.

Section NamesProps.
Context `{Host}.

(** the names [prepareFilenames] writes, and when it throws *)
Lemma prepareFilenames_run template cd :
  let tpl := if JS.truthy template then JS.nullish template EmptyString
             else Template.default (cdinfos.tracks cd) in
  let names := map (fun tr => sanitizePath (fname cd tpl tr))
                   (cdinfos.tracks cd) in
  prepareFilenames template cd =
    (if (0 <? length (Template.repeats names))%nat
     then Throw "Template resulted in duplicate entries" else Normal tt,
     cdinfos.set_readyFiles (Some names) cd).
Proof.
  unfold prepareFilenames. js_run.
  destruct (0 <? _)%nat; reflexivity.
Qed.

End NamesProps.



(** ** C6: the strings the parser stores *)

Lemma upper_char_idem c : JS.upper_char (JS.upper_char c) = JS.upper_char c.
Proof. destruct c as [[] [] [] [] [] [] [] []]; reflexivity. Qed.

Lemma toUpperCase_idem s : JS.toUpperCase (JS.toUpperCase s) = JS.toUpperCase s.
Proof.
  unfold JS.toUpperCase. induction s as [|c s IH]; simpl; [reflexivity |].
  rewrite upper_char_idem, IH. reflexivity.
Qed.

Lemma toUpperCase_app a b :
  JS.toUpperCase (a +:+ b) = JS.toUpperCase a +:+ JS.toUpperCase b.
Proof.
  unfold JS.toUpperCase. induction a as [|c a IH]; [reflexivity |].
  rewrite append_cons. simpl. rewrite IH. reflexivity.
Qed.

Lemma toUpperCase_length s : String.length (JS.toUpperCase s) = String.length s.
Proof.
  unfold JS.toUpperCase. induction s as [|c s IH]; simpl; congruence.
Qed.

Lemma append_inj_length a : forall a' b b',
  String.length a = String.length a' ->
  a +:+ b = a' +:+ b' -> a = a' /\ b = b'.
Proof.
  induction a as [|c a IH]; intros [|c' a'] b b' Hl E; simpl in Hl;
    try discriminate Hl.
  - auto.
  - rewrite !append_cons in E. inversion E; subst.
    destruct (IH a' b b') as [-> ->]; auto.
Qed.

Lemma upper_cased_app a b :
  upper_cased (a +:+ b) <-> upper_cased a /\ upper_cased b.
Proof.
  unfold upper_cased. rewrite toUpperCase_app. split.
  - intros E. apply append_inj_length in E; [exact E |].
    apply toUpperCase_length.
  - intros [-> ->]. reflexivity.
Qed.

Lemma upper_cased_toUpperCase s : upper_cased (JS.toUpperCase s).
Proof. apply toUpperCase_idem. Qed.








Section StoredStrings.
Context `{Host}.




End StoredStrings.



(** ** C4: the sheets the loader rejects *)

Lemma parse_lines_app_normal a b l cd cd' :
  parse_lines l (a ++ b) cd = (Normal tt, cd') ->
  exists cd1, parse_lines l a cd = (Normal tt, cd1) /\
              parse_lines (l + Z.of_nat (length a)) b cd1 = (Normal tt, cd').
Proof.
  rewrite parse_lines_app. intros E.
  apply bind_normal in E as ([] & cd1 & E1 & E2). eauto.
Qed.

Lemma parse_lines_cons_normal x b l cd cd' :
  parse_lines l (x :: b) cd = (Normal tt, cd') ->
  exists cd1, parse_line l x cd = (Normal tt, cd1) /\
              parse_lines (l + 1) b cd1 = (Normal tt, cd').
Proof.
  simpl. intros E. apply bind_normal in E as ([] & cd1 & E1 & E2). eauto.
Qed.

(** a line of a command, when the loop body completes on it, was parsed *)
Lemma parse_line_command_normal kw l raw cd cd' :
  JS.is_empty kw = false -> is_command kw raw = true ->
  parse_line l raw cd = (Normal tt, cd') ->
  _cueParser (JS.trim raw) cd = (Normal tt, cd').
Proof.
  intros Hk C E. unfold parse_line in E.
  rewrite (command_not_empty kw _ Hk C) in E.
  apply rethrow_normal in E. exact E.
Qed.

Lemma parse_line_command_fails kw l raw cd :
  JS.is_empty kw = false -> is_command kw raw = true ->
  completes (_cueParser (JS.trim raw) cd) = false ->
  completes (parse_line l raw cd) = false.
Proof.
  intros Hk C E. apply parse_line_fails; [| exact E].
  exact (command_not_empty kw _ Hk C).
Qed.

(** the loop, then a continuation that throws wherever the invariant holds *)
Lemma parse_lines_then_fails (P : cdinfos.t -> Prop) (Q : string -> Prop)
    {B : Type} (K : unit -> js B) lines l cd :
  (forall line c c', Q line -> P c ->
     _cueParser line c = (Normal tt, c') -> P c') ->
  Forall (fun raw => Q (JS.trim raw)) lines -> P cd ->
  (forall c, P c -> completes (K tt c) = false) ->
  completes (bind (parse_lines l lines) K cd) = false.
Proof.
  intros Hstep HQ HP HK. apply bind_fails_r. intros [] cd1 E.
  apply HK. exact (parse_lines_invariant P Q Hstep lines l cd cd1 HQ HP E).
Qed.

Section Rejection.
Context `{Host}.

Lemma loadCue_fails input lines :
  getFileLines (path_normalize input) = Some lines ->
  (forall cd1, parse_lines 0 lines cdinfos.new = (Normal tt, cd1) ->
     completes (post_parse (path_normalize input) cd1) = false) ->
  completes (loadCue input cdinfos.new) = false.
Proof.
  intros Hl Hp. unfold loadCue. unfold bind at 1. simpl.
  destruct (negb _); [reflexivity |]. rewrite Hl.
  apply bind_fails_r. intros [] cd1 E.
  apply bind_fails_l. apply Hp. exact E.
Qed.

Lemma loadCue_fails_in_parse input lines :
  getFileLines (path_normalize input) = Some lines ->
  completes (parse_lines 0 lines cdinfos.new) = false ->
  completes (loadCue input cdinfos.new) = false.
Proof.
  intros Hl Hp. apply (loadCue_fails input lines Hl).
  intros cd1 E. rewrite E in Hp. discriminate Hp.
Qed.

Lemma post_parse_fails input cd :
  open_lacks_index_1 cd -> completes (post_parse input cd) = false.
Proof.
  intros (o & tr & Ho & Ht & Hx). unfold post_parse.
  unfold bind, update, this. simpl.
  destruct (length (cdinfos.tracks cd) =? 0)%nat; [reflexivity |].
  apply (opentrack_validCheck_throws _ o tr); simpl; assumption.
Qed.

End Rejection.

(** *** The commands that throw *)

Lemma TRACK_fails_idle lineup cd :
  idle cd -> completes (Command.TRACK lineup cd) = false.
Proof.
  intros (Ht & Hf & _). unfold Command.TRACK, bind, this.
  rewrite Hf, Ht. reflexivity.
Qed.

Lemma TRACK_fails_duplicate lineup cd n ty :
  Pattern.track lineup = Some (n, ty) -> has_track (JS.parseInt n) cd ->
  completes (Command.TRACK lineup cd) = false.
Proof.
  intros Ep Hd. unfold Command.TRACK. unfold bind at 1, this.
  destruct (_ && _); [reflexivity |].
  apply bind_fails_r. intros [] cd1 Ev.
  rewrite Ep. unfold has_track in Hd. rewrite Hd. reflexivity.
Qed.

Lemma TRACK_fails_type lineup cd n ty :
  Pattern.track lineup = Some (n, ty) -> sectorsByType ty = None ->
  completes (Command.TRACK lineup cd) = false.
Proof.
  intros Ep Hs. unfold Command.TRACK. unfold bind at 1, this.
  destruct (_ && _); [reflexivity |].
  apply bind_fails_r. intros [] cd1 Ev.
  rewrite Ep, Hs. destruct (existsb _ _); reflexivity.
Qed.

Lemma TRACK_fails_invalid lineup cd :
  open_lacks_index_1 cd -> completes (Command.TRACK lineup cd) = false.
Proof.
  intros (o & tr & Ho & Ht & Hx). unfold Command.TRACK.
  unfold bind at 1, this.
  destruct (_ && _); [reflexivity |].
  apply bind_fails_l. exact (opentrack_validCheck_throws _ o tr Ho Ht Hx).
Qed.

Lemma FILE_fails_type line cd name ty :
  Pattern.file line = Some (name, ty) ->
  includes SUPPORTED_TRACK_FILES ty = false ->
  completes (Command.FILE line cd) = false.
Proof.
  intros Ep Hs. unfold Command.FILE. rewrite Ep, Hs. reflexivity.
Qed.

Lemma FILE_fails_invalid line cd :
  open_lacks_index_1 cd -> completes (Command.FILE line cd) = false.
Proof.
  intros (o & tr & Ho & Ht & Hx). unfold Command.FILE.
  destruct (Pattern.file line) as [[name ty]|]; [| reflexivity].
  destruct (negb _); [reflexivity |].
  apply bind_fails_l. exact (opentrack_validCheck_throws _ o tr Ho Ht Hx).
Qed.

Lemma INDEX_fails_duplicate lineup cd n t :
  Pattern.index lineup = Some (n, t) -> open_has_index (JS.parseInt n) cd ->
  completes (Command.INDEX lineup cd) = false.
Proof.
  intros Ep (o & tr & Ho & Ht & Hx). unfold Command.INDEX. js_run.
  rewrite Ho, Ep, Ht, Hx. reflexivity.
Qed.

(** *** The invariants of the parsing loop *)

Lemma existsb_alter {A : Type} (p : A -> bool) f o (l : list A) :
  (forall x, p (f x) = p x) -> existsb p (alter f o l) = existsb p l.
Proof.
  intros Hf. revert o.
  induction l as [|x l IH]; intros [|o]; simpl; try reflexivity.
  - rewrite Hf. reflexivity.
  - f_equal. apply IH.
Qed.

Lemma idle_step line cd cd' :
  command "FILE" line = false -> idle cd ->
  _cueParser line cd = (Normal tt, cd') -> idle cd'.
Proof.
  intros Hq (Ht & Hf & Ho) E.
  apply cueParser_normal in E
    as [->|[(_ & o & arg & _ & Eo & ->)|[(_ & arg & _ & _ & ->)|
       [(_ & o & arg & _ & Eo & ->)|[(_ & arg & _ & _ & ->)|
       [(C & _)|
       [(_ & n & ty & _ & _ & _ & Hor & _ & ->)|
       [(_ & o & tr & n & t & Eo & _)|
        (_ & o & t & Eo & _)]]]]]]]];
    try congruence; try (repeat split; assumption).
  destruct Hor; congruence.
Qed.

Lemma has_track_step n line cd cd' :
  has_track n cd -> _cueParser line cd = (Normal tt, cd') -> has_track n cd'.
Proof.
  unfold has_track. intros HP E.
  apply cueParser_normal in E
    as [->|[(_ & o & arg & _ & _ & ->)|[(_ & arg & _ & _ & ->)|
       [(_ & o & arg & _ & _ & ->)|[(_ & arg & _ & _ & ->)|
       [(_ & name & ty & _ & _ & _ & ->)|
       [(_ & n' & ty & _ & _ & _ & _ & _ & ->)|
       [(_ & o & tr & n' & t & _ & _ & _ & _ & ->)|
        (_ & o & t & _ & _ & ->)]]]]]]]]; simpl; auto;
    try (rewrite existsb_alter; [exact HP | intros []; reflexivity]).
  rewrite existsb_app, HP. reflexivity.
Qed.

Lemma indexExists_push n c tr :
  cdtrack.indexExists n (cdtrack.push_index c tr)
  = cdtrack.indexExists n tr || (cuetime.no c =? n).
Proof.
  unfold cdtrack.indexExists, cdtrack.push_index. simpl.
  rewrite existsb_app. simpl. rewrite orb_false_r. reflexivity.
Qed.

(** a write through the open reference that keeps the indexes, or pushes
    one *)
Lemma open_written (phi : cdtrack.t -> Prop) f o tr cd :
  cdinfos.opentrack cd = Some o -> cdinfos.tracks cd !! o = Some tr ->
  phi (f tr) ->
  exists o' tr', cdinfos.opentrack (written o f cd) = Some o' /\
                 cdinfos.tracks (written o f cd) !! o' = Some tr' /\
                 phi tr'.
Proof.
  intros Ho Ht Hphi. exists o, (f tr). simpl.
  rewrite list_lookup_alter_eq, Ht. auto.
Qed.

Lemma open_has_index_step n line cd cd' :
  command "TRACK" line = false -> open_has_index n cd ->
  _cueParser line cd = (Normal tt, cd') -> open_has_index n cd'.
Proof.
  intros Hq (o & tr & Ho & Ht & Hx) E. unfold open_has_index.
  apply cueParser_normal in E
    as [->|[(_ & o' & arg & _ & Eo & ->)|[(_ & arg & _ & _ & ->)|
       [(_ & o' & arg & _ & Eo & ->)|[(_ & arg & _ & _ & ->)|
       [(_ & name & ty & _ & _ & _ & ->)|
       [(C & _)|
       [(_ & o' & tr' & n' & t & Eo & _ & _ & _ & ->)|
        (_ & o' & t & Eo & _ & ->)]]]]]]]];
    try congruence; try (exists o, tr; simpl; auto; fail);
    assert (o' = o) as -> by congruence;
    apply (open_written (fun x => cdtrack.indexExists n x = true)
             _ o tr cd Ho Ht); try exact Hx.
  rewrite indexExists_push, Hx. reflexivity.
Qed.

Lemma open_lacks_index_1_step line cd cd' :
  (forall n t, Pattern.index (JS.toUpperCase line) = Some (n, t) ->
     command "INDEX" line = true -> JS.parseInt n <> 1) ->
  open_lacks_index_1 cd ->
  _cueParser line cd = (Normal tt, cd') -> open_lacks_index_1 cd'.
Proof.
  intros Hq (o & tr & Ho & Ht & Hx) E. unfold open_lacks_index_1.
  apply cueParser_normal in E
    as [->|[(_ & o' & arg & _ & Eo & ->)|[(_ & arg & _ & _ & ->)|
       [(_ & o' & arg & _ & Eo & ->)|[(_ & arg & _ & _ & ->)|
       [(_ & name & ty & _ & _ & Ev & ->)|
       [(_ & n' & ty & _ & _ & _ & _ & Ev & ->)|
       [(C & o' & tr' & n' & t & Eo & _ & Ei & _ & ->)|
        (_ & o' & t & Eo & _ & ->)]]]]]]]];
    try congruence; try (exists o, tr; simpl; auto; fail);
    try (apply opentrack_validCheck_normal in Ev; rewrite Ho in Ev;
         destruct Ev as (tr0 & Ht0 & Hx0); congruence);
    assert (o' = o) as -> by congruence;
    apply (open_written (fun x => cdtrack.indexExists 1 x = false)
             _ o tr cd Ho Ht); try exact Hx.
  rewrite indexExists_push, Hx. simpl.
  apply Z.eqb_neq. unfold cuetime_of. destruct t as [[m s] f]. simpl.
  exact (Hq n' (m, s, f) Ei C).
Qed.

(** *** What an accepted line establishes *)

Lemma TRACK_accepted_has_track raw l cd cd' n :
  track_number raw = Some n ->
  parse_line l raw cd = (Normal tt, cd') -> has_track n cd'.
Proof.
  unfold track_number. intros Hn E.
  destruct (is_command "TRACK" raw) eqn:C; [| discriminate Hn].
  apply (parse_line_command_normal "TRACK") in E; [| reflexivity | exact C].
  rewrite (cueParser_TRACK _ C) in E.
  apply TRACK_normal in E as (n' & ty & Ep & _ & _ & _ & _ & ->).
  rewrite Ep in Hn. inversion Hn; subst.
  unfold has_track. simpl. rewrite existsb_app. simpl.
  rewrite Z.eqb_refl. rewrite orb_true_r. reflexivity.
Qed.

Lemma TRACK_accepted_lacks_index_1 raw l cd cd' :
  is_command "TRACK" raw = true ->
  parse_line l raw cd = (Normal tt, cd') -> open_lacks_index_1 cd'.
Proof.
  intros C E.
  apply (parse_line_command_normal "TRACK") in E; [| reflexivity | exact C].
  rewrite (cueParser_TRACK _ C) in E.
  apply TRACK_normal in E as (n' & ty & Ep & _ & _ & _ & _ & ->).
  eexists _, _. simpl. split; [reflexivity |].
  split; [apply list_lookup_middle; reflexivity | reflexivity].
Qed.

Lemma INDEX_accepted_has_index raw l cd cd' n :
  index_number raw = Some n ->
  parse_line l raw cd = (Normal tt, cd') -> open_has_index n cd'.
Proof.
  unfold index_number. intros Hn E.
  destruct (is_command "INDEX" raw) eqn:C; [| discriminate Hn].
  apply (parse_line_command_normal "INDEX") in E; [| reflexivity | exact C].
  rewrite (cueParser_INDEX _ C) in E.
  apply INDEX_normal in E as (o & tr & n' & t & Ho & Ht & Ep & _ & ->).
  rewrite Ep in Hn. inversion Hn; subst.
  apply (open_written (fun x => cdtrack.indexExists _ x = true)
           _ o tr cd Ho Ht).
  rewrite indexExists_push. destruct t as [[m s] f]. simpl.
  rewrite Z.eqb_refl. apply orb_true_r.
Qed.

(** *** The six errors *)

Lemma rejected_of_fails lines :
  (forall (H : Host) input,
     getFileLines (path_normalize input) = Some lines ->
     completes (loadCue input cdinfos.new) = false) ->
  rejected lines.
Proof.
  intros Hf H input Hl. apply completes_false. exact (Hf H input Hl).
Qed.

Lemma idle_new : idle cdinfos.new.
Proof. repeat split. Qed.

Lemma rejects_track_before_file pre t post :
  is_command "TRACK" t = true ->
  Forall (fun raw => is_command "FILE" raw = false) pre ->
  rejected (pre ++ t :: post).
Proof.
  intros C Hpre. apply rejected_of_fails. intros H input Hl.
  apply (loadCue_fails_in_parse input _ Hl).
  apply parse_lines_fails_at. intros cd1 E.
  assert (Hi : idle cd1).
  { exact (parse_lines_invariant idle
             (fun line => command "FILE" line = false) idle_step
             pre 0 _ _ Hpre idle_new E). }
  apply (parse_line_command_fails "TRACK"); [reflexivity | exact C |].
  rewrite (cueParser_TRACK _ C). exact (TRACK_fails_idle _ _ Hi).
Qed.

Lemma app_middle {A : Type} (l1 : list A) x l2 y l3 :
  l1 ++ x :: l2 ++ y :: l3 = (l1 ++ x :: l2) ++ y :: l3.
Proof. rewrite <- app_assoc. reflexivity. Qed.

Lemma everything (lines : list string) :
  Forall (fun raw => (fun _ : string => True) (JS.trim raw)) lines.
Proof. apply Forall_forall. auto. Qed.

Lemma rejects_duplicate_track l1 t1 l2 t2 l3 n :
  track_number t1 = Some n -> track_number t2 = Some n ->
  rejected (l1 ++ t1 :: l2 ++ t2 :: l3).
Proof.
  intros H1 H2. apply rejected_of_fails. intros H input Hl.
  apply (loadCue_fails_in_parse input _ Hl).
  rewrite app_middle. apply parse_lines_fails_at. intros cd1 E.
  apply parse_lines_app_normal in E as (ca & Ea & E).
  apply parse_lines_cons_normal in E as (cb & Eb & E).
  pose proof (TRACK_accepted_has_track _ _ _ _ _ H1 Eb) as Hb.
  assert (Hc : has_track n cd1).
  { exact (parse_lines_invariant (has_track n) (fun _ => True)
             (fun line c c' _ => has_track_step n line c c')
             l2 _ _ _ (everything l2) Hb E). }
  unfold track_number in H2.
  destruct (is_command "TRACK" t2) eqn:C; [| discriminate H2].
  destruct (Pattern.track _) as [[n2 ty]|] eqn:Ep; [| discriminate H2].
  inversion H2; subst.
  apply (parse_line_command_fails "TRACK"); [reflexivity | exact C |].
  rewrite (cueParser_TRACK _ C). exact (TRACK_fails_duplicate _ _ _ _ Ep Hc).
Qed.

Lemma rejects_duplicate_index l1 i1 l2 i2 l3 n :
  index_number i1 = Some n -> index_number i2 = Some n ->
  Forall (fun raw => is_command "TRACK" raw = false) l2 ->
  rejected (l1 ++ i1 :: l2 ++ i2 :: l3).
Proof.
  intros H1 H2 Hl2. apply rejected_of_fails. intros H input Hl.
  apply (loadCue_fails_in_parse input _ Hl).
  rewrite app_middle. apply parse_lines_fails_at. intros cd1 E.
  apply parse_lines_app_normal in E as (ca & Ea & E).
  apply parse_lines_cons_normal in E as (cb & Eb & E).
  pose proof (INDEX_accepted_has_index _ _ _ _ _ H1 Eb) as Hb.
  assert (Hc : open_has_index n cd1).
  { exact (parse_lines_invariant (open_has_index n)
             (fun line => command "TRACK" line = false)
             (open_has_index_step n) l2 _ _ _ Hl2 Hb E). }
  unfold index_number in H2.
  destruct (is_command "INDEX" i2) eqn:C; [| discriminate H2].
  destruct (Pattern.index _) as [[n2 t]|] eqn:Ep; [| discriminate H2].
  inversion H2; subst.
  apply (parse_line_command_fails "INDEX"); [reflexivity | exact C |].
  rewrite (cueParser_INDEX _ C). exact (INDEX_fails_duplicate _ _ _ _ Ep Hc).
Qed.

Lemma not_index_1 raw :
  index_number raw <> Some 1 ->
  forall n t,
    Pattern.index (JS.toUpperCase (JS.trim raw)) = Some (n, t) ->
    command "INDEX" (JS.trim raw) = true -> JS.parseInt n <> 1.
Proof.
  unfold index_number, is_command. intros Hn n t Ep C.
  rewrite C, Ep in Hn. congruence.
Qed.

Lemma rejects_track_without_index_1 l1 t l2 l3 :
  is_command "TRACK" t = true ->
  Forall (fun raw => index_number raw <> Some 1) l2 ->
  (l3 = [] \/
   exists x l3', l3 = x :: l3' /\
     (is_command "TRACK" x = true \/ is_command "FILE" x = true)) ->
  rejected (l1 ++ t :: l2 ++ l3).
Proof.
  intros C Hl2 Hl3. apply rejected_of_fails. intros H input Hl.
  assert (Hq : Forall (fun raw =>
            (fun line => forall n t0,
               Pattern.index (JS.toUpperCase line) = Some (n, t0) ->
               command "INDEX" line = true -> JS.parseInt n <> 1)
            (JS.trim raw)) l2).
  { eapply Forall_impl; [exact Hl2 |]. intros raw. apply not_index_1. }
  assert (Hopen : forall cd1,
            parse_lines 0 (l1 ++ t :: l2) cdinfos.new = (Normal tt, cd1) ->
            open_lacks_index_1 cd1).
  { intros cd1 E.
    apply parse_lines_app_normal in E as (ca & Ea & E).
    apply parse_lines_cons_normal in E as (cb & Eb & E).
    pose proof (TRACK_accepted_lacks_index_1 _ _ _ _ C Eb) as Hb.
    exact (parse_lines_invariant open_lacks_index_1 _
             open_lacks_index_1_step l2 _ _ _ Hq Hb E). }
  destruct Hl3 as [->|(x & l3' & -> & Cx)].
  - rewrite app_nil_r in *. apply (loadCue_fails input _ Hl).
    intros cd1 E. apply post_parse_fails. exact (Hopen cd1 E).
  - apply (loadCue_fails_in_parse input _ Hl).
    rewrite app_middle. apply parse_lines_fails_at. intros cd1 E.
    pose proof (Hopen cd1 E) as Ho.
    destruct Cx as [Cx|Cx].
    + apply (parse_line_command_fails "TRACK"); [reflexivity | exact Cx |].
      rewrite (cueParser_TRACK _ Cx). exact (TRACK_fails_invalid _ _ Ho).
    + apply (parse_line_command_fails "FILE"); [reflexivity | exact Cx |].
      rewrite (cueParser_FILE _ Cx). exact (FILE_fails_invalid _ _ Ho).
Qed.

Lemma rejects_file_type l1 f l2 ty :
  file_type f = Some ty -> includes SUPPORTED_TRACK_FILES ty = false ->
  rejected (l1 ++ f :: l2).
Proof.
  intros Hf Hty. apply rejected_of_fails. intros H input Hl.
  apply (loadCue_fails_in_parse input _ Hl).
  apply parse_lines_fails_at. intros cd1 _.
  unfold file_type in Hf.
  destruct (is_command "FILE" f) eqn:C; [| discriminate Hf].
  destruct (Pattern.file _) as [[name ty']|] eqn:Ep; [| discriminate Hf].
  inversion Hf; subst.
  apply (parse_line_command_fails "FILE"); [reflexivity | exact C |].
  rewrite (cueParser_FILE _ C). exact (FILE_fails_type _ _ _ _ Ep Hty).
Qed.

Lemma rejects_track_type l1 t l2 ty :
  track_type t = Some ty -> sectorsByType ty = None ->
  rejected (l1 ++ t :: l2).
Proof.
  intros Ht Hty. apply rejected_of_fails. intros H input Hl.
  apply (loadCue_fails_in_parse input _ Hl).
  apply parse_lines_fails_at. intros cd1 _.
  unfold track_type in Ht.
  destruct (is_command "TRACK" t) eqn:C; [| discriminate Ht].
  destruct (Pattern.track _) as [[n ty']|] eqn:Ep; [| discriminate Ht].
  inversion Ht; subst.
  apply (parse_line_command_fails "TRACK"); [reflexivity | exact C |].
  rewrite (cueParser_TRACK _ C). exact (TRACK_fails_type _ _ _ _ Ep Hty).
Qed.

(** C4. Loading a sheet into a new instance throws in each of these cases:
    a TRACK line with no FILE line before it; two TRACK lines of the same
    track number; two INDEX lines of the same index number with no TRACK
    line between them; a TRACK line followed by lines none of which is an
    INDEX line numbered 1, up to the next TRACK or FILE line or the end of
    the sheet; a FILE line whose type is not BINARY or WAVE; a TRACK line
    whose type is not in the sector-size table. *)
Theorem sheet_errors_rejected :
  (forall pre t post,
     is_command "TRACK" t = true ->
     Forall (fun raw => is_command "FILE" raw = false) pre ->
     rejected (pre ++ t :: post)) /\
  (forall l1 t1 l2 t2 l3 n,
     track_number t1 = Some n -> track_number t2 = Some n ->
     rejected (l1 ++ t1 :: l2 ++ t2 :: l3)) /\
  (forall l1 i1 l2 i2 l3 n,
     index_number i1 = Some n -> index_number i2 = Some n ->
     Forall (fun raw => is_command "TRACK" raw = false) l2 ->
     rejected (l1 ++ i1 :: l2 ++ i2 :: l3)) /\
  (forall l1 t l2 l3,
     is_command "TRACK" t = true ->
     Forall (fun raw => index_number raw <> Some 1) l2 ->
     (l3 = [] \/
      exists x l3', l3 = x :: l3' /\
        (is_command "TRACK" x = true \/ is_command "FILE" x = true)) ->
     rejected (l1 ++ t :: l2 ++ l3)) /\
  (forall l1 f l2 ty,
     file_type f = Some ty -> includes SUPPORTED_TRACK_FILES ty = false ->
     rejected (l1 ++ f :: l2)) /\
  (forall l1 t l2 ty,
     track_type t = Some ty -> sectorsByType ty = None ->
     rejected (l1 ++ t :: l2)).
Proof.
  repeat split.
  - exact rejects_track_before_file.
  - exact rejects_duplicate_track.
  - exact rejects_duplicate_index.
  - exact rejects_track_without_index_1.
  - exact rejects_file_type.
  - exact rejects_track_type.
Qed.

Lemma sheet_errors_rejected_witness :
  rejected Sample.track_before_file /\
  rejected Sample.track_twice /\
  rejected Sample.index_twice /\
  rejected Sample.no_index_1_then_track /\
  rejected Sample.no_index_1_at_end /\
  rejected Sample.file_type_mp3 /\
  rejected Sample.track_type_mode3.
Proof.
  destruct sheet_errors_rejected as (Ha & Hb & Hc & Hd & He & Hf).
  repeat split.
  - apply (Ha [] "TRACK 01 AUDIO" [Sample.FILE_a; "  INDEX 01 00:00:00"]);
      [reflexivity | constructor].
  - apply (Hb [Sample.FILE_a] "  TRACK 01 AUDIO" ["    INDEX 01 00:00:00"]
              "  TRACK 1 AUDIO" ["    INDEX 01 00:02:00"] 1);
      reflexivity.
  - apply (Hc [Sample.FILE_a; "  TRACK 01 AUDIO"] "    INDEX 01 00:00:00" []
              "    INDEX 1 00:02:00" [] 1);
      [reflexivity | reflexivity | constructor].
  - apply (Hd [Sample.FILE_a] "  TRACK 01 AUDIO" ["    INDEX 00 00:00:00"]
              ["  TRACK 02 AUDIO"; "    INDEX 01 00:02:00"]);
      [reflexivity | | right].
    + repeat constructor. intros E. vm_compute in E. discriminate E.
    + eexists _, _. split; [reflexivity | left; reflexivity].
  - apply (Hd [Sample.FILE_a] "  TRACK 01 AUDIO" ["    INDEX 00 00:00:00"]
              []);
      [reflexivity | | left; reflexivity].
    repeat constructor. intros E. vm_compute in E. discriminate E.
  - apply (He [] Sample.FILE_mp3
              ["  TRACK 01 AUDIO"; "    INDEX 01 00:00:00"] "MP3");
      reflexivity.
  - apply (Hf [Sample.FILE_a] "  TRACK 01 MODE3/2352"
              ["    INDEX 01 00:00:00"] "MODE3/2352");
      reflexivity.
Defined.

(** what the loader throws on the sample sheets of the six errors *)
Lemma sheet_errors_messages :
  let thrown lines :=
    fst (@loadCue (Sample.host lines 1000) "disc.cue" cdinfos.new) in
  thrown Sample.track_before_file
    = Throw "Cue Parse Error on Line (1) : A FILE has not been defined before TRACK 01" /\
  thrown Sample.track_twice
    = Throw "Cue Parse Error on Line (4) : Track 1 is already defined" /\
  thrown Sample.index_twice
    = Throw "Cue Parse Error on Line (4) : Track 1 - Duplicate Index entry 1" /\
  thrown Sample.no_index_1_then_track
    = Throw "Cue Parse Error on Line (4) : TRACK 1 has no INDEX" /\
  thrown Sample.no_index_1_at_end = Throw "TRACK 1 has no INDEX" /\
  thrown Sample.file_type_mp3
    = Throw "Cue Parse Error on Line (1) : Unsupported TRACK File Type MP3" /\
  thrown Sample.track_type_mode3
    = Throw "Cue Parse Error on Line (2) : Unsupported Track type MODE3/2352".
Proof. repeat split; vm_compute; reflexivity. Qed.

(** ** The layout pass *)

Section Layout.
Context `{Host}.

Lemma layout_owner_normal i cur cd cur' cd' :
  layout_owner i cur cd = (Normal cur', cd') ->
  exists tr, cdinfos.tracks cd !! i = Some tr /\
    ((JS.truthy (cdtrack.file tr) = true /\
      exists dir, cdinfos.FILE_DIR cd = Some dir /\
        cur' = (Some i, Some (file_size dir tr)) /\
        cd' = cdinfos.set_CD_SIZE (cdinfos.CD_SIZE cd + file_size dir tr) cd)
     \/
     (JS.truthy (cdtrack.file tr) = false /\
      exists o ot, fst cur = Some o /\ cdinfos.tracks cd !! o = Some ot /\
        cur' = cur /\
        cd' = written i (cdtrack.set_shared (cdtrack.file ot)) cd)).
Proof.
  unfold layout_owner. js_run.
  destruct (cdinfos.tracks cd !! i) as [tr|] eqn:Et; [| discriminate].
  intros E. exists tr. split; [reflexivity |].
  destruct (JS.truthy (cdtrack.file tr)) eqn:Ef.
  - left. split; [reflexivity |].
    destruct (cdinfos.FILE_DIR cd) as [dir|]; [| discriminate E].
    destruct (negb _); [discriminate E |].
    inversion E; subst. exists dir. auto.
  - right. split; [reflexivity |].
    destruct (fst cur) as [o|]; [| discriminate E].
    destruct (cdinfos.tracks cd !! o) as [ot|] eqn:Eo; [| discriminate E].
    inversion E; subst. exists o, ot. auto.
Qed.

Lemma layout_extent_normal i cur cd cd' :
  layout_extent i cur cd = (Normal tt, cd') ->
  (exists tr1 o ot first rest sector,
     cdinfos.tracks cd !! S i = Some tr1 /\
     JS.truthy (cdtrack.file tr1) = false /\
     fst cur = Some o /\ cdinfos.tracks cd !! o = Some ot /\
     cdtrack.indexes tr1 = first :: rest /\
     sectorsByType (cdtrack.typeStr ot) = Some sector /\
     cd' = written i
             (fun t => cdtrack.set_byteSize
                (sector * cuetime.toFrames first - cdtrack.byteStart t) t)
             (written (S i)
                (cdtrack.set_byteStart (sector * cuetime.toFrames first)) cd))
  \/
  (match cdinfos.tracks cd !! S i with
   | Some tr1 => JS.truthy (cdtrack.file tr1) = true
   | None => True
   end /\
   cd' = written i
           (fun t => cdtrack.set_byteSize
              (JS.nullish (snd cur) 0 - cdtrack.byteStart t) t) cd).
Proof.
  unfold layout_extent, last_on_file. js_run.
  destruct (cdinfos.tracks cd !! S i) as [tr1|] eqn:E1.
  - destruct (JS.truthy (cdtrack.file tr1)) eqn:Ef; simpl.
    + intros E. inversion E; subst. right. auto.
    + destruct (fst cur) as [o|]; [| discriminate].
      destruct (cdinfos.tracks cd !! o) as [ot|] eqn:Eo; [| discriminate].
      destruct (cdtrack.indexes tr1) as [|first rest] eqn:Ei;
        [discriminate |].
      destruct (sectorsByType (cdtrack.typeStr ot)) as [sector|] eqn:Es;
        [| discriminate].
      intros E. inversion E; subst. left.
      exists tr1, o, ot, first, rest, sector. auto 10.
  - intros E. inversion E; subst. right. auto.
Qed.

Lemma layout_step_normal i cur cd cur' cd' :
  layout_step i cur cd = (Normal cur', cd') ->
  exists cd1, layout_owner i cur cd = (Normal cur', cd1) /\
              layout_extent i cur' cd1 = (Normal tt, cd').
Proof.
  unfold layout_step. intros E.
  apply bind_normal in E as (c1 & cd1 & E1 & E).
  apply bind_normal in E as ([] & cd2 & E2 & E).
  unfold ret in E. inversion E; subst. eauto.
Qed.

End Layout.

(** *** Lookups after a write *)

Lemma lookup_declared (l l' : list cdtrack.t) p :
  map declared l = map declared l' ->
  declared <$> l !! p = declared <$> l' !! p.
Proof.
  revert l' p. induction l as [|x l IH]; intros [|y l'] p E; simpl in E;
    try discriminate E; [reflexivity |].
  pose proof (f_equal (hd (declared x)) E) as E1.
  pose proof (f_equal (@tl _) E) as E2. simpl in E1, E2.
  destruct p as [|p]; simpl; [congruence | apply IH; exact E2].
Qed.

Lemma declares_file_declared (l l' : list cdtrack.t) p :
  map declared l = map declared l' ->
  declares_file (l !! p) = declares_file (l' !! p).
Proof.
  intros E. pose proof (lookup_declared l l' p E) as Hp.
  destruct (l !! p) as [t|], (l' !! p) as [t'|]; simpl in *;
    try discriminate Hp; [| reflexivity].
  unfold declared in Hp. inversion Hp. congruence.
Qed.

Lemma owner_declared (l l' : list cdtrack.t) j :
  map declared l = map declared l' -> owner l j = owner l' j.
Proof.
  intros E. induction j as [|j IH]; simpl;
    rewrite (declares_file_declared l l' _ E); [reflexivity |].
  rewrite IH. reflexivity.
Qed.

Lemma owner_bound trs j o :
  owner trs j = Some o ->
  (o <= j)%nat /\ declares_file (trs !! o) = true.
Proof.
  induction j as [|j IH]; simpl.
  - destruct (declares_file (trs !! 0%nat)) eqn:E; [| discriminate].
    intros [= <-]. auto.
  - destruct (declares_file (trs !! S j)) eqn:E.
    + intros [= <-]. auto.
    + intros Ho. apply IH in Ho as [? ?]. split; [lia | assumption].
Qed.

Lemma lookup_written_other f i (l : list cdtrack.t) p :
  i <> p -> alter f i l !! p = l !! p.
Proof. apply list_lookup_alter_ne. Qed.

Lemma lookup_written_proj {B : Type} (pi : cdtrack.t -> B) f i
    (l : list cdtrack.t) p :
  (forall x, pi (f x) = pi x) -> pi <$> alter f i l !! p = pi <$> l !! p.
Proof.
  intros Hf. destruct (decide (i = p)) as [->|Hne].
  - rewrite list_lookup_alter_eq. destruct (l !! p); simpl;
      [rewrite Hf |]; reflexivity.
  - rewrite list_lookup_alter_ne by exact Hne. reflexivity.
Qed.

(** *** The invariant of the layout loop *)

Section LayoutInvariant.
Context `{Host}.

Lemma file_size_declared dir t t' :
  declared t = declared t' -> file_size dir t = file_size dir t'.
Proof. unfold declared, file_size. intros E. inversion E. congruence. Qed.

Lemma typeStr_declared t t' :
  declared t = declared t' -> cdtrack.typeStr t = cdtrack.typeStr t'.
Proof. unfold declared, cdtrack.typeStr. intros E. inversion E. congruence. Qed.

Lemma file_declared t t' :
  declared t = declared t' -> cdtrack.file t = cdtrack.file t'.
Proof. unfold declared. intros E. inversion E. congruence. Qed.

Lemma indexes_declared t t' :
  declared t = declared t' -> cdtrack.indexes t = cdtrack.indexes t'.
Proof. unfold declared. intros E. inversion E. congruence. Qed.

Lemma extent_settled_transport dir trs trs' j :
  map declared trs = map declared trs' ->
  trs' !! j = trs !! j ->
  cdtrack.byteStart <$> trs' !! S j = cdtrack.byteStart <$> trs !! S j ->
  extent_settled dir trs j -> extent_settled dir trs' j.
Proof.
  intros Ed Ej Es Hs tj Htj. rewrite Ej in Htj.
  destruct (Hs tj Htj) as (o & ow & Ho & How & Hm).
  destruct (declared_lookup trs' trs o ow (eq_sym Ed) How)
    as (ow' & How' & Hdo).
  exists o, ow'. split; [rewrite <- (owner_declared _ _ _ Ed); exact Ho |].
  split; [exact How' |].
  rewrite (file_size_declared dir _ _ Hdo).
  rewrite (typeStr_declared _ _ Hdo).
  destruct (trs !! S j) as [tj1|] eqn:E1.
  - destruct (declared_lookup trs' trs (S j) tj1 (eq_sym Ed) E1)
      as (tj1' & E1' & Hd1).
    rewrite E1' in Es |- *. simpl in Es. injection Es as Es.
    rewrite (file_declared _ _ Hd1), (indexes_declared _ _ Hd1), Es.
    exact Hm.
  - pose proof (lookup_declared trs trs' (S j) Ed) as Hd1.
    rewrite E1 in Hd1. destruct (trs' !! S j); [discriminate Hd1 | exact Hm].
Qed.

Lemma tracks_written o f cd :
  cdinfos.tracks (written o f cd) = alter f o (cdinfos.tracks cd).
Proof. reflexivity. Qed.

Lemma FILE_DIR_written o f cd :
  cdinfos.FILE_DIR (written o f cd) = cdinfos.FILE_DIR cd.
Proof. reflexivity. Qed.

Lemma layout_step_invariant dir T k cur cd cur' cd' :
  layout_invariant dir T k cur cd ->
  layout_step k cur cd = (Normal cur', cd') ->
  layout_invariant dir T (S k) cur' cd'.
Proof.
  intros (Hdir & Hdecl & Hcur & Hos & Hext & H0) E.
  pose proof (layout_step_declared _ _ _ _ _ E) as Hd'.
  apply layout_step_normal in E as (cd1 & E1 & E2).
  apply layout_owner_normal in E1 as (tr & Htr & E1).
  (* the first statement *)
  assert (Hdf : declares_file (T !! k) = JS.truthy (cdtrack.file tr)).
  { rewrite <- (declares_file_declared _ _ k Hdecl), Htr. reflexivity. }
  assert (H1 : cdinfos.FILE_DIR cd1 = Some dir /\
               map declared (cdinfos.tracks cd1) = map declared T /\
               fst cur' = owner T k /\ is_Some (fst cur') /\
               (forall o, fst cur' = Some o ->
                  exists ow, T !! o = Some ow /\
                             snd cur' = Some (file_size dir ow)) /\
               (forall p, p <> k ->
                  cdinfos.tracks cd1 !! p = cdinfos.tracks cd !! p) /\
               cdtrack.byteStart <$> cdinfos.tracks cd1 !! k
                 = cdtrack.byteStart <$> cdinfos.tracks cd !! k /\
               cdtrack.byteSize <$> cdinfos.tracks cd1 !! k
                 = cdtrack.byteSize <$> cdinfos.tracks cd !! k).
  { destruct E1 as [(Ef & dir' & Hdir' & -> & ->)
                   |(Ef & o & ot & Ho & Hot & -> & ->)]; simpl.
    - assert (dir' = dir) as -> by congruence.
      split; [exact Hdir |]. split; [exact Hdecl |].
      split; [destruct k; simpl; rewrite Hdf, Ef; reflexivity |].
      split; [eexists; reflexivity |].
      split; [| auto].
      intros o [= <-].
      destruct (declared_lookup T _ k tr (eq_sym Hdecl) Htr)
        as (tk & Htk & Hk).
      exists tk. rewrite (file_size_declared dir _ _ Hk). auto.
    - split; [exact Hdir |].
      split; [rewrite declared_alter;
              [exact Hdecl | intros []; reflexivity] |].
      split; [rewrite Hcur; destruct k; simpl; rewrite Hdf, Ef;
              reflexivity |].
      split; [eexists; exact Ho |].
      split; [exact Hos |].
      split; [intros p Hp; apply list_lookup_alter_ne; auto |].
      split; apply lookup_written_proj; intros []; reflexivity. }
  destruct H1
    as (Hdir1 & Hdecl1 & Hcur1 & Hsome & Hos1 & Hoth1 & Hbs1 & Hbz1).
  clear E1.
  apply layout_extent_normal in E2
    as [(tr1 & o & ot & first & rest & sector & Htr1 & Ef1 & Ho & Hot & Hix
         & Hsec & ->)
       |(Hnext & ->)];
    rewrite ?tracks_written in *; rewrite ?FILE_DIR_written.
  - (* the next track shares the file *)
    split; [exact Hdir1 |]. split; [exact (eq_trans Hd' Hdecl) |].
    split; [exact Hcur1 |]. split; [exact Hos1 |]. split.
    + intros j Hj.
      destruct (decide (j = k)) as [->|Hne].
      * (* the extent of track k *)
        intros tk Htk. rewrite ?tracks_written in *.
        rewrite list_lookup_alter_eq in Htk.
        rewrite list_lookup_alter_ne in Htk by lia.
        destruct (cdinfos.tracks cd1 !! k) as [t|] eqn:Et;
          [| discriminate Htk].
        injection Htk as <-.
        rewrite (owner_declared _ _ k Hd'), (owner_declared _ _ k Hdecl).
        rewrite <- Hcur1, Ho.
        pose proof (owner_bound T k o) as Hb.
        rewrite <- Hcur1, Ho in Hb. destruct (Hb eq_refl) as [Hle _].
        exists o.
        assert (Hot' : exists ow',
                  alter
                    (fun t0 => cdtrack.set_byteSize
                       (sector * cuetime.toFrames first
                        - cdtrack.byteStart t0) t0) k
                    (alter (cdtrack.set_byteStart
                              (sector * cuetime.toFrames first)) (S k)
                       (cdinfos.tracks cd1)) !! o = Some ow' /\
                  declared ow' = declared ot).
        { destruct (decide (k = o)) as [<-|Hko].
          - rewrite list_lookup_alter_eq, list_lookup_alter_ne by lia.
            rewrite Hot. eexists. split; [reflexivity |].
            destruct ot; reflexivity.
          - rewrite !list_lookup_alter_ne by lia. eauto. }
        destruct Hot' as (ow' & Hw & Hdw). exists ow'.
        split; [reflexivity |]. split; [exact Hw |].
        rewrite list_lookup_alter_ne by lia.
        rewrite list_lookup_alter_eq, Htr1. simpl. rewrite Ef1.
        exists first, rest, sector.
        rewrite (typeStr_declared _ _ Hdw). auto.
      * (* an earlier extent *)
        assert (Hjk : (j < k)%nat) by lia.
        rewrite ?tracks_written.
        apply (extent_settled_transport dir (cdinfos.tracks cd)).
        -- congruence.
        -- rewrite !list_lookup_alter_ne by lia. apply Hoth1. lia.
        -- rewrite (lookup_written_proj cdtrack.byteStart)
             by (intros []; reflexivity).
           rewrite list_lookup_alter_ne by lia.
           destruct (decide (S j = k)) as [<-|Hsj];
             [exact Hbs1 | rewrite Hoth1 by exact Hsj; reflexivity].
        -- apply Hext. exact Hjk.
    + rewrite ?tracks_written.
      rewrite (lookup_written_proj cdtrack.byteStart)
        by (intros []; reflexivity).
      rewrite list_lookup_alter_ne by lia.
      destruct (decide (0%nat = k)) as [<-|H0k];
        [rewrite Hbs1 | rewrite Hoth1 by auto]; exact H0.
  - (* the last track on the file *)
    split; [exact Hdir1 |]. split; [exact (eq_trans Hd' Hdecl) |].
    split; [exact Hcur1 |]. split; [exact Hos1 |]. split.
    + intros j Hj.
      destruct (decide (j = k)) as [->|Hne].
      * intros tk Htk. rewrite ?tracks_written in *.
        rewrite list_lookup_alter_eq in Htk.
        destruct (cdinfos.tracks cd1 !! k) as [t|] eqn:Et;
          [| discriminate Htk].
        injection Htk as <-.
        rewrite (owner_declared _ _ k Hd'), (owner_declared _ _ k Hdecl).
        destruct Hsome as (o & Ho). rewrite <- Hcur1, Ho.
        destruct (Hos1 o Ho) as (owT & HowT & Hsz).
        destruct (declared_lookup _ T o owT (eq_trans Hd' Hdecl) HowT)
          as (ow' & How' & Hdw).
        exists o, ow'. split; [reflexivity |]. split; [exact How' |].
        rewrite list_lookup_alter_ne by lia.
        rewrite Hsz, (file_size_declared dir _ _ Hdw). simpl.
        destruct (cdinfos.tracks cd1 !! S k) as [tr1|];
          [rewrite Hnext |]; reflexivity.
      * assert (Hjk : (j < k)%nat) by lia.
        rewrite ?tracks_written.
        apply (extent_settled_transport dir (cdinfos.tracks cd)).
        -- congruence.
        -- rewrite !list_lookup_alter_ne by lia. apply Hoth1. lia.
        -- rewrite (lookup_written_proj cdtrack.byteStart)
             by (intros []; reflexivity).
           destruct (decide (S j = k)) as [<-|Hsj];
             [exact Hbs1 | rewrite Hoth1 by exact Hsj; reflexivity].
        -- apply Hext. exact Hjk.
    + rewrite ?tracks_written.
      rewrite (lookup_written_proj cdtrack.byteStart)
        by (intros []; reflexivity).
      destruct (decide (0%nat = k)) as [<-|H0k];
        [rewrite Hbs1 | rewrite Hoth1 by auto]; exact H0.
Qed.


Lemma layout_loop_invariant dir T n : forall k cur cd cd',
  layout_invariant dir T k cur cd ->
  layout_loop n k cur cd = (Normal tt, cd') ->
  exists cur', layout_invariant dir T (k + n) cur' cd'.
Proof.
  induction n as [|n IH]; intros k cur cd cd' Hinv E; simpl in E.
  - unfold ret in E. inversion E; subst. exists cur.
    rewrite Nat.add_0_r. exact Hinv.
  - apply bind_normal in E as (cur1 & cd1 & E1 & E).
    pose proof (layout_step_invariant _ _ _ _ _ _ _ Hinv E1) as Hinv1.
    destruct (IH _ _ _ _ Hinv1 E) as (cur' & Hinv').
    exists cur'. replace (k + S n)%nat with (S k + n)%nat by lia.
    exact Hinv'.
Qed.

(** when the layout pass completes, the extent of every track is settled;
    the pass leaves alone what the sheet declares and the start of the first
    track *)
Lemma layout_settles dir cd cd' :
  cdinfos.FILE_DIR cd = Some dir ->
  layout cd = (Normal tt, cd') ->
  (forall j, extent_settled dir (cdinfos.tracks cd') j) /\
  map declared (cdinfos.tracks cd') = map declared (cdinfos.tracks cd) /\
  cdtrack.byteStart <$> cdinfos.tracks cd' !! 0%nat
    = cdtrack.byteStart <$> cdinfos.tracks cd !! 0%nat.
Proof.
  intros Hdir E. unfold layout, bind, this in E.
  assert (Hinit : layout_invariant dir (cdinfos.tracks cd) 0 (None, None) cd).
  { repeat split; auto.
    - intros o Ho. discriminate Ho.
    - intros j Hj. lia. }
  destruct (layout_loop_invariant _ _ _ _ _ _ _ Hinit E)
    as (cur' & _ & Hd & _ & _ & Hext & H0).
  split; [| auto].
  intros j. destruct (Nat.lt_ge_cases j (length (cdinfos.tracks cd)))
    as [Hlt|Hge]; [apply Hext; simpl; exact Hlt |].
  intros tj Htj. apply lookup_lt_Some in Htj.
  apply declared_length in Hd. lia.
Qed.

End LayoutInvariant.

(** ** C1: the start of a track that shares a file *)

Section SharedTracks.
Context `{Host}.

Lemma loadCue_v09_layout input cd cd' :
  V09.loadCue input cd = (Normal tt, cd') ->
  exists cd2, is_Some (cdinfos.FILE_DIR cd2) /\
              layout cd2 = (Normal tt, cd').
Proof.
  unfold V09.loadCue. intros E.
  apply bind_normal in E as (cd0 & cd0' & E0 & E).
  unfold this in E0. inversion E0; subst cd0 cd0'; clear E0.
  destruct (0 <? length (cdinfos.tracks cd))%nat; [discriminate E |].
  destruct (negb _); [discriminate E |].
  destruct (fileGet (path_normalize input)) as [contents|];
    [| discriminate E].
  apply bind_normal in E as ([] & cd1 & Ep & E).
  apply bind_normal in E as ([] & cd1' & Epp & E).
  apply bind_normal in E as (cdx & cdx' & Ex & E).
  unfold this in Ex. inversion Ex; subst cdx cdx'; clear Ex.
  apply bind_normal in E as ([] & cd2 & Et & E).
  apply bind_normal in E as ([] & cd3 & Ely & E).
  assert (cd3 = cd') as ->.
  { unfold debug_tracks in E. js_run. case_match; congruence. }
  unfold post_parse in Epp.
  apply bind_normal in Epp as ([] & c1 & Ea & Epp).
  apply bind_normal in Epp as ([] & c2 & Eb & Epp).
  apply bind_normal in Epp as (c3 & c3' & Ec & Epp).
  unfold update in Ea, Eb. unfold this in Ec. simplify_eq.
  destruct (length _ =? 0)%nat; [discriminate Epp |].
  apply opentrack_validCheck_state in Epp as Es. subst cd1'.
  exists cd2. split; [| exact Ely].
  destruct (JS.is_empty _).
  - destruct (V09.cue_name _); [| discriminate Et].
    unfold update in Et. simplify_eq. simpl. eauto.
  - unfold ret in Et. simplify_eq. simpl. eauto.
Qed.

(** the conclusion of C1 for the tracks [trs] of a loaded disc *)
Lemma settled_shared_start dir trs i tr tr1 :
  extent_settled dir trs i ->
  trs !! i = Some tr -> trs !! S i = Some tr1 ->
  JS.truthy (cdtrack.file tr1) = false ->
  exists o ow first rest sector,
    owner trs i = Some o /\ trs !! o = Some ow /\
    cdtrack.indexes tr1 = first :: rest /\
    sectorsByType (cdtrack.typeStr ow) = Some sector /\
    cdtrack.byteStart tr1 = sector * cuetime.toFrames first /\
    cdtrack.byteSize tr = cdtrack.byteStart tr1 - cdtrack.byteStart tr.
Proof.
  intros Hs Hi Hi1 Hf.
  destruct (Hs tr Hi) as (o & ow & Ho & How & Hm).
  rewrite Hi1, Hf in Hm.
  destruct Hm as (first & rest & sector & ? & ? & ? & ?).
  exists o, ow, first, rest, sector. repeat split; assumption.
Qed.

End SharedTracks.

(** C1, as the loader has it. On every loaded disc, in the current reader
    and in the first release, when track [i+1] exists and declares no file,
    its [byteStart] is the sector size of the type of the owner (the last
    track up to [i] that declares a file) times the frame count of the FIRST
    index track [i+1] lists (position 0 of [indexes]), and the [byteSize] of
    track [i] is the [byteStart] of track [i+1] minus its own. The first
    listed index is the index numbered 1 when no INDEX line of another
    number comes before it in the track. *)
Theorem shared_track_starts_at_first_listed_index `{Host} (input : string)
    (cd cd' : cdinfos.t) (i : nat) (tr tr1 : cdtrack.t) :
  loadCue input cd = (Normal tt, cd') \/
  V09.loadCue input cd = (Normal tt, cd') ->
  cdinfos.tracks cd' !! i = Some tr ->
  cdinfos.tracks cd' !! S i = Some tr1 ->
  JS.truthy (cdtrack.file tr1) = false ->
  exists o ow first rest sector,
    owner (cdinfos.tracks cd') i = Some o /\
    cdinfos.tracks cd' !! o = Some ow /\
    cdtrack.indexes tr1 = first :: rest /\
    sectorsByType (cdtrack.typeStr ow) = Some sector /\
    cdtrack.byteStart tr1 = sector * cuetime.toFrames first /\
    cdtrack.byteSize tr = cdtrack.byteStart tr1 - cdtrack.byteStart tr.
Proof.
  intros [E|E] Hi Hi1 Hf.
  - apply loadCue_normal in E
      as (lines & cd1 & cd2 & _ & _ & _ & _ & _ & _ & Hdir & El).
    destruct (layout_settles _ _ _ Hdir El) as (Hs & _).
    exact (settled_shared_start _ _ _ _ _ (Hs i) Hi Hi1 Hf).
  - apply loadCue_v09_layout in E as (cd2 & [dir Hdir] & El).
    destruct (layout_settles _ _ _ Hdir El) as (Hs & _).
    exact (settled_shared_start _ _ _ _ _ (Hs i) Hi Hi1 Hf).
Qed.

Lemma shared_track_starts_at_first_listed_index_witness :
  exists tr tr1 o ow first rest sector,
    cdinfos.tracks (Sample.loaded Sample.pregap_sheet 1000000) !! 0%nat
      = Some tr /\
    cdinfos.tracks (Sample.loaded Sample.pregap_sheet 1000000) !! 1%nat
      = Some tr1 /\
    owner (cdinfos.tracks (Sample.loaded Sample.pregap_sheet 1000000)) 0
      = Some o /\
    cdinfos.tracks (Sample.loaded Sample.pregap_sheet 1000000) !! o
      = Some ow /\
    cdtrack.indexes tr1 = first :: rest /\
    sectorsByType (cdtrack.typeStr ow) = Some sector /\
    cdtrack.byteStart tr1 = sector * cuetime.toFrames first /\
    cdtrack.byteSize tr = cdtrack.byteStart tr1 - cdtrack.byteStart tr.
Proof.
  assert (E : @loadCue (Sample.host Sample.pregap_sheet 1000000) "disc.cue"
                cdinfos.new
              = (Normal tt, Sample.loaded Sample.pregap_sheet 1000000))
    by (vm_compute; reflexivity).
  eexists _, _.
  destruct (@shared_track_starts_at_first_listed_index
              (Sample.host Sample.pregap_sheet 1000000) "disc.cue"
              cdinfos.new _ 0%nat _ _ (or_introl E) eq_refl eq_refl eq_refl)
    as (o & ow & first & rest & sector & H1 & H2 & H3 & H4 & H5 & H6).
  exists o, ow, first, rest, sector.
  split; [reflexivity |]. split; [reflexivity |]. auto 10.
Defined.

(** C1, as stated, fails on [Sample.pregap_sheet]: track 02 declares no
    file and lists INDEX 00 00:02:00 before INDEX 01 00:04:00; its
    [byteStart] is 2352 times the 150 frames of INDEX 00, not 2352 times the
    300 frames of its index numbered 1. *)
Lemma shared_start_is_not_at_index_01 :
  exists tr1 i1,
    fst (@loadCue (Sample.host Sample.pregap_sheet 1000000) "disc.cue"
           cdinfos.new) = Normal tt /\
    cdinfos.tracks (Sample.loaded Sample.pregap_sheet 1000000) !! 1%nat
      = Some tr1 /\
    cdtrack.file tr1 = None /\
    In i1 (cdtrack.indexes tr1) /\ cuetime.no i1 = 1 /\
    cuetime.toFrames i1 = 300 /\
    sectorsByType "MODE1/2352" = Some 2352 /\
    cdtrack.byteStart tr1 = 2352 * 150 /\
    cdtrack.byteStart tr1 <> 2352 * cuetime.toFrames i1.
Proof.
  eexists _, (cuetime.new 1 0 4 0).
  split; [vm_compute; reflexivity |].
  split; [vm_compute; reflexivity |].
  split; [reflexivity |].
  split; [right; left; reflexivity |].
  split; [reflexivity |]. split; [reflexivity |].
  split; [reflexivity |]. split; [reflexivity |].
  vm_compute. discriminate.
Qed.

(** ** C2: the ranges of the tracks of a single file *)

Lemma contiguous_total s trs e :
  contiguous_from s trs e -> s + total_size trs = e.
Proof.
  revert s. induction trs as [|t trs IH]; intros s Hc; simpl in *.
  - lia.
  - destruct Hc as [_ Hc]. apply IH in Hc. lia.
Qed.

Lemma contiguous_starts s trs e :
  contiguous_from s trs e ->
  Forall (fun t => 0 <= cdtrack.byteSize t) trs ->
  forall j b, trs !! j = Some b -> s <= cdtrack.byteStart b.
Proof.
  revert s. induction trs as [|t trs IH]; intros s Hc Hpos j b Hj;
    [destruct j; discriminate Hj |].
  destruct Hc as [Hs Hc]. inversion Hpos as [|? ? Ht Hrest]; subst.
  destruct j as [|j]; simpl in Hj.
  - inversion Hj; subst. lia.
  - pose proof (IH _ Hc Hrest j b Hj). lia.
Qed.

Lemma contiguous_non_overlapping s trs e :
  contiguous_from s trs e ->
  Forall (fun t => 0 <= cdtrack.byteSize t) trs ->
  non_overlapping trs.
Proof.
  revert s. induction trs as [|t trs IH]; intros s Hc Hpos i j a b x Hij Hi Hj;
    [destruct i; discriminate Hi |].
  destruct Hc as [Hs Hc]. inversion Hpos as [|? ? Ht Hrest]; subst.
  destruct j as [|j]; [lia |]. simpl in Hj.
  destruct i as [|i]; simpl in Hi.
  - inversion Hi; subst.
    pose proof (contiguous_starts _ _ _ Hc Hrest j b Hj).
    unfold in_range. lia.
  - apply (IH _ Hc Hrest i j a b x); [lia | exact Hi | exact Hj].
Qed.

(** from the extents, position by position, to the tiling *)
Lemma contiguous_of_extents trs : forall s e,
  trs <> [] ->
  (forall t, trs !! 0%nat = Some t -> cdtrack.byteStart t = s) ->
  (forall j a b, trs !! j = Some a -> trs !! S j = Some b ->
     cdtrack.byteStart a + cdtrack.byteSize a = cdtrack.byteStart b) ->
  (forall j a, trs !! j = Some a -> trs !! S j = None ->
     cdtrack.byteStart a + cdtrack.byteSize a = e) ->
  contiguous_from s trs e.
Proof.
  induction trs as [|t trs IH]; intros s e Hne H0 Hnext Hlast;
    [congruence |].
  simpl. pose proof (H0 t eq_refl) as Hs. split; [exact Hs |].
  destruct trs as [|t' trs].
  - simpl. rewrite <- Hs. apply (Hlast 0%nat t); reflexivity.
  - apply IH.
    + discriminate.
    + intros t0 E0. simpl in E0. inversion E0; subst t0.
      rewrite <- Hs. symmetry.
      apply (Hnext 0%nat t t'); reflexivity.
    + intros j a b Ha Hb. apply (Hnext (S j) a b); assumption.
    + intros j a Ha Hb. apply (Hlast (S j) a); assumption.
Qed.

Lemma unplaced_step line cd cd' :
  unplaced cd -> _cueParser line cd = (Normal tt, cd') -> unplaced cd'.
Proof.
  unfold unplaced. intros HP E.
  apply cueParser_normal in E
    as [->|[(_ & o & arg & _ & _ & ->)|[(_ & arg & _ & _ & ->)|
       [(_ & o & arg & _ & _ & ->)|[(_ & arg & _ & _ & ->)|
       [(_ & name & ty & _ & _ & _ & ->)|
       [(_ & n & ty & _ & _ & _ & _ & _ & ->)|
       [(_ & o & tr & n & t & _ & _ & _ & _ & ->)|
        (_ & o & t & _ & _ & ->)]]]]]]]]; simpl; auto;
    try (apply Forall_alter; [exact HP | intros x _ Hx; exact Hx]).
  apply Forall_app. split; [exact HP |]. repeat constructor.
Qed.

Section SingleFile.
Context `{Host}.

(** on a disc whose first track alone declares a file, that track owns
    every position *)
Lemma single_owner t0 rest f j o :
  cdtrack.file t0 = Some f ->
  Forall (fun t => cdtrack.file t = None) rest ->
  owner (t0 :: rest) j = Some o -> o = 0%nat.
Proof.
  intros Hf Hrest Ho. apply owner_bound in Ho as [_ Hd].
  destruct o as [|o]; [reflexivity |]. simpl in Hd.
  destruct (rest !! o) as [t|] eqn:Et; [| discriminate Hd].
  rewrite Forall_forall in Hrest.
  assert (Hin : t ∈ rest) by (eapply list_elem_of_lookup_2; exact Et).
  simpl in Hd. rewrite (Hrest t Hin) in Hd. discriminate Hd.
Qed.

Lemma single_file_extents dir t0 rest f :
  cdtrack.file t0 = Some f ->
  Forall (fun t => cdtrack.file t = None) rest ->
  (forall j, extent_settled dir (t0 :: rest) j) ->
  (forall j a b, (t0 :: rest) !! j = Some a -> (t0 :: rest) !! S j = Some b ->
     cdtrack.byteStart a + cdtrack.byteSize a = cdtrack.byteStart b) /\
  (forall j a, (t0 :: rest) !! j = Some a -> (t0 :: rest) !! S j = None ->
     cdtrack.byteStart a + cdtrack.byteSize a
       = fs_statSync_size (path_join dir f)).
Proof.
  intros Hf Hrest Hs. split.
  - intros j a b Ha Hb.
    destruct (Hs j a Ha) as (o & ow & Ho & How & Hm).
    rewrite Hb in Hm.
    assert (Hfb : cdtrack.file b = None).
    { rewrite Forall_forall in Hrest. apply Hrest.
      simpl in Hb. eapply list_elem_of_lookup_2. exact Hb. }
    rewrite Hfb in Hm. simpl in Hm.
    destruct Hm as (first & rest' & sector & _ & _ & _ & Hsz). lia.
  - intros j a Ha Hb.
    destruct (Hs j a Ha) as (o & ow & Ho & How & Hm).
    rewrite Hb in Hm.
    pose proof (single_owner _ _ _ _ _ Hf Hrest Ho) as ->.
    simpl in How. inversion How; subst.
    unfold file_size in Hm. rewrite Hf in Hm. simpl in Hm. lia.
Qed.

End SingleFile.

(** C2, as the loader has it. On a loaded disc whose first track alone
    declares a file, the tracks tile that file in order: the first starts at
    byte 0, each next one starts where the one before it ends, the last ends
    at the size of the file; so the sizes add up to the size of the file.
    The ranges do not overlap when no track has a negative size; the loader
    does not check that the starts it computes from the index times grow,
    nor that they stay within the file. *)
Theorem single_file_ranges `{Host} (input : string) (cd cd' : cdinfos.t)
    (t0 : cdtrack.t) (rest : list cdtrack.t) (f : string) :
  loadCue input cd = (Normal tt, cd') ->
  cdinfos.tracks cd' = t0 :: rest ->
  cdtrack.file t0 = Some f ->
  Forall (fun t => cdtrack.file t = None) rest ->
  let size :=
    fs_statSync_size
      (path_join (path_dirname (path_resolve (path_normalize input))) f) in
  total_size (cdinfos.tracks cd') = size /\
  contiguous_from 0 (cdinfos.tracks cd') size /\
  (Forall (fun t => 0 <= cdtrack.byteSize t) (cdinfos.tracks cd') ->
   non_overlapping (cdinfos.tracks cd')).
Proof.
  intros E Ht Hf Hrest size.
  apply loadCue_normal in E
    as (lines & cd1 & cd2 & H0 & _ & Ep & _ & Ht2 & _ & Hdir & El).
  destruct (layout_settles _ _ _ Hdir El) as (Hs & Hd & Hb0).
  assert (Hu : unplaced cd1).
  { apply (parse_lines_invariant unplaced (fun _ => True)
             (fun line c c' _ => unplaced_step line c c')
             lines 0 cd cd1 (everything lines)); [| exact Ep].
    unfold unplaced. rewrite H0. constructor. }
  assert (Hstart : cdtrack.byteStart t0 = 0).
  { rewrite Ht in Hb0. simpl in Hb0.
    destruct (cdinfos.tracks cd2) as [|t2 l2] eqn:E2; [discriminate Hb0 |].
    simpl in Hb0. unfold unplaced in Hu. rewrite <- Ht2 in Hu.
    inversion Hu; subst. congruence. }
  rewrite Ht in Hs |- *.
  destruct (single_file_extents _ _ _ _ Hf Hrest Hs) as (Hnext & Hlast).
  assert (Hc : contiguous_from 0 (t0 :: rest) size).
  { apply contiguous_of_extents; [discriminate | | exact Hnext | exact Hlast].
    intros t [= <-]. exact Hstart. }
  split; [| split].
  - apply contiguous_total in Hc. lia.
  - exact Hc.
  - intros Hpos. exact (contiguous_non_overlapping _ _ _ Hc Hpos).
Qed.

Lemma single_file_ranges_witness :
  total_size (cdinfos.tracks (Sample.loaded Sample.plain_sheet 2000000))
    = 2000000 /\
  contiguous_from 0
    (cdinfos.tracks (Sample.loaded Sample.plain_sheet 2000000)) 2000000 /\
  non_overlapping (cdinfos.tracks (Sample.loaded Sample.plain_sheet 2000000)).
Proof.
  assert (E : @loadCue (Sample.host Sample.plain_sheet 2000000) "disc.cue"
                cdinfos.new
              = (Normal tt, Sample.loaded Sample.plain_sheet 2000000))
    by (vm_compute; reflexivity).
  destruct (@single_file_ranges (Sample.host Sample.plain_sheet 2000000)
              "disc.cue" cdinfos.new _ _ _ "a.bin" E eq_refl eq_refl)
    as (H1 & H2 & H3).
  - repeat constructor.
  - split; [exact H1 |]. split; [exact H2 |].
    apply H3. repeat constructor; vm_compute; discriminate.
Defined.

(** C2, as stated, fails on [Sample.backwards_sheet] with a file of 705600
    bytes: the sheet loads, its first track alone declares a file, the sizes
    add up to the size of the file, but the third track starts before the
    second, the second has a negative size, and byte 200000 lies in the
    ranges of the first and of the third track. *)
Lemma backwards_indexes_overlap :
  exists a b c,
    fst (@loadCue (Sample.host Sample.backwards_sheet 705600) "disc.cue"
           cdinfos.new) = Normal tt /\
    cdinfos.tracks (Sample.loaded Sample.backwards_sheet 705600) = [a; b; c] /\
    cdtrack.file a = Some "a.bin" /\
    cdtrack.file b = None /\ cdtrack.file c = None /\
    cdtrack.byteSize b = -176400 /\
    in_range a 200000 /\ in_range c 200000 /\
    ~ non_overlapping
        (cdinfos.tracks (Sample.loaded Sample.backwards_sheet 705600)).
Proof.
  eexists _, _, _.
  split; [vm_compute; reflexivity |].
  split; [vm_compute; reflexivity |].
  split; [reflexivity |]. split; [reflexivity |]. split; [reflexivity |].
  split; [reflexivity |].
  split; [unfold in_range; simpl; lia |].
  split; [unfold in_range; simpl; lia |].
  intros Hno.
  apply (Hno 0%nat 2%nat _ _ 200000 ltac:(lia)
           ltac:(vm_compute; reflexivity) ltac:(vm_compute; reflexivity)).
  unfold in_range; simpl; lia.
Qed.

(** ** The rounds of the template replacement are enough *)

Lemma length_append (a b : string) :
  String.length (a +:+ b) = (String.length a + String.length b)%nat.
Proof.
  induction a as [|c a IH]; [reflexivity |].
  rewrite append_cons. simpl. rewrite IH. reflexivity.
Qed.

Lemma lazy_star_sound {R : Type} c s (k : string -> string -> option R) v :
  Template.lazy_star c s k = Some v ->
  exists m r, s = m +:+ r /\ k m r = Some v.
Proof.
  revert k. induction s as [|x s IH]; intros k E; simpl in E.
  - destruct (k EmptyString EmptyString) eqn:E0; [| discriminate E].
    exists EmptyString, EmptyString. split; [reflexivity | congruence].
  - destruct (k EmptyString (String x s)) eqn:E0.
    + exists EmptyString, (String x s). split; [reflexivity | congruence].
    + destruct (c x); [| discriminate E].
      apply IH in E as (m & r & -> & Hk).
      exists (String x m), r. split; [reflexivity | exact Hk].
Qed.

Lemma tag_shorter s b rest :
  Template.tag s = Some (b, rest) ->
  (String.length rest < String.length s)%nat.
Proof.
  unfold Template.tag, Template.lazy_plus. intros E.
  apply chr_sound in E as (s1 & -> & E).
  destruct s1 as [|x s1]; [discriminate E |].
  destruct (JS.is_dot x); [| discriminate E].
  apply lazy_star_sound in E as (m & r & -> & E).
  apply chr_sound in E as (r' & -> & E). inversion E; subst.
  simpl. rewrite length_append. simpl. lia.
Qed.

(** with at least [length s] rounds the result does not depend on the
    number of rounds: the replacement never stops for lack of rounds *)
Lemma replace_from_enough f : forall n m s,
  (String.length s <= n)%nat -> (String.length s <= m)%nat ->
  Template.replace_from n f s = Template.replace_from m f s.
Proof.
  induction n as [|n IH]; intros m s Hn Hm.
  - destruct s; [| simpl in Hn; lia]. destruct m; reflexivity.
  - destruct m as [|m].
    + destruct s; [| simpl in Hm; lia]. reflexivity.
    + simpl. destruct (Template.tag s) as [[b rest]|] eqn:Et.
      * apply tag_shorter in Et. f_equal. apply IH; lia.
      * destruct s as [|c s]; [reflexivity |].
        simpl in Hn, Hm. f_equal. apply IH; lia.
Qed.

(** ** The types of the parsed tracks are in the sector-size table *)

Lemma track_sound s n ty :
  Pattern.track s = Some (n, ty) ->
  exists kw ws ws2 rest,
    s = kw +:+ ws +:+ n +:+ ws2 +:+ ty +:+ rest /\
    all_chars JS.is_digit n = true.
Proof.
  unfold Pattern.track. intros E.
  apply plus_sound in E as (x1 & m1 & r1 & -> & H1 & E).
  apply plus_sound in E as (x2 & m2 & r2 & -> & H2 & E).
  apply plus_sound in E as (x3 & m3 & r3 & -> & H3 & E).
  apply plus_sound in E as (x4 & m4 & r4 & -> & H4 & E).
  apply plus_sound in E as (x5 & m5 & r5 & -> & H5 & E).
  inversion E; subst.
  exists (String x1 m1), (String x2 m2), (String x4 m4), r5.
  split; [reflexivity | exact H3].
Qed.

Lemma track_type_upper_cased line n ty :
  Pattern.track (JS.toUpperCase line) = Some (n, ty) -> upper_cased ty.
Proof.
  intros E. apply track_sound in E as (kw & ws & ws2 & rest & E & _).
  pose proof (upper_cased_toUpperCase line) as Hu. rewrite E in Hu.
  apply upper_cased_app in Hu as [_ Hu].
  apply upper_cased_app in Hu as [_ Hu].
  apply upper_cased_app in Hu as [_ Hu].
  apply upper_cased_app in Hu as [_ Hu].
  apply upper_cased_app in Hu as [Hu _]. exact Hu.
Qed.

(** every track [_cueParser] pushes has a type of the table, so the layout
    pass never multiplies by a missing sector size *)
Lemma parsed_types_in_table line cd cd' :
  Forall (fun t => is_Some (sectorsByType (cdtrack.typeStr t)))
    (cdinfos.tracks cd) ->
  _cueParser line cd = (Normal tt, cd') ->
  Forall (fun t => is_Some (sectorsByType (cdtrack.typeStr t)))
    (cdinfos.tracks cd').
Proof.
  intros HP E.
  apply cueParser_normal in E
    as [->|[(_ & o & arg & _ & _ & ->)|[(_ & arg & _ & _ & ->)|
       [(_ & o & arg & _ & _ & ->)|[(_ & arg & _ & _ & ->)|
       [(_ & name & ty & _ & _ & _ & ->)|
       [(_ & n & ty & Ep & Hty & _ & _ & _ & ->)|
       [(_ & o & tr & n & t & _ & _ & _ & _ & ->)|
        (_ & o & t & _ & _ & ->)]]]]]]]]; simpl; auto;
    try (apply Forall_alter; [exact HP | intros x _ Hx; exact Hx]).
  apply Forall_app. split; [exact HP |]. constructor; [| constructor].
  unfold cdtrack.typeStr, Command.new_track. simpl.
  rewrite (track_type_upper_cased _ _ _ Ep). exact Hty.
Qed.

(** * Further properties of the reader *)

(** ** What the reader keeps true, line after line *)

Lemma map_alter_proj {A B : Type} (g : A -> B) f o (l : list A) :
  (forall x, g (f x) = g x) -> map g (alter f o l) = map g l.
Proof.
  intros Hf. revert o.
  induction l as [|x l IH]; intros [|o]; simpl; try reflexivity.
  - rewrite Hf. reflexivity.
  - f_equal. apply IH.
Qed.

Lemma file_name_not_empty line name ty :
  Pattern.file line = Some (name, ty) -> JS.truthy (Some name) = true.
Proof.
  unfold Pattern.file. intros E.
  apply plus_sound in E as (x1 & m1 & r1 & -> & H1 & E).
  apply plus_sound in E as (x2 & m2 & r2 & -> & H2 & E).
  apply chr_sound in E as (r3 & -> & E).
  apply plus_sound in E as (x4 & m4 & r4 & -> & H4 & E).
  apply chr_sound in E as (r5 & -> & E).
  apply plus_sound in E as (x6 & m6 & r6 & -> & H6 & E).
  apply plus_sound in E as (x7 & m7 & r7 & -> & H7 & E).
  inversion E; subst. reflexivity.
Qed.

(** a write through a reference that keeps what the invariant reads *)
Lemma parsing_written o f cd :
  (forall x, cdtrack.file (f x) = cdtrack.file x /\
             cdtrack.type (f x) = cdtrack.type x /\
             cdtrack.no (f x) = cdtrack.no x /\
             cdtrack.shared (f x) = cdtrack.shared x /\
             cdtrack.byteStart (f x) = cdtrack.byteStart x /\
             cdtrack.byteSize (f x) = cdtrack.byteSize x) ->
  (forall x, cdinfos.tracks cd !! o = Some x ->
             NoDup (index_numbers x) -> NoDup (index_numbers (f x))) ->
  (forall x, cdtrack.indexExists 1 x = true ->
             cdtrack.indexExists 1 (f x) = true) ->
  parsing cd -> parsing (written o f cd).
Proof.
  intros Hf Hnd Hix (Hopen & Hno & Hall & Hone & Hpend & Hfirst & Hsize).
  unfold parsing, open_is_last, track_numbers.
  rewrite !tracks_written, length_alter. simpl.
  split; [exact Hopen |].
  split; [rewrite map_alter_proj; [exact Hno | intros x; apply Hf] |].
  split.
  { apply Forall_alter; [exact Hall |].
    intros x Hx (H1 & H2 & H3 & H4 & H5 & H6).
    destruct (Hf x) as (Ef & Et & _ & Es & Eb & Ez).
    unfold as_parsed. rewrite Ef, Et, Es, Eb, Ez. auto 10. }
  split.
  { intros j t Hj Hlt.
    destruct (decide (o = j)) as [->|Hne].
    - rewrite list_lookup_alter_eq in Hj.
      destruct (cdinfos.tracks cd !! j) as [x|] eqn:Ex; [| discriminate Hj].
      simpl in Hj. injection Hj as <-. apply Hix. exact (Hone j x Ex Hlt).
    - rewrite list_lookup_alter_ne in Hj by exact Hne.
      exact (Hone j t Hj Hlt). }
  split; [exact Hpend |].
  split; [| exact Hsize].
  intros Hne.
  assert (Hne' : cdinfos.tracks cd <> []).
  { intros E. apply Hne. rewrite E. reflexivity. }
  specialize (Hfirst Hne').
  pose proof (lookup_written_proj cdtrack.file f o (cdinfos.tracks cd) 0%nat
                (fun x => proj1 (Hf x))) as Hp.
  unfold declares_file in *.
  destruct (cdinfos.tracks cd !! 0%nat) as [t|]; [| discriminate Hfirst].
  destruct (alter f o (cdinfos.tracks cd) !! 0%nat) as [t'|];
    [| discriminate Hp].
  simpl in Hp. injection Hp as ->. exact Hfirst.
Qed.

Lemma index_numbers_push c tr :
  index_numbers (cdtrack.push_index c tr) = index_numbers tr ++ [cuetime.no c].
Proof. unfold index_numbers, cdtrack.push_index. simpl. apply map_app. Qed.

Lemma existsb_eqb_false (g : cdtrack.t -> Z) n l :
  existsb (fun t => g t =? n) l = false -> n ∉ map g l.
Proof.
  induction l as [|x l IH]; simpl; intros E Hin.
  - inversion Hin.
  - apply orb_false_iff in E as [E1 E2]. apply Z.eqb_neq in E1.
    inversion Hin; subst; [congruence | exact (IH E2 ltac:(assumption))].
Qed.

Lemma indexExists_not_in n tr :
  cdtrack.indexExists n tr = false -> n ∉ index_numbers tr.
Proof.
  unfold cdtrack.indexExists, index_numbers.
  induction (cdtrack.indexes tr) as [|x l IH]; simpl; intros E Hin.
  - inversion Hin.
  - apply orb_false_iff in E as [E1 E2]. apply Z.eqb_neq in E1.
    inversion Hin; subst; [congruence | exact (IH E2 ltac:(assumption))].
Qed.

Lemma NoDup_snoc {A : Type} (l : list A) x :
  NoDup l -> x ∉ l -> NoDup (l ++ [x]).
Proof.
  intros Hl Hx. apply NoDup_app. split; [exact Hl |].
  split; [| apply NoDup_singleton].
  intros y Hy Hy'. apply list_elem_of_singleton in Hy'. subst. exact (Hx Hy).
Qed.

Lemma cuetime_of_no n t : cuetime.no (cuetime_of n t) = n.
Proof. destruct t as [[m s] f]. reflexivity. Qed.

Lemma parsing_step line cd cd' :
  parsing cd -> _cueParser line cd = (Normal tt, cd') -> parsing cd'.
Proof.
  intros HP E.
  apply cueParser_normal in E
    as [->|[(_ & o & arg & _ & _ & ->)|[(_ & arg & _ & _ & ->)|
       [(_ & o & arg & _ & _ & ->)|[(_ & arg & _ & _ & ->)|
       [(_ & name & ty & Ef & _ & _ & ->)|
       [(_ & n & ty & Ep & Hty & Hex & Hpre & Hv & ->)|
       [(_ & o & tr & n & t & Ho & Htr & _ & Hex & ->)|
        (_ & o & t & _ & _ & ->)]]]]]]]];
    try exact HP;
    try (apply parsing_written; [intros x; repeat split | auto | auto | exact HP]).
  - (* FILE *)
    destruct HP as (Hopen & Hno & Hall & Hone & Hpend & Hfirst & Hsize).
    repeat split; auto. right. exact (file_name_not_empty _ _ _ Ef).
  - (* TRACK *)
    destruct HP as (Hopen & Hno & Hall & Hone & Hpend & Hfirst & Hsize).
    unfold parsing, open_is_last, track_numbers. simpl.
    rewrite length_app, map_app. simpl.
    split; [rewrite Nat.add_1_r; reflexivity |].
    split; [apply NoDup_snoc; [exact Hno | exact (existsb_eqb_false _ _ _ Hex)] |].
    split.
    { apply Forall_app. split; [exact Hall |]. constructor; [| constructor].
      unfold as_parsed, index_numbers, Command.new_track. simpl.
      split; [constructor |].
      split; [exists (JS.toUpperCase ty);
              rewrite (track_type_upper_cased _ _ _ Ep); auto |].
      split; [destruct Hpend; auto | auto]. }
    split.
    { intros j t Hj Hlt.
      assert (Hjl : (j < length (cdinfos.tracks cd))%nat) by lia.
      rewrite lookup_app_l in Hj by exact Hjl.
      destruct (decide (S j < length (cdinfos.tracks cd))%nat) as [Hs|Hs];
        [exact (Hone j t Hj Hs) |].
      apply opentrack_validCheck_normal in Hv. unfold open_is_last in Hopen.
      destruct (length (cdinfos.tracks cd)) as [|m] eqn:El; [lia |].
      rewrite Hopen in Hv. destruct Hv as (tr & Htr & Hx).
      assert (j = m) as -> by lia. congruence. }
    split; [left; reflexivity |].
    split; [| exact Hsize].
    intros _. destruct (cdinfos.tracks cd) as [|t0 l] eqn:El.
    + simpl. destruct Hpre as [Hpre|Hpre]; [| congruence].
      destruct Hpend as [Hpend|Hpend]; [congruence | exact Hpend].
    + simpl. apply Hfirst. discriminate.
  - (* INDEX, no index number twice *)
    intros x Hx Hnd. rewrite index_numbers_push, cuetime_of_no.
    apply NoDup_snoc; [exact Hnd |].
    apply indexExists_not_in. congruence.
  - (* INDEX, the index numbered 1 stays *)
    intros x Hx. rewrite indexExists_push, Hx. reflexivity.
Qed.

Lemma parsing_new : parsing cdinfos.new.
Proof.
  repeat split; simpl; auto; try constructor.
  intros j t _ Hj. lia.
Qed.

Section Parsed.
Context `{Host}.

Lemma parse_lines_parsing lines l cd cd' :
  parsing cd -> parse_lines l lines cd = (Normal tt, cd') -> parsing cd'.
Proof.
  intros HP E.
  apply (parse_lines_invariant parsing (fun _ => True)
           (fun line cd cd' _ => parsing_step line cd cd')
           lines l cd cd'); auto.
  apply Forall_forall. auto.
Qed.

End Parsed.

(** ** The tracks of a loaded disc *)

Section Loaded.
Context `{Host}.

(** a load that completes has checked the last track too *)
Lemma loadCue_last_checked input cd cd' :
  loadCue input cd = (Normal tt, cd') ->
  exists lines cd1,
    getFileLines (path_normalize input) = Some lines /\
    parse_lines 0 lines cd = (Normal tt, cd1) /\
    match cdinfos.opentrack cd1 with
    | Some o =>
        exists tr, cdinfos.tracks cd1 !! o = Some tr /\
                   cdtrack.indexExists 1 tr = true
    | None => True
    end.
Proof.
  unfold loadCue. intros E.
  apply bind_normal in E as (cd0 & cd0' & E0 & E).
  unfold this in E0. inversion E0; subst cd0 cd0'; clear E0.
  destruct (0 <? length (cdinfos.tracks cd))%nat; [discriminate E |].
  destruct (negb _); [discriminate E |].
  destruct (getFileLines (path_normalize input)) as [lines|];
    [| discriminate E].
  apply bind_normal in E as ([] & cd1 & Ep & E).
  apply bind_normal in E as ([] & cd1' & Epp & _).
  exists lines, cd1. split; [reflexivity |]. split; [exact Ep |].
  unfold post_parse in Epp.
  apply bind_normal in Epp as ([] & c1 & Ea & Epp).
  apply bind_normal in Epp as ([] & c2 & Eb & Epp).
  apply bind_normal in Epp as (c3 & c3' & Ec & Epp).
  unfold update in Ea, Eb. unfold this in Ec. simplify_eq.
  destruct (length _ =? 0)%nat; [discriminate Epp |].
  pose proof (opentrack_validCheck_state _ _ _ Epp) as Es. subst cd1'.
  apply opentrack_validCheck_normal in Epp. exact Epp.
Qed.

(** the sheet of a load into a new instance: the state the reader leaves
    keeps its invariant, every track has an index numbered 1, and the layout
    pass runs on these tracks *)
Lemma loadCue_new input cd' :
  loadCue input cdinfos.new = (Normal tt, cd') ->
  exists cd1 cd2,
    parsing cd1 /\
    cdinfos.tracks cd1 <> [] /\
    Forall (fun t => cdtrack.indexExists 1 t = true) (cdinfos.tracks cd1) /\
    cdinfos.tracks cd2 = cdinfos.tracks cd1 /\
    cdinfos.CD_SIZE cd2 = 0 /\
    cdinfos.FILE_DIR cd2
      = Some (path_dirname (path_resolve (path_normalize input))) /\
    layout cd2 = (Normal tt, cd').
Proof.
  intros E.
  destruct (loadCue_last_checked _ _ _ E) as (lines & cd1 & El & Ep & Hv).
  apply loadCue_normal in E
    as (lines' & cd1' & cd2 & _ & El' & Ep' & Hne & Ht2 & Hs2 & Hdir & Ely).
  assert (lines' = lines) as -> by congruence.
  assert (cd1' = cd1) as -> by congruence.
  pose proof (parse_lines_parsing _ _ _ _ parsing_new Ep) as HP.
  exists cd1, cd2.
  split; [exact HP |]. split; [exact Hne |].
  destruct HP as (Hopen & _ & _ & Hone & _ & _ & Hsize).
  split; [| repeat split; auto; congruence].
  apply Forall_lookup. intros j t Hj.
  destruct (decide (S j < length (cdinfos.tracks cd1))%nat) as [Hs|Hs];
    [exact (Hone j t Hj Hs) |].
  apply lookup_lt_Some in Hj as Hlt.
  unfold open_is_last in Hopen.
  destruct (length (cdinfos.tracks cd1)) as [|m] eqn:Em; [lia |].
  rewrite Hopen in Hv. destruct Hv as (tr & Htr & Hx).
  assert (j = m) as -> by lia. congruence.
Qed.

End Loaded.

(** ** What the layout loop writes of [shared] and [CD_SIZE] *)

Lemma total_size_app a b : total_size (a ++ b) = total_size a + total_size b.
Proof. induction a as [|x a IH]; simpl; lia. Qed.

(** a write that keeps [file] and [shared], read backwards and forwards *)
Lemma lookup_alter_kept f i (l : list cdtrack.t) j t' :
  (forall x, cdtrack.file (f x) = cdtrack.file x /\
             cdtrack.shared (f x) = cdtrack.shared x) ->
  alter f i l !! j = Some t' ->
  exists t, l !! j = Some t /\ cdtrack.file t' = cdtrack.file t /\
            cdtrack.shared t' = cdtrack.shared t.
Proof.
  intros Hf Hj. destruct (decide (i = j)) as [->|Hne].
  - rewrite list_lookup_alter_eq in Hj.
    destruct (l !! j) as [t|]; [| discriminate Hj].
    simpl in Hj. injection Hj as <-. exists t.
    destruct (Hf t) as [-> ->]. auto.
  - rewrite list_lookup_alter_ne in Hj by exact Hne. exists t'. auto.
Qed.

Lemma lookup_alter_keeps f i (l : list cdtrack.t) j t :
  (forall x, cdtrack.file (f x) = cdtrack.file x /\
             cdtrack.shared (f x) = cdtrack.shared x) ->
  l !! j = Some t ->
  exists t', alter f i l !! j = Some t' /\
             cdtrack.file t' = cdtrack.file t /\
             cdtrack.shared t' = cdtrack.shared t.
Proof.
  intros Hf Hj. destruct (decide (i = j)) as [->|Hne].
  - rewrite list_lookup_alter_eq, Hj. simpl. exists (f t).
    destruct (Hf t) as [-> ->]. auto.
  - rewrite list_lookup_alter_ne by exact Hne. exists t. auto.
Qed.

(** the owner of a position depends on which tracks open a file only *)
Lemma owner_files (l l' : list cdtrack.t) j :
  (forall p, declares_file (l !! p) = declares_file (l' !! p)) ->
  owner l j = owner l' j.
Proof.
  intros E. induction j as [|j IH]; simpl; rewrite E; [reflexivity |].
  rewrite IH. reflexivity.
Qed.

Lemma declares_file_alter f i (l : list cdtrack.t) p :
  (forall x, cdtrack.file (f x) = cdtrack.file x) ->
  declares_file (alter f i l !! p) = declares_file (l !! p).
Proof.
  intros Hf.
  pose proof (lookup_written_proj cdtrack.file f i l p Hf) as Hp.
  unfold declares_file.
  destruct (alter f i l !! p) as [t'|], (l !! p) as [t|]; simpl in Hp;
    try discriminate Hp; [| reflexivity].
  injection Hp as ->. reflexivity.
Qed.

Lemma owner_alter f i (l : list cdtrack.t) j :
  (forall x, cdtrack.file (f x) = cdtrack.file x) ->
  owner (alter f i l) j = owner l j.
Proof.
  intros Hf. apply owner_files. intros p. apply declares_file_alter, Hf.
Qed.

Lemma owners_untouched_alter f i (l : list cdtrack.t) :
  (forall x, cdtrack.file (f x) = cdtrack.file x) ->
  (forall x, l !! i = Some x -> JS.truthy (cdtrack.file x) = true ->
     cdtrack.byteStart (f x) = cdtrack.byteStart x /\
     cdtrack.shared (f x) = cdtrack.shared x) ->
  owners_untouched l -> owners_untouched (alter f i l).
Proof.
  intros Hf Hk Hu p t' Hp Ht.
  destruct (decide (i = p)) as [->|Hne].
  - rewrite list_lookup_alter_eq in Hp.
    destruct (l !! p) as [t|] eqn:Et; [| discriminate Hp].
    simpl in Hp. injection Hp as <-. rewrite Hf in Ht.
    destruct (Hk t eq_refl Ht) as [-> ->]. exact (Hu p t Et Ht).
  - rewrite list_lookup_alter_ne in Hp by exact Hne. exact (Hu p t' Hp Ht).
Qed.

Section Accounts.
Context `{Host}.

Lemma layout_owner_exists i cur cd cur' cd' tr dir :
  layout_owner i cur cd = (Normal cur', cd') ->
  cdinfos.tracks cd !! i = Some tr ->
  JS.truthy (cdtrack.file tr) = true ->
  cdinfos.FILE_DIR cd = Some dir ->
  fs_existsSync (path_join dir (JS.nullish (cdtrack.file tr) "null")) = true.
Proof.
  unfold layout_owner. js_run. intros E Ht Hf Hd.
  rewrite Ht in E. simpl in E. rewrite Hf, Hd in E.
  destruct (fs_existsSync _); [reflexivity | discriminate E].
Qed.

Lemma shares_alter dir k f i trs :
  (forall x, cdtrack.file (f x) = cdtrack.file x /\
             cdtrack.shared (f x) = cdtrack.shared x) ->
  shares dir k trs -> shares dir k (alter f i trs).
Proof.
  intros Hf [Hb Hc]. split.
  - intros j t' Hj Hl Ht.
    destruct (lookup_alter_kept _ _ _ _ _ Hf Hl) as (t & Hl0 & Ef & Es).
    rewrite Ef in Ht. destruct (Hb j t Hj Hl0 Ht) as (o & ow & Ho & How & E).
    destruct (lookup_alter_keeps f i _ _ _ Hf How) as (ow' & How' & Ef' & _).
    exists o, ow'. rewrite owner_alter by (intros x; apply Hf).
    split; [exact Ho |]. split; [exact How' |]. congruence.
  - intros j t' Hj Hl Ht.
    destruct (lookup_alter_kept _ _ _ _ _ Hf Hl) as (t & Hl0 & Ef & Es).
    rewrite Ef in Ht |- *. exact (Hc j t Hj Hl0 Ht).
Qed.

(** the first statement of a round *)
Lemma accounts_owner dir T C0 k cur cd cur' cd1 :
  layout_accounts dir T C0 k cur cd ->
  layout_owner k cur cd = (Normal cur', cd1) ->
  owners_untouched (cdinfos.tracks cd1) /\
  shares dir (S k) (cdinfos.tracks cd1) /\
  exists tk, cdinfos.tracks cd1 !! k = Some tk /\
    cdinfos.CD_SIZE cd1 - C0
      = total_size (take k (cdinfos.tracks cd1))
        + (JS.nullish (snd cur') 0 - cdtrack.byteStart tk).
Proof.
  intros ((Hdir & Hdecl & Hcur & Hos & _ & _) & Hu & [Hb Hc] & Hd) E.
  pose proof E as Ex.
  apply layout_owner_normal in E as (tr & Htr & [(Hf & dir' & Hd' & -> & ->)
    |(Hf & o & ot & Ho & Hot & -> & ->)]).
  - (* the track opens a file *)
    assert (dir' = dir) as -> by congruence. simpl.
    split; [exact Hu |]. split.
    + split.
      * intros j t Hj Hl Ht.
        destruct (decide (j = k)) as [->|Hne]; [congruence |].
        apply Hb; auto. lia.
      * intros j t Hj Hl Ht.
        destruct (decide (j = k)) as [->|Hne].
        -- assert (t = tr) as -> by congruence.
           exact (layout_owner_exists _ _ _ _ _ _ _ Ex Htr Hf Hdir).
        -- apply (Hc j); auto. lia.
    + exists tr. split; [exact Htr |].
      rewrite Htr in Hd. simpl in Hd. rewrite Hf in Hd.
      destruct (Hu k tr Htr Hf) as [Hs _]. unfold file_size in *. lia.
  - (* the track shares the file of the owner *)
    rewrite tracks_written.
    assert (Hkeep : forall x,
              cdtrack.file (cdtrack.set_shared (cdtrack.file ot) x)
              = cdtrack.file x) by reflexivity.
    split.
    { apply owners_untouched_alter; [exact Hkeep | | exact Hu].
      intros x Hx Hxt. congruence. }
    assert (Hk : exists k', k = S k' /\ owner T k' = Some o).
    { rewrite Hcur in Ho. destruct k as [|k']; [discriminate Ho |].
      exists k'. auto. }
    destruct Hk as (k' & -> & Hown).
    split.
    + split.
      * intros j t Hj Hl Ht. rewrite owner_alter by exact Hkeep.
        destruct (decide (j = S k')) as [->|Hne].
        -- rewrite list_lookup_alter_eq, Htr in Hl. simpl in Hl.
           injection Hl as <-. exists o, ot.
           assert (Hlt : (o <= k')%nat).
           { apply owner_bound in Hown. lia. }
           rewrite list_lookup_alter_ne by lia.
           split; [| auto].
           rewrite (owner_declared _ _ _ Hdecl). simpl.
           rewrite <- (declares_file_declared _ _ _ Hdecl), Htr. simpl.
           rewrite Hf. exact Hown.
        -- rewrite list_lookup_alter_ne in Hl by lia.
           destruct (Hb j t ltac:(lia) Hl Ht) as (o' & ow & Ho' & How & Es).
           exists o', ow. split; [exact Ho' |]. split; [| exact Es].
           apply owner_bound in Ho' as [Hle _].
           rewrite list_lookup_alter_ne by lia. exact How.
      * intros j t Hj Hl Ht.
        destruct (decide (j = S k')) as [->|Hne].
        -- rewrite list_lookup_alter_eq, Htr in Hl. simpl in Hl.
           injection Hl as <-. simpl in Ht. congruence.
        -- rewrite list_lookup_alter_ne in Hl by lia.
           apply (Hc j); auto. lia.
    + exists (cdtrack.set_shared (cdtrack.file ot) tr).
      rewrite list_lookup_alter_eq, Htr. split; [reflexivity |].
      rewrite take_alter_ge by lia. simpl.
      rewrite Htr in Hd. simpl in Hd. rewrite Hf in Hd. exact Hd.
Qed.

(** the second statement of a round *)
Lemma accounts_extent dir C0 k cur cd1 cd' tk :
  owners_untouched (cdinfos.tracks cd1) ->
  shares dir (S k) (cdinfos.tracks cd1) ->
  cdinfos.tracks cd1 !! k = Some tk ->
  cdinfos.CD_SIZE cd1 - C0
    = total_size (take k (cdinfos.tracks cd1))
      + (JS.nullish (snd cur) 0 - cdtrack.byteStart tk) ->
  layout_extent k cur cd1 = (Normal tt, cd') ->
  owners_untouched (cdinfos.tracks cd') /\
  shares dir (S k) (cdinfos.tracks cd') /\
  cdinfos.CD_SIZE cd' - C0
    = total_size (take (S k) (cdinfos.tracks cd'))
      + file_rest cur (cdinfos.tracks cd' !! S k).
Proof.
  intros Hu Hs Htk Hd E.
  apply layout_extent_normal in E
    as [(tr1 & o & ot & first & rest & sector & H1 & Hf1 & _ & _ & _ & _ & ->)
       |(H1 & ->)]; rewrite !tracks_written.
  - (* the next track shares the file *)
    split.
    { apply owners_untouched_alter; [reflexivity | auto |].
      apply owners_untouched_alter; [reflexivity | | exact Hu].
      intros x Hx Hxt. congruence. }
    split.
    { apply shares_alter; [auto |]. apply shares_alter; [auto | exact Hs]. }
    rewrite (take_S_r _ _
               (cdtrack.set_byteSize
                  (sector * cuetime.toFrames first - cdtrack.byteStart tk) tk)).
    2:{ rewrite list_lookup_alter_eq, list_lookup_alter_ne by lia.
        rewrite Htk. reflexivity. }
    rewrite !take_alter_ge by lia.
    rewrite list_lookup_alter_ne by lia.
    rewrite list_lookup_alter_eq, H1.
    rewrite total_size_app. simpl. rewrite Hf1. lia.
  - (* the track is the last on its file *)
    split.
    { apply owners_untouched_alter; [reflexivity | auto | exact Hu]. }
    split; [apply shares_alter; [auto | exact Hs] |].
    rewrite (take_S_r _ _
               (cdtrack.set_byteSize
                  (JS.nullish (snd cur) 0 - cdtrack.byteStart tk) tk)).
    2:{ rewrite list_lookup_alter_eq, Htk. reflexivity. }
    rewrite !take_alter_ge by lia.
    rewrite list_lookup_alter_ne by lia.
    rewrite total_size_app. simpl.
    destruct (cdinfos.tracks cd1 !! S k) as [tr1|]; simpl;
      [rewrite H1 |]; lia.
Qed.

Lemma layout_accounts_step dir T C0 k cur cd cur' cd' :
  layout_accounts dir T C0 k cur cd ->
  layout_step k cur cd = (Normal cur', cd') ->
  layout_accounts dir T C0 (S k) cur' cd'.
Proof.
  intros Hacc E.
  pose proof (layout_step_invariant _ _ _ _ _ _ _ (proj1 Hacc) E) as Hinv.
  apply layout_step_normal in E as (cd1 & E1 & E2).
  destruct (accounts_owner _ _ _ _ _ _ _ _ Hacc E1)
    as (Hu & Hs & tk & Htk & Hd).
  destruct (accounts_extent _ _ _ _ _ _ _ Hu Hs Htk Hd E2)
    as (Hu' & Hs' & Hd').
  split; [exact Hinv |]. auto.
Qed.

Lemma layout_accounts_loop dir T C0 n : forall k cur cd cd',
  layout_accounts dir T C0 k cur cd ->
  layout_loop n k cur cd = (Normal tt, cd') ->
  exists cur', layout_accounts dir T C0 (k + n) cur' cd'.
Proof.
  induction n as [|n IH]; intros k cur cd cd' Hacc E; simpl in E.
  - unfold ret in E. inversion E; subst. exists cur.
    rewrite Nat.add_0_r. exact Hacc.
  - apply bind_normal in E as (cur1 & cd1 & E1 & E).
    pose proof (layout_accounts_step _ _ _ _ _ _ _ _ Hacc E1) as Hacc1.
    destruct (IH _ _ _ _ Hacc1 E) as (cur' & Hacc').
    exists cur'. replace (k + S n)%nat with (S k + n)%nat by lia.
    exact Hacc'.
Qed.

End Accounts.

(** ** A disc loaded into a new instance *)

Lemma numbers_declared (l l' : list cdtrack.t) :
  map declared l = map declared l' -> map cdtrack.no l = map cdtrack.no l'.
Proof.
  intros E.
  assert (Hm : forall x : list cdtrack.t,
            map cdtrack.no x = map (fun d => d.1.1.1.1.1.2) (map declared x)).
  { intros x. rewrite map_map. reflexivity. }
  rewrite (Hm l), (Hm l'), E. reflexivity.
Qed.

Lemma well_formed_declared t t' :
  declared t = declared t' -> well_formed t -> well_formed t'.
Proof.
  unfold declared, well_formed, index_numbers, cdtrack.indexExists.
  intros E. inversion E. congruence.
Qed.

Section LoadedDisc.
Context `{Host}.

(** the state a load into a new instance leaves, from the two invariants *)
Lemma loaded_disc input cd' :
  loadCue input cdinfos.new = (Normal tt, cd') ->
  let dir := path_dirname (path_resolve (path_normalize input)) in
  exists T,
    T <> [] /\ NoDup (map cdtrack.no T) /\ Forall as_parsed T /\
    Forall (fun t => cdtrack.indexExists 1 t = true) T /\
    map declared (cdinfos.tracks cd') = map declared T /\
    cdinfos.FILE_DIR cd' = Some dir /\
    (forall j, extent_settled dir (cdinfos.tracks cd') j) /\
    owners_untouched (cdinfos.tracks cd') /\
    shares dir (length (cdinfos.tracks cd')) (cdinfos.tracks cd') /\
    cdinfos.CD_SIZE cd' = total_size (cdinfos.tracks cd').
Proof.
  intros E dir.
  apply loadCue_new in E
    as (cd1 & cd2 & HP & Hne & Hone & Ht2 & Hs2 & Hdir & El).
  destruct HP as (_ & Hno & Hall & _ & _ & Hfirst & _).
  exists (cdinfos.tracks cd2). rewrite Ht2.
  split; [exact Hne |]. split; [exact Hno |]. split; [exact Hall |].
  split; [exact Hone |].
  unfold layout, bind, this in El.
  assert (Hinit : layout_accounts dir (cdinfos.tracks cd2) 0 0 (None, None)
                    cd2).
  { split.
    { repeat split; auto.
      - intros o Ho. discriminate Ho.
      - intros j Hj. lia. }
    split.
    { intros p t Hp _. rewrite Ht2 in Hp.
      rewrite Forall_lookup in Hall.
      destruct (Hall p t Hp) as (_ & _ & _ & Hsh & Hst & _). auto. }
    split; [split; intros j t Hj; lia |].
    rewrite Hs2, Ht2. simpl. specialize (Hfirst Hne).
    unfold declares_file in Hfirst.
    destruct (cdinfos.tracks cd1 !! 0%nat) as [t0|]; [| discriminate Hfirst].
    simpl. rewrite Hfirst. reflexivity. }
  destruct (layout_accounts_loop _ _ _ _ _ _ _ _ Hinit El)
    as (cur' & (Hd' & Hdecl & _ & _ & Hext & _) & Hu & Hs & Hsize).
  simpl in Hsize, Hs, Hext.
  pose proof (declared_length _ _ Hdecl) as Hlen.
  rewrite Ht2 in Hdecl, Hlen.
  split; [exact Hdecl |]. split; [exact Hd' |].
  split.
  { intros j tj Hj. apply (Hext j); [| exact Hj].
    pose proof (lookup_lt_Some _ _ _ Hj) as Hlt. rewrite Ht2. lia. }
  split; [exact Hu |].
  rewrite Ht2, <- Hlen in Hs, Hsize.
  split; [exact Hs |].
  rewrite take_ge in Hsize by lia.
  rewrite lookup_ge_None_2 in Hsize by lia. simpl in Hsize. lia.
Qed.

End LoadedDisc.

Lemma Shelf_loads :
  @loadCue (Shelf.host Shelf.sheet Shelf.files) "disc.cue" cdinfos.new
  = (Normal tt, Shelf.loaded).
Proof. vm_compute. reflexivity. Qed.

(** X1. A disc loaded into a new instance has at least one track, and no two
    of its tracks have the same number. *)
Theorem loaded_track_numbers_distinct `{Host} (input : string)
    (cd' : cdinfos.t) :
  loadCue input cdinfos.new = (Normal tt, cd') ->
  cdinfos.tracks cd' <> [] /\ NoDup (track_numbers cd').
Proof.
  intros E.
  destruct (loaded_disc _ _ E)
    as (T & Hne & Hno & _ & _ & Hdecl & _).
  split.
  - intros E0. rewrite E0 in Hdecl. destruct T; [congruence | discriminate].
  - unfold track_numbers. rewrite (numbers_declared _ _ Hdecl). exact Hno.
Qed.

Lemma loaded_track_numbers_distinct_witness :
  cdinfos.tracks Shelf.loaded <> [] /\ NoDup (track_numbers Shelf.loaded).
Proof.
  exact (@loaded_track_numbers_distinct (Shelf.host Shelf.sheet Shelf.files)
           "disc.cue" Shelf.loaded Shelf_loads).
Defined.

(** X2. Every track of a disc loaded into a new instance lists an index
    numbered 1, lists no index number twice, and has a type of the table of
    sector sizes. *)
Theorem loaded_tracks_well_formed `{Host} (input : string)
    (cd' : cdinfos.t) :
  loadCue input cdinfos.new = (Normal tt, cd') ->
  Forall well_formed (cdinfos.tracks cd').
Proof.
  intros E.
  destruct (loaded_disc _ _ E)
    as (T & _ & _ & Hall & Hone & Hdecl & _).
  apply (declared_Forall well_formed T _ well_formed_declared
           (eq_sym Hdecl)).
  apply Forall_lookup. intros j t Hj.
  rewrite Forall_lookup in Hall, Hone.
  destruct (Hall j t Hj) as (Hnd & Hty & _).
  split; [exact (Hone j t Hj) |]. auto.
Qed.

Lemma loaded_tracks_well_formed_witness :
  Forall well_formed (cdinfos.tracks Shelf.loaded).
Proof.
  exact (@loaded_tracks_well_formed (Shelf.host Shelf.sheet Shelf.files)
           "disc.cue" Shelf.loaded Shelf_loads).
Defined.

Section Files.
Context `{Host}.

(** the file of a track of a loaded disc: the one its owner opens *)
Lemma loaded_owner_file input cd' i tr :
  loadCue input cdinfos.new = (Normal tt, cd') ->
  cdinfos.tracks cd' !! i = Some tr ->
  let dir := path_dirname (path_resolve (path_normalize input)) in
  exists o ow f,
    owner (cdinfos.tracks cd') i = Some o /\
    cdinfos.tracks cd' !! o = Some ow /\
    cdtrack.file ow = Some f /\ JS.truthy (Some f) = true /\
    fs_existsSync (path_join dir f) = true /\
    ((o = i /\ cdtrack.file tr = Some f /\ cdtrack.shared tr = None) \/
     ((o < i)%nat /\ cdtrack.file tr = None /\ cdtrack.shared tr = Some f)).
Proof.
  intros E Hi dir.
  destruct (loaded_disc _ _ E)
    as (T & _ & _ & Hall & _ & Hdecl & _ & _ & Hu & [Hb Hc] & _).
  pose proof (lookup_lt_Some _ _ _ Hi) as Hlt.
  assert (Hfile : forall p t, cdinfos.tracks cd' !! p = Some t ->
            cdtrack.file t = None \/ JS.truthy (cdtrack.file t) = true).
  { intros p t Hp.
    destruct (declared_lookup _ _ _ _ (eq_sym Hdecl) Hp) as (t0 & Ht0 & Hd0).
    rewrite Forall_lookup in Hall.
    destruct (Hall p t0 Ht0) as (_ & _ & Hf & _).
    rewrite <- (file_declared _ _ Hd0). exact Hf. }
  destruct (JS.truthy (cdtrack.file tr)) eqn:Ht.
  - (* the track opens its file *)
    destruct (cdtrack.file tr) as [f|] eqn:Ef; [| discriminate Ht].
    exists i, tr, f.
    assert (Hown : owner (cdinfos.tracks cd') i = Some i).
    { destruct i; simpl; rewrite Hi; simpl; rewrite Ef, Ht; reflexivity. }
    split; [exact Hown |]. split; [exact Hi |]. split; [exact Ef |].
    split; [exact Ht |].
    split.
    { pose proof (Hc i tr Hlt Hi) as Hx. rewrite Ef in Hx. exact (Hx Ht). }
    left. destruct (Hu i tr Hi) as [_ Hs]; [rewrite Ef; exact Ht |]. auto.
  - (* the track shares the file of its owner *)
    destruct (Hb i tr Hlt Hi Ht) as (o & ow & Ho & How & Es).
    pose proof (owner_bound _ _ _ Ho) as [Hle Hdf].
    rewrite How in Hdf. simpl in Hdf.
    destruct (cdtrack.file ow) as [f|] eqn:Ef; [| discriminate Hdf].
    exists o, ow, f.
    split; [exact Ho |]. split; [exact How |]. split; [exact Ef |].
    split; [exact Hdf |].
    split.
    { pose proof (Hc o ow ltac:(lia) How) as Hx. rewrite Ef in Hx.
      exact (Hx Hdf). }
    right.
    assert (o <> i).
    { intros ->. rewrite How in Hi. injection Hi as <-.
      rewrite Ef, Hdf in Ht. discriminate Ht. }
    split; [lia |].
    destruct (Hfile i tr Hi) as [Hn|Hn]; [| congruence]. auto.
Qed.

End Files.

(** X3. After a load into a new instance exactly one of [file] and [shared]
    is set on every track, and it names the file of the track's owner, the
    last track up to it that opens a file: a track that opens a file is its
    own owner and has no [shared], a track that opens none has in [shared]
    the file of an earlier track. *)
Theorem loaded_file_or_shared `{Host} (input : string) (cd' : cdinfos.t)
    (i : nat) (tr : cdtrack.t) :
  loadCue input cdinfos.new = (Normal tt, cd') ->
  cdinfos.tracks cd' !! i = Some tr ->
  exists o ow f,
    owner (cdinfos.tracks cd') i = Some o /\
    cdinfos.tracks cd' !! o = Some ow /\
    cdtrack.file ow = Some f /\ f <> EmptyString /\
    ((o = i /\ cdtrack.file tr = Some f /\ cdtrack.shared tr = None) \/
     ((o < i)%nat /\ cdtrack.file tr = None /\ cdtrack.shared tr = Some f)).
Proof.
  intros E Hi.
  destruct (loaded_owner_file _ _ _ _ E Hi)
    as (o & ow & f & Ho & How & Ef & Hne & _ & Hcase).
  exists o, ow, f. repeat (split; [assumption |]).
  split; [| exact Hcase].
  intros ->. discriminate Hne.
Qed.

Lemma loaded_file_or_shared_witness :
  exists tr,
    cdinfos.tracks Shelf.loaded !! 1%nat = Some tr /\
    exists o ow f,
      owner (cdinfos.tracks Shelf.loaded) 1 = Some o /\
      cdinfos.tracks Shelf.loaded !! o = Some ow /\
      cdtrack.file ow = Some f /\ f <> EmptyString /\
      ((o = 1%nat /\ cdtrack.file tr = Some f /\ cdtrack.shared tr = None) \/
       ((o < 1)%nat /\ cdtrack.file tr = None /\
        cdtrack.shared tr = Some f)).
Proof.
  eexists. split; [vm_compute; reflexivity |].
  apply (@loaded_file_or_shared (Shelf.host Shelf.sheet Shelf.files)
           "disc.cue" Shelf.loaded 1%nat _ Shelf_loads).
  vm_compute. reflexivity.
Defined.

(** X4. On a disc loaded into a new instance [getTrackFilePath] completes for
    every position of a track: it returns the file of the track's owner,
    joined to the directory of the sheet, and that file exists. Past the
    last track it throws. *)
Theorem track_file_path_exists `{Host} (input : string) (cd' : cdinfos.t) :
  loadCue input cdinfos.new = (Normal tt, cd') ->
  let dir := path_dirname (path_resolve (path_normalize input)) in
  (forall i tr, cdinfos.tracks cd' !! i = Some tr ->
     exists o ow f,
       owner (cdinfos.tracks cd') i = Some o /\
       cdinfos.tracks cd' !! o = Some ow /\
       cdtrack.file ow = Some f /\
       getTrackFilePath i cd' = (Normal (path_join dir f), cd') /\
       fs_existsSync (path_join dir f) = true) /\
  (forall i, (length (cdinfos.tracks cd') <= i)%nat ->
     getTrackFilePath i cd' = (Throw "TypeError", cd')).
Proof.
  intros E dir. split.
  - intros i tr Hi.
    destruct (loaded_owner_file _ _ _ _ E Hi)
      as (o & ow & f & Ho & How & Ef & _ & Hex & Hcase).
    exists o, ow, f. repeat (split; [assumption |]).
    split; [| exact Hex].
    destruct (loaded_disc _ _ E) as (T & _ & _ & _ & _ & _ & Hdir & _).
    unfold getTrackFilePath, file_or_shared. js_run.
    rewrite Hi, Hdir. simpl.
    destruct Hcase as [(_ & -> & _)|(_ & -> & ->)]; reflexivity.
  - intros i Hi. unfold getTrackFilePath. js_run.
    rewrite (lookup_ge_None_2 _ _ Hi). reflexivity.
Qed.

Lemma track_file_path_exists_witness :
  (forall i tr, cdinfos.tracks Shelf.loaded !! i = Some tr ->
     exists o ow f,
       owner (cdinfos.tracks Shelf.loaded) i = Some o /\
       cdinfos.tracks Shelf.loaded !! o = Some ow /\
       cdtrack.file ow = Some f /\
       @getTrackFilePath (Shelf.host Shelf.sheet Shelf.files) i Shelf.loaded
         = (Normal ("/cd" +:+ "/" +:+ f), Shelf.loaded) /\
       Template.is_some (assoc ("/cd" +:+ "/" +:+ f) Shelf.files) = true) /\
  (forall i, (length (cdinfos.tracks Shelf.loaded) <= i)%nat ->
     @getTrackFilePath (Shelf.host Shelf.sheet Shelf.files) i Shelf.loaded
     = (Throw "TypeError", Shelf.loaded)).
Proof.
  exact (@track_file_path_exists (Shelf.host Shelf.sheet Shelf.files)
           "disc.cue" Shelf.loaded Shelf_loads).
Defined.

Lemma audio_fold l : forall acc,
  fold_left
    (fun p c => p + (if cdtrack.isData c then 0 else cdtrack.byteSize c))
    l acc
  = acc + total_size l - data_size l.
Proof.
  unfold data_size.
  induction l as [|x l IH]; intros acc; simpl; [lia |].
  rewrite IH. destruct (cdtrack.isData x); simpl; lia.
Qed.

(** X5. On a disc loaded into a new instance [CD_SIZE] is the sum of the
    sizes of all tracks, and [getAudioSize()] is what remains of it without
    the data tracks: the sizes of the audio tracks and of the data tracks
    add up to [CD_SIZE]. *)
Theorem sizes_add_up `{Host} (input : string) (cd' : cdinfos.t) :
  loadCue input cdinfos.new = (Normal tt, cd') ->
  cdinfos.CD_SIZE cd' = total_size (cdinfos.tracks cd') /\
  exists a, getAudioSize cd' = (Normal a, cd') /\
            a + data_size (cdinfos.tracks cd') = cdinfos.CD_SIZE cd'.
Proof.
  intros E.
  destruct (loaded_disc _ _ E) as (T & _ & _ & _ & _ & _ & _ & _ & _ & _ & Hs).
  split; [exact Hs |].
  unfold getAudioSize. js_run. eexists. split; [reflexivity |].
  rewrite audio_fold. lia.
Qed.

Lemma sizes_add_up_witness :
  cdinfos.CD_SIZE Shelf.loaded = total_size (cdinfos.tracks Shelf.loaded) /\
  exists a,
    @getAudioSize Shelf.loaded = (Normal a, Shelf.loaded) /\
    a + data_size (cdinfos.tracks Shelf.loaded) = cdinfos.CD_SIZE Shelf.loaded.
Proof.
  exact (@sizes_add_up (Shelf.host Shelf.sheet Shelf.files)
           "disc.cue" Shelf.loaded Shelf_loads).
Defined.

(** X6. On a disc loaded into a new instance the tracks of every file tile
    it: a track that opens a file starts at byte 0; a track followed by one
    that opens no file ends where that one starts; every other track ends at
    the size of the file its owner opens. *)
Theorem every_file_is_tiled `{Host} (input : string) (cd' : cdinfos.t)
    (j : nat) (tj : cdtrack.t) :
  loadCue input cdinfos.new = (Normal tt, cd') ->
  cdinfos.tracks cd' !! j = Some tj ->
  let dir := path_dirname (path_resolve (path_normalize input)) in
  (JS.truthy (cdtrack.file tj) = true -> cdtrack.byteStart tj = 0) /\
  exists o ow,
    owner (cdinfos.tracks cd') j = Some o /\
    cdinfos.tracks cd' !! o = Some ow /\
    match cdinfos.tracks cd' !! S j with
    | Some tj1 =>
        if JS.truthy (cdtrack.file tj1) then
          cdtrack.byteStart tj + cdtrack.byteSize tj = file_size dir ow
        else
          cdtrack.byteStart tj + cdtrack.byteSize tj = cdtrack.byteStart tj1
    | None => cdtrack.byteStart tj + cdtrack.byteSize tj = file_size dir ow
    end.
Proof.
  intros E Hj dir.
  destruct (loaded_disc _ _ E)
    as (T & _ & _ & _ & _ & _ & _ & Hext & Hu & _).
  split; [intros Ht; exact (proj1 (Hu j tj Hj Ht)) |].
  destruct (Hext j tj Hj) as (o & ow & Ho & How & Hm).
  exists o, ow. split; [exact Ho |]. split; [exact How |].
  fold dir in Hm.
  destruct (cdinfos.tracks cd' !! S j) as [tj1|]; [| lia].
  destruct (JS.truthy (cdtrack.file tj1)); [lia |].
  destruct Hm as (first & rest & sector & _ & _ & _ & Hm). lia.
Qed.

Lemma every_file_is_tiled_witness :
  exists tj,
    cdinfos.tracks Shelf.loaded !! 1%nat = Some tj /\
    (JS.truthy (cdtrack.file tj) = true -> cdtrack.byteStart tj = 0) /\
    exists o ow,
      owner (cdinfos.tracks Shelf.loaded) 1 = Some o /\
      cdinfos.tracks Shelf.loaded !! o = Some ow /\
      match cdinfos.tracks Shelf.loaded !! 2%nat with
      | Some tj1 =>
          if JS.truthy (cdtrack.file tj1) then
            cdtrack.byteStart tj + cdtrack.byteSize tj
            = @file_size (Shelf.host Shelf.sheet Shelf.files) "/cd" ow
          else
            cdtrack.byteStart tj + cdtrack.byteSize tj
            = cdtrack.byteStart tj1
      | None =>
          cdtrack.byteStart tj + cdtrack.byteSize tj
          = @file_size (Shelf.host Shelf.sheet Shelf.files) "/cd" ow
      end.
Proof.
  eexists. split; [vm_compute; reflexivity |].
  apply (@every_file_is_tiled (Shelf.host Shelf.sheet Shelf.files)
           "disc.cue" Shelf.loaded 1%nat _ Shelf_loads).
  vm_compute. reflexivity.
Defined.

(** * The generated lines, read back *)

(** ** Numbers as text *)

Lemma parse_digits_uint_acc d : forall acc,
  JS.parse_digits (Zpos acc) (NilEmpty.string_of_uint d)
  = Zpos (Pos.of_uint_acc d acc).
Proof.
  induction d; intros acc; simpl; try reflexivity;
    rewrite <- IHd; f_equal;
    change (JS.digit_val _) with 0 || change (JS.digit_val _) with 1
    || change (JS.digit_val _) with 2 || change (JS.digit_val _) with 3
    || change (JS.digit_val _) with 4 || change (JS.digit_val _) with 5
    || change (JS.digit_val _) with 6 || change (JS.digit_val _) with 7
    || change (JS.digit_val _) with 8 || change (JS.digit_val _) with 9;
    lia.
Qed.

Lemma parse_digits_uint d :
  JS.parse_digits 0 (NilEmpty.string_of_uint d) = Z.of_N (Pos.of_uint d).
Proof.
  induction d; simpl; try reflexivity; try assumption;
    apply parse_digits_uint_acc.
Qed.

Lemma all_digits_uint d :
  all_chars JS.is_digit (NilEmpty.string_of_uint d) = true.
Proof. induction d; simpl; auto. Qed.

(** the decimal text of a number that is not negative reads back as the
    number *)
Lemma parseInt_numToString n : 0 <= n -> JS.parseInt (JS.numToString n) = n.
Proof.
  intros Hn. unfold JS.parseInt, JS.numToString.
  destruct n as [|p|p]; [reflexivity | | lia].
  simpl. unfold NilZero.string_of_uint.
  pose proof (DecimalPos.Unsigned.of_to p) as E.
  destruct (Pos.to_uint p) eqn:Ep;
    try (rewrite parse_digits_uint, E; reflexivity).
  simpl in E. discriminate E.
Qed.

Lemma numToString_digits n :
  0 <= n ->
  all_chars JS.is_digit (JS.numToString n) = true /\
  JS.is_empty (JS.numToString n) = false.
Proof.
  intros Hn. unfold JS.numToString.
  destruct n as [|p|p]; [split; reflexivity | | lia].
  simpl. unfold NilZero.string_of_uint.
  destruct (Pos.to_uint p) eqn:Ep; split; try reflexivity;
    try (rewrite <- Ep; apply all_digits_uint).
Qed.

Lemma padStart2_digits s :
  all_chars JS.is_digit s = true -> JS.is_empty s = false ->
  all_chars JS.is_digit (JS.padStart2 s) = true /\
  JS.is_empty (JS.padStart2 s) = false /\
  JS.parseInt (JS.padStart2 s) = JS.parseInt s.
Proof.
  intros Hd He. destruct s as [|a [|b s]]; [discriminate He | |].
  - simpl in *. rewrite Hd. auto.
  - auto.
Qed.





(** ** The first choice of a repetition *)

Section FirstChoice.
Context {R : Type}.
Implicit Types (k : string -> string -> option R) (v : R).

(** a greedy repetition that is offered all it can take, and whose
    continuation accepts that, gives the result of the continuation *)
Lemma star_first c m r k v :
  all_chars c m = true -> head_in c r = false -> k m r = Some v ->
  RegExp.star c (m +:+ r) k = Some v.
Proof.
  revert k. induction m as [|x m IH]; intros k Hm Hr Hk.
  - rewrite append_nil_l. destruct r as [|y r]; simpl; [exact Hk |].
    simpl in Hr. rewrite Hr. exact Hk.
  - rewrite append_cons. simpl in Hm |- *.
    apply andb_prop in Hm as [Hx Hm]. rewrite Hx.
    rewrite (IH (fun m r => k (String x m) r) Hm Hr Hk). reflexivity.
Qed.

Lemma plus_first c m r k v :
  all_chars c m = true -> JS.is_empty m = false -> head_in c r = false ->
  k m r = Some v -> RegExp.plus c (m +:+ r) k = Some v.
Proof.
  destruct m as [|x m]; intros Hm He Hr Hk; [discriminate He |].
  rewrite append_cons. simpl in Hm |- *.
  apply andb_prop in Hm as [Hx Hm]. rewrite Hx.
  exact (star_first c m r (fun m r => k (String x m) r) v Hm Hr Hk).
Qed.

Lemma upto2_first c x y r k v :
  c x = true -> c y = true ->
  k (String x (String y EmptyString)) r = Some v ->
  RegExp.upto2 c (String x (String y r)) k = Some v.
Proof. intros Hx Hy Hk. simpl. rewrite Hx, Hy, Hk. reflexivity. Qed.

End FirstChoice.


(** ** Trimming *)

Lemma last_in_app c a b : last_in c b = true -> last_in c (a +:+ b) = true.
Proof.
  intros Hb. induction a as [|x a IH]; [exact Hb |].
  rewrite append_cons. simpl. rewrite IH.
  destruct (a +:+ b) eqn:E; [discriminate IH | reflexivity].
Qed.



(** ** The INDEX line *)





(** ** The TRACK line *)




(** * Further properties of the time code *)

(** X7. For a negative frame count the time code [fromFrames] writes does not
    convert back to it, unless the count is a multiple of 4500: [toFrames]
    gives 4500 less, and 75 less again when the count is not a multiple of
    75. *)
Theorem fromFrames_negative (f : Z) (this : cuetime.t) :
  f < 0 ->
  cuetime.toFrames (cuetime.fromFrames f this)
    = f - (if Z.rem f 4500 =? 0 then 0 else 4500)
        - (if Z.rem f 75 =? 0 then 0 else 75) /\
  (cuetime.toFrames (cuetime.fromFrames f this) = f <-> Z.rem f 4500 = 0).
Proof.
  intros Hf. unfold cuetime.toFrames, cuetime.fromFrames. simpl.
  pose proof (Z.quot_rem' f 4500) as Q1.
  pose proof (Z.rem_bound_pos_neg f 4500 ltac:(lia) ltac:(lia)) as B1.
  pose proof (Z.quot_rem' f 75) as Q2.
  pose proof (Z.rem_bound_pos_neg f 75 ltac:(lia) ltac:(lia)) as B2.
  pose proof (Z.div_mod f 4500 ltac:(lia)) as D1.
  pose proof (Z.mod_pos_bound f 4500 ltac:(lia)) as M1.
  pose proof (Z.div_mod (Z.rem f 4500) 75 ltac:(lia)) as D2.
  pose proof (Z.mod_pos_bound (Z.rem f 4500) 75 ltac:(lia)) as M2.
  set (r2 := Z.rem f 4500) in *. set (r1 := Z.rem f 75) in *.
  set (q0 := f / 4500) in *. set (q := r2 / 75) in *.
  set (qa := f ÷ 4500) in *. set (qb := f ÷ 75) in *.
  set (m1 := f mod 4500) in *. set (m2 := r2 mod 75) in *.
  clearbody r2 r1 q0 q qa qb m1 m2.
  assert (Hk : 60 * qa + q - qb = 0 \/ 60 * qa + q - qb = -1) by lia.
  destruct (Z.eqb_spec r2 0) as [E1|E1], (Z.eqb_spec r1 0) as [E2|E2].
  - assert (q0 = qa) by lia. lia.
  - lia.
  - assert (q0 = qa - 1) by lia.
    destruct Hk as [Hk|Hk]; (split; [| split; intros ?]); lia.
  - assert (q0 = qa - 1) by lia.
    destruct Hk as [Hk|Hk]; (split; [| split; intros ?]); lia.
Qed.

Lemma fromFrames_negative_witness :
  cuetime.toFrames (cuetime.fromFrames (-100) (cuetime.new 1 0 0 0))
    = -100 - (if Z.rem (-100) 4500 =? 0 then 0 else 4500)
        - (if Z.rem (-100) 75 =? 0 then 0 else 75) /\
  (cuetime.toFrames (cuetime.fromFrames (-100) (cuetime.new 1 0 0 0)) = -100
   <-> Z.rem (-100) 4500 = 0).
Proof. apply (fromFrames_negative (-100) (cuetime.new 1 0 0 0)). lia. Defined.

(** * Further properties of the names *)

Lemma indexOf_first x l : forall i,
  NoDup l -> l !! i = Some x -> Template.indexOf x l = Z.of_nat i.
Proof.
  induction l as [|y l IH]; intros i Hnd Hi; [destruct i; discriminate Hi |].
  apply NoDup_cons in Hnd as [Hy Hnd]. simpl.
  destruct i as [|i]; simpl in Hi.
  - injection Hi as ->. rewrite String.eqb_refl. reflexivity.
  - destruct (String.eqb y x) eqn:E.
    + apply String.eqb_eq in E as ->. exfalso. apply Hy.
      eapply list_elem_of_lookup_2. exact Hi.
    + rewrite (IH i Hnd Hi).
      destruct (Z.of_nat i <? 0) eqn:E0; [apply Z.ltb_lt in E0; lia | lia].
Qed.

Lemma filter_from_nothing p l : forall ind,
  (forall k it, l !! k = Some it -> p it (ind + Z.of_nat k) = false) ->
  Template.filter_from p ind l = [].
Proof.
  induction l as [|y l IH]; intros ind Hp; [reflexivity |].
  simpl. pose proof (Hp 0%nat y eq_refl) as H0.
  rewrite Z.add_0_r in H0. rewrite H0.
  apply IH. intros k it Hk.
  replace (ind + 1 + Z.of_nat k) with (ind + Z.of_nat (S k)) by lia.
  exact (Hp (S k) it Hk).
Qed.

Lemma repeats_of_distinct_names l : NoDup l -> Template.repeats l = [].
Proof.
  intros Hnd. unfold Template.repeats. apply filter_from_nothing.
  intros k it Hk. rewrite (indexOf_first it l k Hnd Hk).
  apply negb_false_iff, Z.eqb_eq. lia.
Qed.

(** X8. [prepareFilenames] completes whenever the sanitized names of the
    tracks are pairwise distinct, and leaves them in [readyFiles], one per
    track in the order of the tracks: it throws for repeated names only. *)
Theorem distinct_names_accepted `{Host} (template : option string)
    (cd : cdinfos.t) :
  let tpl := if JS.truthy template then JS.nullish template EmptyString
             else Template.default (cdinfos.tracks cd) in
  let names := map (fun tr => sanitizePath (fname cd tpl tr))
                   (cdinfos.tracks cd) in
  NoDup names ->
  prepareFilenames template cd
  = (Normal tt, cdinfos.set_readyFiles (Some names) cd).
Proof.
  intros tpl names Hnd. rewrite prepareFilenames_run.
  fold tpl. fold names. rewrite (repeats_of_distinct_names names Hnd).
  reflexivity.
Qed.

Lemma distinct_names_accepted_witness :
  @prepareFilenames (Sample.host [] 0) None Sample_titled
  = (Normal tt,
     cdinfos.set_readyFiles
       (Some (map (fun tr =>
                     fname Sample_titled
                       (Template.default (cdinfos.tracks Sample_titled)) tr)
                  (cdinfos.tracks Sample_titled)))
       Sample_titled).
Proof.
  apply (@distinct_names_accepted (Sample.host [] 0) None Sample_titled).
  apply (bool_decide_unpack _). vm_compute. exact I.
Defined.

(** ** The short names *)

Lemma parse_digits_nonneg s : forall acc,
  0 <= acc -> 0 <= JS.parse_digits acc s.
Proof.
  induction s as [|c s IH]; intros acc Ha; simpl; [exact Ha |].
  destruct (JS.is_digit c) eqn:E; [| exact Ha].
  apply IH. pose proof (digit_val_bounds c E). lia.
Qed.

Lemma numbers_nonneg_step line cd cd' :
  Forall (fun t => 0 <= cdtrack.no t) (cdinfos.tracks cd) ->
  _cueParser line cd = (Normal tt, cd') ->
  Forall (fun t => 0 <= cdtrack.no t) (cdinfos.tracks cd').
Proof.
  intros HP E.
  apply cueParser_normal in E
    as [->|[(_ & o & arg & _ & _ & ->)|[(_ & arg & _ & _ & ->)|
       [(_ & o & arg & _ & _ & ->)|[(_ & arg & _ & _ & ->)|
       [(_ & name & ty & _ & _ & _ & ->)|
       [(_ & n & ty & _ & _ & _ & _ & _ & ->)|
       [(_ & o & tr & n & t & _ & _ & _ & _ & ->)|
        (_ & o & t & _ & _ & ->)]]]]]]]]; simpl; auto;
    try (apply Forall_alter; [exact HP | intros x _ Hx; exact Hx]).
  apply Forall_app. split; [exact HP |]. constructor; [| constructor].
  simpl. apply parse_digits_nonneg. lia.
Qed.

Lemma noStr_inj a b :
  0 <= cdtrack.no a -> 0 <= cdtrack.no b ->
  cdtrack.noStr a = cdtrack.noStr b -> cdtrack.no a = cdtrack.no b.
Proof.
  intros Ha Hb E. unfold cdtrack.noStr in E.
  destruct (numToString_digits _ Ha) as [Da Ea].
  destruct (numToString_digits _ Hb) as [Db Eb].
  destruct (padStart2_digits _ Da Ea) as (_ & _ & Pa).
  destruct (padStart2_digits _ Db Eb) as (_ & _ & Pb).
  rewrite <- (parseInt_numToString _ Ha), <- (parseInt_numToString _ Hb).
  congruence.
Qed.

Lemma NoDup_map_by {A B C : Type} (f : A -> B) (g : A -> C) (l : list A) :
  (forall a b, a ∈ l -> b ∈ l -> f a = f b -> g a = g b) ->
  NoDup (map g l) -> NoDup (map f l).
Proof.
  induction l as [|x l IH]; intros Hfg Hnd; simpl; [constructor |].
  simpl in Hnd. apply NoDup_cons in Hnd as [Hx Hnd].
  apply NoDup_cons. split.
  - intros Hin. apply Hx.
    apply list_elem_of_fmap in Hin as (y & Ey & Hy).
    apply list_elem_of_fmap. exists y. split; [| exact Hy].
    apply Hfg; [left | right; exact Hy | exact Ey].
  - apply IH; [| exact Hnd].
    intros a b Ha Hb. apply Hfg; right; assumption.
Qed.

Lemma fname_short cd tr : fname cd "track{no}" tr = short_name tr.
Proof.
  unfold short_name.
  rewrite <- (append_nil_r (cdtrack.noStr tr)).
  unfold fname, Template.replace.
  cbv -[String.append cdtrack.noStr]. reflexivity.
Qed.

(** X9. The short names never collide on a loaded disc: after a load into a
    new instance, [prepareFilenames("track{no}")] completes and names every
    track [track] followed by its two-digit number, provided [sanitizePath]
    does not merge two of these names. *)
Theorem short_names_accepted `{Host} (input : string) (cd' : cdinfos.t) :
  loadCue input cdinfos.new = (Normal tt, cd') ->
  (forall a b, a ∈ cdinfos.tracks cd' -> b ∈ cdinfos.tracks cd' ->
     sanitizePath (short_name a) = sanitizePath (short_name b) ->
     short_name a = short_name b) ->
  prepareFilenames (Some "track{no}") cd'
  = (Normal tt,
     cdinfos.set_readyFiles
       (Some (map (fun tr => sanitizePath (short_name tr))
                  (cdinfos.tracks cd'))) cd').
Proof.
  intros E Hinj.
  assert (Hpos : Forall (fun t => 0 <= cdtrack.no t) (cdinfos.tracks cd')).
  { pose proof E as E'.
    apply loadCue_normal in E'
      as (lines & cd1 & cd2 & _ & _ & Ep & _ & Ht2 & _ & _ & El).
    apply layout_declared in El. rewrite Ht2 in El.
    apply (declared_Forall _ (cdinfos.tracks cd1) _); [| auto |].
    - unfold declared. intros t t' Ed Ht. inversion Ed. congruence.
    - apply (parse_lines_invariant
               (fun cd => Forall (fun t => 0 <= cdtrack.no t)
                            (cdinfos.tracks cd))
               (fun _ => True)
               (fun line c c' _ => numbers_nonneg_step line c c')
               lines 0 cdinfos.new cd1 (everything lines)); [| exact Ep].
      constructor. }
  destruct (loaded_disc _ _ E) as (T & _ & Hno & _ & _ & Hdecl & _).
  rewrite <- (numbers_declared _ _ Hdecl) in Hno.
  rewrite prepareFilenames_run. simpl.
  rewrite (map_ext _ (fun tr => sanitizePath (short_name tr)))
    by (intros tr; rewrite fname_short; reflexivity).
  rewrite repeats_of_distinct_names; [reflexivity |].
  apply (NoDup_map_by _ cdtrack.no); [| exact Hno].
  intros a b Ha Hb Es. apply Hinj in Es; [| exact Ha | exact Hb].
  rewrite Forall_forall in Hpos.
  apply noStr_inj; [exact (Hpos a Ha) | exact (Hpos b Hb) |].
  unfold short_name in Es.
  apply append_inj_length in Es; [apply Es | reflexivity].
Qed.

Lemma short_names_accepted_witness :
  @prepareFilenames (Shelf.host Shelf.sheet Shelf.files) (Some "track{no}")
    Shelf.loaded
  = (Normal tt,
     cdinfos.set_readyFiles
       (Some (map short_name (cdinfos.tracks Shelf.loaded))) Shelf.loaded).
Proof.
  apply (@short_names_accepted (Shelf.host Shelf.sheet Shelf.files)
           "disc.cue" Shelf.loaded Shelf_loads).
  intros a b _ _ E. exact E.
Defined.

(** ** A template without a tag *)

Lemma tag_of_tagless s : tagless s = true -> Template.tag s = None.
Proof.
  destruct s as [|c s]; [reflexivity |].
  unfold tagless, Template.tag. simpl.
  intros E. apply andb_prop in E as [E _].
  apply negb_true_iff in E. rewrite E. reflexivity.
Qed.

Lemma replace_from_tagless f s : forall fuel,
  tagless s = true -> Template.replace_from fuel f s = s.
Proof.
  induction s as [|c s IH]; intros [|fuel] Ht; try reflexivity.
  - cbn [Template.replace_from]. rewrite (tag_of_tagless _ Ht).
    unfold tagless in Ht. simpl in Ht. apply andb_prop in Ht as [_ Ht].
    rewrite (IH fuel Ht). reflexivity.
Qed.

(** X10. A template without an opening brace names every track alike, so
    [prepareFilenames] throws for it on every disc of two or more tracks,
    after it has left the repeated name in [readyFiles]. *)
Theorem tagless_template_rejected `{Host} (tpl : string) (cd : cdinfos.t) :
  tagless tpl = true ->
  JS.is_empty tpl = false ->
  (2 <= length (cdinfos.tracks cd))%nat ->
  prepareFilenames (Some tpl) cd
  = (Throw "Template resulted in duplicate entries",
     cdinfos.set_readyFiles
       (Some (map (fun _ => sanitizePath tpl) (cdinfos.tracks cd))) cd).
Proof.
  intros Ht He Hlen. rewrite prepareFilenames_run. simpl. rewrite He. simpl.
  assert (Hn : map (fun tr => sanitizePath (fname cd tpl tr))
                 (cdinfos.tracks cd)
               = map (fun _ => sanitizePath tpl) (cdinfos.tracks cd)).
  { apply map_ext. intros tr. unfold fname, Template.replace.
    rewrite (replace_from_tagless _ _ _ Ht). reflexivity. }
  rewrite Hn.
  rewrite (repeats_of_equal_names _ 0%nat 1%nat (sanitizePath tpl));
    [reflexivity | lia | |].
  - destruct (cdinfos.tracks cd) as [|a l]; [simpl in Hlen; lia |].
    reflexivity.
  - destruct (cdinfos.tracks cd) as [|a [|b l]]; simpl in Hlen; try lia.
    reflexivity.
Qed.

Lemma tagless_template_rejected_witness :
  @prepareFilenames (Sample.host [] 0) (Some "track") Sample_titled
  = (Throw "Template resulted in duplicate entries",
     cdinfos.set_readyFiles
       (Some (map (fun _ => "track") (cdinfos.tracks Sample_titled)))
       Sample_titled).
Proof.
  apply (@tagless_template_rejected (Sample.host [] 0) "track" Sample_titled).
  - reflexivity.
  - reflexivity.
  - simpl. lia.
Defined.

(** * The output directory *)

Lemma all_chars_impl (c c' : ascii -> bool) s :
  (forall x, c x = true -> c' x = true) ->
  all_chars c s = true -> all_chars c' s = true.
Proof.
  intros Hc. induction s as [|x s IH]; simpl; [reflexivity |].
  intros E. apply andb_prop in E as [E1 E2].
  rewrite (Hc x E1), (IH E2). reflexivity.
Qed.

Lemma last_in_all c s :
  all_chars c s = true -> JS.is_empty s = false -> last_in c s = true.
Proof.
  induction s as [|x s IH]; [discriminate |].
  simpl. intros E _. apply andb_prop in E as [E1 E2].
  destruct s as [|y s]; [exact E1 |]. apply IH; [exact E2 | reflexivity].
Qed.

Lemma last_in_excludes (c c' : ascii -> bool) s :
  (forall x, c x = true -> c' x = false) ->
  last_in c s = true -> last_in c' s = false.
Proof.
  intros Hc. induction s as [|x s IH]; [discriminate |].
  simpl. destruct s as [|y s]; [apply Hc | exact IH].
Qed.

Lemma substring_prefix p r :
  String.substring 0 (String.length p) (p +:+ r) = p.
Proof.
  induction p as [|c p IH].
  - destruct r; reflexivity.
  - rewrite append_cons. cbn [String.length String.substring].
    rewrite IH. reflexivity.
Qed.

(** the expression of the loop matches a counter and nothing else *)
Lemma at_start_sound s d :
  Counter.at_start s = Some d ->
  s = "(" +:+ d +:+ ")" /\ all_chars JS.is_digit d = true.
Proof.
  unfold Counter.at_start. intros E.
  apply chr_sound in E as (r1 & -> & E).
  apply plus_sound in E as (x & m & r2 & -> & Hd & E).
  apply chr_sound in E as (r3 & -> & E).
  destruct r3; [| discriminate E]. injection E as <-. auto.
Qed.

Lemma at_start_first d :
  all_chars JS.is_digit d = true -> JS.is_empty d = false ->
  Counter.at_start ("(" +:+ d +:+ ")") = Some d.
Proof.
  intros Hd He. unfold Counter.at_start.
  change ("(" +:+ d +:+ ")") with (String "(" (d +:+ ")")).
  simpl.
  apply plus_first; [exact Hd | exact He | reflexivity | reflexivity].
Qed.

Lemma exec_without_counter s : forall i,
  last_in (fun c => Ascii.eqb c ")") s = false ->
  Counter.exec_from i s = None.
Proof.
  induction s as [|c s IH]; intros i Hl; [reflexivity |].
  cbn [Counter.exec_from].
  destruct (Counter.at_start (String c s)) as [d|] eqn:E.
  - apply at_start_sound in E as [E Hd]. rewrite E in Hl.
    rewrite <- append_assoc in Hl.
    rewrite last_in_app in Hl; [discriminate Hl | reflexivity].
  - destruct s as [|y s]; [reflexivity |]. apply IH. exact Hl.
Qed.

Lemma exec_counter p d : forall i,
  all_chars JS.is_digit d = true -> JS.is_empty d = false ->
  Counter.exec_from i (p +:+ "(" +:+ d +:+ ")")
  = Some ((i + String.length p)%nat, d).
Proof.
  induction p as [|c p IH]; intros i Hd He.
  - rewrite append_nil_l. change ("(" +:+ d +:+ ")")
      with (String "(" (d +:+ ")")).
    cbn [Counter.exec_from].
    change (String "(" (d +:+ ")")) with ("(" +:+ d +:+ ")").
    rewrite (at_start_first d Hd He). simpl. rewrite Nat.add_0_r.
    reflexivity.
  - rewrite append_cons. cbn [Counter.exec_from].
    destruct (Counter.at_start (String c (p +:+ "(" +:+ d +:+ ")")))
      as [d'|] eqn:E.
    + exfalso. apply at_start_sound in E as [E Hd'].
      change ("(" +:+ d' +:+ ")") with (String "(" (d' +:+ ")")) in E.
      injection E as _ E.
      set (q := fun x => JS.is_digit x || Ascii.eqb x ")").
      assert (H1 : all_chars q (d' +:+ ")") = true).
      { rewrite all_chars_app.
        rewrite (all_chars_impl JS.is_digit q d'); [reflexivity | | exact Hd'].
        intros x Hx. unfold q. rewrite Hx. reflexivity. }
      rewrite <- E in H1. rewrite all_chars_app in H1.
      apply andb_prop in H1 as [_ H1].
      change ("(" +:+ d +:+ ")") with (String "(" (d +:+ ")")) in H1.
      simpl in H1. discriminate H1.
    + rewrite (IH (S i) Hd He). simpl. f_equal. f_equal. lia.
Qed.

Section OutputDirProps.
Context `{Host}.

Lemma next_path_first base :
  last_in (fun c => Ascii.eqb c "]") base = true ->
  next_path base = candidate base 1.
Proof.
  intros Hl. unfold next_path, Counter.exec.
  rewrite exec_without_counter; [reflexivity |].
  apply (last_in_excludes (fun c => Ascii.eqb c "]")); [| exact Hl].
  intros x Hx. apply Ascii.eqb_eq in Hx as ->. reflexivity.
Qed.

Lemma next_path_counter base k :
  next_path (candidate base (S k)) = candidate base (S (S k)).
Proof.
  unfold candidate.
  set (n := Z.of_nat (S k) + 1).
  assert (Hn : 0 <= n) by (unfold n; lia).
  destruct (numToString_digits n Hn) as [Hd He].
  replace (base +:+ " (" +:+ JS.numToString n +:+ ")")
    with ((base +:+ " ") +:+ "(" +:+ JS.numToString n +:+ ")")
    by (rewrite append_assoc; reflexivity).
  unfold next_path, Counter.exec.
  rewrite (exec_counter _ _ 0%nat Hd He). simpl.
  rewrite substring_prefix, (parseInt_numToString n Hn).
  rewrite append_assoc.
  replace (Z.of_nat (S (S k)) + 1) with (n + 1) by (unfold n; lia).
  reflexivity.
Qed.

Lemma next_path_candidate base k :
  last_in (fun c => Ascii.eqb c "]") base = true ->
  next_path (candidate base k) = candidate base (S k).
Proof.
  intros Hl. destruct k as [|k];
    [exact (next_path_first base Hl) | apply next_path_counter].
Qed.

(** the loop stops at the first path, in the order it tries them, that does
    not exist *)
Lemma unique_path_first_free base n : forall fuel k,
  last_in (fun c => Ascii.eqb c "]") base = true ->
  (forall j, (k <= j < n)%nat -> fs_existsSync (candidate base j) = true) ->
  fs_existsSync (candidate base n) = false ->
  (k <= n)%nat -> (n - k <= fuel)%nat ->
  unique_path fuel (candidate base k) = Some (candidate base n).
Proof.
  induction fuel as [|fuel IH]; intros k Hl Hex Hfree Hk Hf.
  - assert (k = n) as -> by lia. simpl. rewrite Hfree. reflexivity.
  - simpl. destruct (decide (k = n)) as [->|Hne].
    + rewrite Hfree. reflexivity.
    + rewrite (Hex k) by lia. rewrite (next_path_candidate base k Hl).
      apply IH; auto; try lia. intros j Hj. apply Hex. lia.
Qed.

Lemma first_path_ends ONLY cd out base :
  first_path ONLY cd out = Some base ->
  last_in (fun c => Ascii.eqb c "]") base = true.
Proof.
  unfold first_path.
  destruct (match out with Some p => Some p | None => cdinfos.FILE_DIR cd end)
    as [p|]; [| discriminate].
  intros [= <-]. destruct (JS.truthy ONLY).
  - rewrite <- !append_assoc. apply last_in_app. reflexivity.
  - apply last_in_app. reflexivity.
Qed.

End OutputDirProps.

(** X11. [createOuputDir] settles on the first path that does not exist, in
    the order the first path, the first path with [(2)], with [(3)] and so
    on: when the first [n] of these exist and the next one does not, it
    creates and returns that one, or throws when the directory cannot be
    created. *)
Theorem output_dir_is_first_free `{Host} (ONLY : option string)
    (mkdirSync : string -> bool) (cd : cdinfos.t) (out : option string)
    (base : string) (n fuel : nat) :
  first_path ONLY cd out = Some base ->
  (forall k, (k < n)%nat -> fs_existsSync (candidate base k) = true) ->
  fs_existsSync (candidate base n) = false ->
  (n <= fuel)%nat ->
  createOuputDir ONLY mkdirSync fuel cd out
  = Some (if mkdirSync (candidate base n)
          then Normal (candidate base n)
          else Throw ("Cannot create : " +:+ JS.QUOTE +:+ candidate base n
                      +:+ JS.QUOTE)).
Proof.
  intros Hb Hex Hfree Hf. unfold createOuputDir. rewrite Hb.
  change base with (candidate base 0) at 1.
  rewrite (unique_path_first_free base n fuel 0%nat
             (first_path_ends _ _ _ _ Hb)); auto; try lia.
  - destruct (mkdirSync (candidate base n)); reflexivity.
  - intros j Hj. apply Hex. lia.
Qed.

Lemma output_dir_is_first_free_witness :
  @createOuputDir Shelf_output None (fun _ => true) 5 Shelf_disc (Some "/out")
  = Some (Normal "/out/disc [e] (4)").
Proof.
  apply (@output_dir_is_first_free Shelf_output None (fun _ => true)
           Shelf_disc (Some "/out") "/out/disc [e]" 3 5).
  - reflexivity.
  - intros k Hk.
    destruct k as [|[|[|k]]]; [reflexivity | reflexivity | reflexivity | lia].
  - reflexivity.
  - lia.
Defined.

(** * A sheet without tracks *)

Lemma trackless_step line cd cd' :
  command "TRACK" line = false -> cdinfos.tracks cd = [] ->
  _cueParser line cd = (Normal tt, cd') -> cdinfos.tracks cd' = [].
Proof.
  intros Hq Ht E.
  apply cueParser_normal in E
    as [->|[(_ & o & arg & _ & _ & ->)|[(_ & arg & _ & _ & ->)|
       [(_ & o & arg & _ & _ & ->)|[(_ & arg & _ & _ & ->)|
       [(_ & name & ty & _ & _ & _ & ->)|
       [(C & _)|
       [(_ & o & tr & n & t & _ & _ & _ & _ & ->)|
        (_ & o & t & _ & _ & ->)]]]]]]]]; simpl; auto;
    try (rewrite Ht; reflexivity).
  congruence.
Qed.

(** X12. A sheet without a TRACK line never loads, whatever else it holds:
    an empty sheet, blank lines, comments, FILE and TITLE lines. When its
    lines are read without an error, [loadCue] throws for the missing
    tracks. *)
Theorem sheet_without_track_rejected (lines : list string) :
  Forall (fun raw => is_command "TRACK" raw = false) lines ->
  rejected lines.
Proof.
  intros Hq. apply rejected_of_fails. intros H input Hl.
  apply (loadCue_fails input lines Hl). intros cd1 E.
  assert (Ht : cdinfos.tracks cd1 = []).
  { exact (parse_lines_invariant (fun cd => cdinfos.tracks cd = [])
             (fun line => command "TRACK" line = false)
             trackless_step lines 0 cdinfos.new cd1 Hq eq_refl E). }
  unfold post_parse, bind, update, this. simpl. rewrite Ht. reflexivity.
Qed.

Lemma sheet_without_track_rejected_witness : rejected Shelf_trackless.
Proof.
  apply (sheet_without_track_rejected Shelf_trackless).
  repeat constructor.
Defined.

(** * The generated sheet of a loaded disc *)

Lemma count_app {A : Type} (p : A -> bool) a b :
  length (List.filter p (a ++ b))
  = (length (List.filter p a) + length (List.filter p b))%nat.
Proof. rewrite List.filter_app, length_app. reflexivity. Qed.

Lemma no_file_line_among (l : list string) :
  Forall (fun s => is_file_line s = false) l ->
  length (List.filter is_file_line l) = 0%nat.
Proof.
  induction 1 as [|x l Hx _ IH]; simpl; [reflexivity |].
  rewrite Hx. exact IH.
Qed.

Lemma index_line_not_file i0 iit : is_file_line (Sheet.index_line i0 iit) = false.
Proof. reflexivity. Qed.

Lemma header_count cd :
  length (List.filter is_file_line (Sheet.header cd)) = 0%nat.
Proof.
  unfold Sheet.header. destruct (negb _); reflexivity.
Qed.

Lemma file_line_is_file tr fn aExt :
  is_file_line (Sheet.file_line tr fn aExt) = true.
Proof. unfold Sheet.file_line. destruct (cdtrack.isData tr); reflexivity. Qed.

(** the block of a track with an index holds one FILE line *)
Lemma track_block_count aExt fn tr :
  cdtrack.indexes tr <> [] ->
  exists b, Sheet.track_block aExt fn tr = Some b /\
            length (List.filter is_file_line b) = 1%nat.
Proof.
  intros Hi. unfold Sheet.track_block, Sheet.index_lines.
  destruct (cdtrack.indexes tr) as [|first rest] eqn:Ei; [congruence |].
  eexists. split; [reflexivity |].
  rewrite !count_app. simpl. rewrite file_line_is_file. simpl.
  assert (H1 : forall key v,
            length (List.filter is_file_line (Sheet.quoted_line key v))
            = 0%nat).
  { intros key v. unfold Sheet.quoted_line. destruct (JS.truthy v);
      reflexivity. }
  rewrite (H1 "TITLE"), (H1 "PERFORMER").
  assert (H2 : length (List.filter is_file_line (Sheet.pregap_lines tr))
               = 0%nat).
  { unfold Sheet.pregap_lines. destruct (cdtrack.pregap tr); reflexivity. }
  rewrite H2.
  assert (H3 : length (List.filter is_file_line
                 (map (Sheet.index_line (cuetime.toFrames first)) rest))
               = 0%nat).
  { apply no_file_line_among. apply Forall_forall. intros s Hs.
    apply list_elem_of_fmap in Hs as (c & -> & _). reflexivity. }
  rewrite H3. reflexivity.
Qed.

Lemma blocks_count aExt files trs : forall i,
  Forall (fun t => cdtrack.indexes t <> []) trs ->
  exists bs, Sheet.blocks aExt files i trs = Some bs /\
             length (List.filter is_file_line bs) = length trs.
Proof.
  induction trs as [|tr trs IH]; intros i Hall; simpl.
  - exists []. auto.
  - inversion Hall as [|? ? Htr Hrest]; subst.
    destruct (track_block_count aExt
                (JS.nullish (files !! i) "undefined") tr Htr)
      as (b & -> & Hb).
    destruct (IH (S i) Hrest) as (bs & -> & Hbs).
    exists (b ++ bs). split; [reflexivity |].
    rewrite count_app, Hb, Hbs. reflexivity.
Qed.

(** X13. On a disc loaded into a new instance, once [prepareFilenames] has
    completed, [buildCueFileForCBAE] completes too, it never finds a track
    without an index, and the sheet it returns has one FILE line for every
    track. *)
Theorem generated_sheet_one_file_per_track `{Host} (input : string)
    (template : option string) (aExt : string) (cd1 cd2 : cdinfos.t) :
  loadCue input cdinfos.new = (Normal tt, cd1) ->
  prepareFilenames template cd1 = (Normal tt, cd2) ->
  exists sheet,
    buildCueFileForCBAE aExt cd2 = (Normal sheet, cd2) /\
    length (List.filter is_file_line sheet) = length (cdinfos.tracks cd2).
Proof.
  intros E Ep.
  rewrite prepareFilenames_run in Ep.
  destruct (0 <? _)%nat; [discriminate Ep |]. injection Ep as <-.
  apply loadCue_new in E as (c1 & c2 & _ & _ & Hone & Ht2 & _ & _ & El).
  apply layout_declared in El. rewrite Ht2 in El.
  assert (Hall : Forall (fun t => cdtrack.indexes t <> [])
                   (cdinfos.tracks cd1)).
  { apply (declared_Forall _ (cdinfos.tracks c1) _); [| auto |].
    - intros t t' Ed Ht. rewrite <- (indexes_declared _ _ Ed). exact Ht.
    - eapply Forall_impl; [exact Hone |].
      intros t Ht Hn. unfold cdtrack.indexExists in Ht. rewrite Hn in Ht.
      discriminate Ht. }
  unfold buildCueFileForCBAE. js_run.
  match goal with
  | |- context [Sheet.blocks aExt ?f 0 _] =>
      destruct (blocks_count aExt f (cdinfos.tracks cd1) 0%nat Hall)
        as (bs & Eb & Hc)
  end.
  rewrite Eb. eexists. split; [reflexivity |].
  rewrite count_app, header_count, Hc. reflexivity.
Qed.

Lemma generated_sheet_one_file_per_track_witness :
  exists sheet,
    @buildCueFileForCBAE (Shelf.host Shelf.sheet Shelf.files) ".mp3"
      Shelf_named = (Normal sheet, Shelf_named) /\
    length (List.filter is_file_line sheet)
    = length (cdinfos.tracks Shelf_named).
Proof.
  apply (@generated_sheet_one_file_per_track
           (Shelf.host Shelf.sheet Shelf.files) "disc.cue" None ".mp3"
           Shelf.loaded Shelf_named Shelf_loads).
  vm_compute. reflexivity.
Defined.

(** * The case of the letters *)

Lemma upper_char_space c : JS.is_space (JS.upper_char c) = JS.is_space c.
Proof. destruct c as [[] [] [] [] [] [] [] []]; reflexivity. Qed.

Lemma toUpperCase_empty s : JS.is_empty (JS.toUpperCase s) = JS.is_empty s.
Proof. destruct s; reflexivity. Qed.

Lemma trimStart_upper s :
  JS.trimStart (JS.toUpperCase s) = JS.toUpperCase (JS.trimStart s).
Proof.
  unfold JS.toUpperCase. induction s as [|c s IH]; [reflexivity |].
  simpl. rewrite upper_char_space. destruct (JS.is_space c); [exact IH |].
  reflexivity.
Qed.

Lemma trimEnd_upper s :
  JS.trimEnd (JS.toUpperCase s) = JS.toUpperCase (JS.trimEnd s).
Proof.
  induction s as [|c s IH]; [reflexivity |].
  change (JS.toUpperCase (String c s))
    with (String (JS.upper_char c) (JS.toUpperCase s)).
  cbn [JS.trimEnd]. rewrite IH, upper_char_space, toUpperCase_empty.
  destruct (JS.is_space c && JS.is_empty (JS.trimEnd s)); reflexivity.
Qed.

Lemma trim_upper s : JS.trim (JS.toUpperCase s) = JS.toUpperCase (JS.trim s).
Proof. unfold JS.trim. rewrite trimStart_upper, trimEnd_upper. reflexivity. Qed.

Lemma cueParser_by_upper_case line line' :
  JS.toUpperCase line = JS.toUpperCase line' ->
  command "FILE" line = false ->
  _cueParser line = _cueParser line'.
Proof.
  intros E Hf. unfold _cueParser. rewrite <- E.
  unfold command in Hf. rewrite Hf. reflexivity.
Qed.

(** X14. But for the FILE lines, the reader sees a line through its
    upper-cased form only: two lines that differ in the case of their
    letters, keywords included, are read alike. *)
Theorem lines_read_by_upper_case (l : Z) (a b : string) :
  JS.toUpperCase a = JS.toUpperCase b ->
  is_command "FILE" a = false ->
  parse_line l a = parse_line l b.
Proof.
  intros E Hf.
  assert (Et : JS.toUpperCase (JS.trim a) = JS.toUpperCase (JS.trim b)).
  { rewrite <- !trim_upper, E. reflexivity. }
  unfold parse_line.
  rewrite <- (toUpperCase_empty (JS.trim a)), Et, toUpperCase_empty.
  rewrite (cueParser_by_upper_case _ _ Et Hf). reflexivity.
Qed.

Lemma lines_read_by_upper_case_witness :
  parse_line 2 "  index 01 00:02:00" = parse_line 2 "  INDEX 01 00:02:00".
Proof.
  apply (lines_read_by_upper_case 2 "  index 01 00:02:00"
           "  INDEX 01 00:02:00"); reflexivity.
Defined.

(** * The lines of a track, read back *)








(** * The first release: the name of an untitled disc *)

Section GiveBack.
Context {R : Type}.
Implicit Types (k : string -> string -> option R) (v : R).

(** a greedy repetition gives characters back until the continuation
    accepts: when every longer match is refused, the result is that of the
    match the continuation accepts *)
Lemma star_give_back c m r0 k v :
  all_chars c m = true -> k m r0 = Some v ->
  (forall m' r', m' +:+ r' = m +:+ r0 ->
     (String.length r' < String.length r0)%nat -> k m' r' = None) ->
  RegExp.star c (m +:+ r0) k = Some v.
Proof.
  revert k. induction m as [|x m IH]; intros k Hm Hk Hlong.
  - rewrite append_nil_l in *. destruct r0 as [|y r0]; [exact Hk |].
    simpl. destruct (c y); [| exact Hk].
    destruct (RegExp.star c r0 (fun m r => k (String y m) r)) as [v'|] eqn:E;
      [| exact Hk].
    apply star_sound in E as (m1 & r1 & E1 & _ & Hk1).
    rewrite (Hlong (String y m1) r1) in Hk1; [discriminate Hk1 | |].
    + rewrite append_cons, <- E1. reflexivity.
    + rewrite E1. simpl. rewrite length_append. lia.
  - rewrite append_cons. simpl in Hm |- *.
    apply andb_prop in Hm as [Hx Hm]. rewrite Hx.
    rewrite (IH (fun m r => k (String x m) r) Hm Hk); [reflexivity |].
    intros m' r' E Hl. apply Hlong; [| exact Hl].
    rewrite !append_cons, E. reflexivity.
Qed.

End GiveBack.

Lemma search_here {R : Type} (p : string -> option R) s v :
  p s = Some v -> RegExp.search p s = Some v.
Proof. intros E. destruct s; simpl; rewrite E; reflexivity. Qed.

Lemma toLowerCase_length s :
  String.length (JS.toLowerCase s) = String.length s.
Proof.
  unfold JS.toLowerCase. induction s as [|c s IH]; simpl; congruence.
Qed.

(** a run without a separator stops before the end of a text that ends with
    one *)
Lemma run_stops_before d : forall m r x,
  all_chars V09.not_separator m = true ->
  last_in is_separator d = true ->
  m +:+ r = d +:+ x ->
  (String.length x < String.length r)%nat.
Proof.
  induction d as [|c d IH]; intros m r x Hm Hd E; [discriminate Hd |].
  destruct m as [|c' m].
  - rewrite append_nil_l in E. rewrite E, length_append. simpl. lia.
  - rewrite !append_cons in E. injection E as -> E.
    simpl in Hm. apply andb_prop in Hm as [Hc Hm].
    destruct d as [|c2 d].
    + simpl in Hd. unfold is_separator in Hd. rewrite Hc in Hd.
      discriminate Hd.
    + apply (IH m r x Hm Hd E).
Qed.

Lemma cue_name_at_name name ext :
  all_chars V09.not_separator name = true ->
  JS.toLowerCase ext = ".cue" ->
  RegExp.star V09.not_separator (name +:+ ext)
    (fun m r => if String.eqb (JS.toLowerCase r) ".cue" then Some m else None)
  = Some name.
Proof.
  intros Hn He. apply star_give_back; [exact Hn | |].
  - rewrite He. reflexivity.
  - intros m' r' _ Hl.
    destruct (String.eqb (JS.toLowerCase r') ".cue") eqn:E; [| reflexivity].
    apply String.eqb_eq in E.
    pose proof (toLowerCase_length r') as L1.
    pose proof (toLowerCase_length ext) as L2.
    rewrite E in L1. rewrite He in L2. simpl in L1, L2. lia.
Qed.

(** X16. The first release names an untitled disc after its sheet: for a path
    made of a directory part that is empty or ends with a slash or a
    backslash, a name without either, and the extension in any case of the
    letters, the expression of [loadCue] gives the name. *)
Theorem cue_name_of_path (dir name ext : string) :
  dir = EmptyString \/ last_in is_separator dir = true ->
  all_chars V09.not_separator name = true ->
  JS.toLowerCase ext = ".cue" ->
  V09.cue_name (dir +:+ name +:+ ext) = Some name.
Proof.
  intros Hd Hn He. unfold V09.cue_name.
  assert (Hat : forall s,
            s = name +:+ ext ->
            RegExp.search (fun s0 =>
              RegExp.star V09.not_separator s0 (fun m r =>
                if String.eqb (JS.toLowerCase r) ".cue" then Some m
                else None)) s = Some name).
  { intros s ->. apply search_here. exact (cue_name_at_name _ _ Hn He). }
  destruct Hd as [->|Hd]; [rewrite append_nil_l; apply Hat; reflexivity |].
  induction dir as [|c dir IH]; [discriminate Hd |].
  rewrite append_cons. cbn [RegExp.search].
  destruct (RegExp.star V09.not_separator
              (String c (dir +:+ name +:+ ext)) _) as [v|] eqn:E.
  - exfalso. apply star_sound in E as (m & r & E1 & Hm & Hk).
    destruct (String.eqb (JS.toLowerCase r) ".cue") eqn:Er;
      [| discriminate Hk].
    apply String.eqb_eq in Er.
    pose proof (run_stops_before (String c dir) m r (name +:+ ext) Hm Hd
                  (eq_sym E1)) as Hl.
    pose proof (toLowerCase_length r) as L1.
    pose proof (toLowerCase_length ext) as L2.
    rewrite Er in L1. rewrite He in L2.
    rewrite length_append in Hl. simpl in L1, L2. lia.
  - destruct dir as [|c2 dir].
    + rewrite append_nil_l. apply Hat. reflexivity.
    + apply IH. exact Hd.
Qed.

Lemma cue_name_of_path_witness :
  V09.cue_name ("C:\games/" +:+ "Quake (1996)" +:+ ".CUE")
  = Some "Quake (1996)".
Proof.
  apply (cue_name_of_path "C:\games/" "Quake (1996)" ".CUE").
  - right. reflexivity.
  - reflexivity.
  - reflexivity.
Defined.

(** * The open track *)

(** X17. While a new instance reads a sheet, the reference [opentrack]
    points to the last track of [tracks], and to nothing before the first
    TRACK line; every track but the last has an index numbered 1; the first
    track opens a file; no two tracks have the same number. *)
Theorem open_track_is_last (l : Z) (lines : list string) (cd : cdinfos.t) :
  parse_lines l lines cdinfos.new = (Normal tt, cd) ->
  open_is_last cd /\
  (forall j t, cdinfos.tracks cd !! j = Some t ->
     (S j < length (cdinfos.tracks cd))%nat ->
     cdtrack.indexExists 1 t = true) /\
  (cdinfos.tracks cd <> [] ->
     declares_file (cdinfos.tracks cd !! 0%nat) = true) /\
  NoDup (track_numbers cd).
Proof.
  intros E.
  assert (HP : parsing cd).
  { exact (parse_lines_invariant parsing (fun _ => True)
             (fun line c c' _ => parsing_step line c c')
             lines l cdinfos.new cd (everything lines) parsing_new E). }
  destruct HP as (Hopen & Hno & _ & Hone & _ & Hfirst & _). auto.
Qed.

Lemma open_track_is_last_witness :
  open_is_last Shelf_reading /\
  (forall j t, cdinfos.tracks Shelf_reading !! j = Some t ->
     (S j < length (cdinfos.tracks Shelf_reading))%nat ->
     cdtrack.indexExists 1 t = true) /\
  (cdinfos.tracks Shelf_reading <> [] ->
     declares_file (cdinfos.tracks Shelf_reading !! 0%nat) = true) /\
  NoDup (track_numbers Shelf_reading).
Proof.
  apply (open_track_is_last 0 [Sample.FILE_a; "  TRACK 01 AUDIO"]
           Shelf_reading).
  vm_compute. reflexivity.
Defined.

(** * The tags of a template *)

(** a lazy repetition takes the shortest run its continuation accepts *)
Lemma lazy_star_until {R : Type} c m r
    (k : string -> string -> option R) v :
  all_chars c m = true ->
  (forall m1 y m2, m = m1 +:+ String y m2 ->
     k m1 (String y m2 +:+ r) = None) ->
  k m r = Some v ->
  Template.lazy_star c (m +:+ r) k = Some v.
Proof.
  revert k. induction m as [|x m IH]; intros k Hm Hshort Hk.
  - rewrite append_nil_l. destruct r; simpl; rewrite Hk; reflexivity.
  - rewrite append_cons. cbn [Template.lazy_star].
    rewrite <- append_cons.
    rewrite (Hshort EmptyString x m eq_refl).
    simpl in Hm. apply andb_prop in Hm as [Hx Hm]. rewrite Hx.
    apply IH; [exact Hm | | exact Hk].
    intros m1 y m2 ->. apply (Hshort (String x m1) y m2). reflexivity.
Qed.

Lemma tag_first b post :
  tag_name b = true ->
  Template.tag ("{" +:+ b +:+ "}" +:+ post) = Some (b, post).
Proof.
  unfold tag_name. intros Hb. apply andb_prop in Hb as [Hne Hb].
  destruct b as [|x b]; [discriminate Hne |].
  simpl in Hb. apply andb_prop in Hb as [Hx Hb].
  apply andb_prop in Hx as [Hx _].
  unfold Template.tag.
  change ("{" +:+ String x b +:+ "}" +:+ post)
    with (String "{" (String x (b +:+ "}" +:+ post))).
  simpl. rewrite Hx.
  apply lazy_star_until.
  - apply (all_chars_impl _ _ _ (fun c H => proj1 (andb_prop _ _ H)) Hb).
  - intros m1 y m2 ->. rewrite all_chars_app in Hb.
    apply andb_prop in Hb as [_ Hb]. simpl in Hb.
    apply andb_prop in Hb as [Hy _]. apply andb_prop in Hy as [_ Hy].
    apply negb_true_iff in Hy. rewrite append_cons. simpl. rewrite Hy.
    reflexivity.
  - reflexivity.
Qed.

Lemma replace_from_keeps f pre s : forall fuel,
  tagless pre = true ->
  Template.replace_from (String.length pre + fuel) f (pre +:+ s)
  = pre +:+ Template.replace_from fuel f s.
Proof.
  induction pre as [|c pre IH]; intros fuel Ht; [reflexivity |].
  rewrite append_cons. cbn [String.length Nat.add Template.replace_from].
  assert (Hc : Template.tag (String c (pre +:+ s)) = None).
  { unfold tagless in Ht. simpl in Ht. apply andb_prop in Ht as [Hc _].
    apply negb_true_iff in Hc. unfold Template.tag. simpl. rewrite Hc.
    reflexivity. }
  rewrite Hc. unfold tagless in Ht. simpl in Ht.
  apply andb_prop in Ht as [_ Ht]. rewrite (IH fuel Ht). reflexivity.
Qed.

(** X18. The template engine keeps the text before the first tag, replaces
    the tag by the value of its name, and goes on after the closing brace:
    for a text without an opening brace followed by a tag whose name is not
    empty and has no closing brace, the result is the text, the value of the
    name, and the result for what follows the tag. *)
Theorem template_tag_replaced (f : string -> string)
    (pre b post : string) :
  tagless pre = true ->
  tag_name b = true ->
  Template.replace f (pre +:+ "{" +:+ b +:+ "}" +:+ post)
  = pre +:+ f b +:+ Template.replace f post.
Proof.
  intros Hp Hb. unfold Template.replace.
  rewrite length_append.
  rewrite (replace_from_keeps f pre _ _ Hp).
  change (String.length ("{" +:+ b +:+ "}" +:+ post))
    with (S (String.length (b +:+ "}" +:+ post))).
  cbn [Template.replace_from]. rewrite (tag_first b post Hb).
  assert (Hl : (String.length post
                <= String.length (b +:+ "}" +:+ post))%nat).
  { rewrite !length_append. lia. }
  rewrite (replace_from_enough f _ (String.length post) post Hl (le_n _)).
  reflexivity.
Qed.

Lemma template_tag_replaced_witness :
  Template.replace (Template.value Sample_titled Shelf_track)
    ("track" +:+ "{" +:+ "no" +:+ "}" +:+ ".bin")
  = "track" +:+ Template.value Sample_titled Shelf_track "no" +:+
    Template.replace (Template.value Sample_titled Shelf_track) ".bin".
Proof.
  apply (template_tag_replaced (Template.value Sample_titled Shelf_track)
           "track" "no" ".bin"); reflexivity.
Defined.
